(** * Crank: a shallow embedding of the reconciler and component scheduler

    Two revisions of the core live in the repository: the class based
    one ([src/index.ts]: LeafNode, ParentNode, FragmentNode, HostNode,
    ComponentNode) and the element based one (the flat functions mount,
    update, updateChildren, prepareCommit, commit, unmount, handle, run,
    step working on Element records carrying a [flags] bit set).  They
    are embedded side by side, in [Module Nodes] and [Module Elements],
    over a common model of JavaScript values ([Module JS]) and of the
    promise machinery ([Module Promises]). *)

From Stdlib Require Import ZArith String List Bool Lia.
From stdpp Require Import base option list strings pretty gmap.

Set Warnings "-register-all".
Local Open Scope string_scope.
Local Open Scope list_scope.

(** ** JavaScript values *)

Module JS.

(** Objects whose identity alone matters are [VOpaque]; object literals
    are the ordered list of their enumerable entries, in the order a
    [for ... in] loop visits them; arrays keep their holes.  Symbols are
    the registered ones ([Symbol.for]), named by their description.  An
    element descriptor, the object [{__sigil__, tag, props, key, ref}]
    that [createElement] of [index.ts] builds, is [VElement]: the sigil
    is the constructor.  A promise is its address in the promise heap,
    an iterator (sync or async) its address in the environment. *)
Inductive val : Type :=
| VUndefined
| VNull
| VBoolean (b : bool)
| VNumber (n : Z)
| VString (s : string)
| VSymbol (description : string)
| VFunction (addr : nat)
| VOpaque (addr : nat)
| VArray (items : list (option val))
| VObject (fields : list (string * val))
| VElement (tag : val) (props : list (string * val)) (key ref : val)
| VPromise (p : nat)
| VIterator (addr : nat).

Section val_rect_nested.
Variable P : val -> Type.
Variable Pa : list (option val) -> Type.
Variable Po : list (string * val) -> Type.
Hypothesis Hundefined : P VUndefined.
Hypothesis Hnull : P VNull.
Hypothesis Hboolean : forall b, P (VBoolean b).
Hypothesis Hnumber : forall n, P (VNumber n).
Hypothesis Hstring : forall s, P (VString s).
Hypothesis Hsymbol : forall s, P (VSymbol s).
Hypothesis Hfunction : forall a, P (VFunction a).
Hypothesis Hopaque : forall a, P (VOpaque a).
Hypothesis Harray : forall l, Pa l -> P (VArray l).
Hypothesis Hobject : forall l, Po l -> P (VObject l).
Hypothesis Helement :
  forall t p k r, P t -> Po p -> P k -> P r -> P (VElement t p k r).
Hypothesis Hpromise : forall p, P (VPromise p).
Hypothesis Hiterator : forall a, P (VIterator a).
Hypothesis Pa_nil : Pa [].
Hypothesis Pa_hole : forall l, Pa l -> Pa (None :: l).
Hypothesis Pa_cons : forall v l, P v -> Pa l -> Pa (Some v :: l).
Hypothesis Po_nil : Po [].
Hypothesis Po_cons : forall k v l, P v -> Po l -> Po ((k, v) :: l).

Fixpoint val_rect_nested (v : val) : P v :=
  let fields :=
    fix fields (l : list (string * val)) : Po l :=
      match l with
      | [] => Po_nil
      | (k, x) :: l' => Po_cons k x l' (val_rect_nested x) (fields l')
      end in
  match v with
  | VUndefined => Hundefined
  | VNull => Hnull
  | VBoolean b => Hboolean b
  | VNumber n => Hnumber n
  | VString s => Hstring s
  | VSymbol s => Hsymbol s
  | VFunction a => Hfunction a
  | VOpaque a => Hopaque a
  | VArray l =>
      Harray l ((fix items (l : list (option val)) : Pa l :=
                   match l with
                   | [] => Pa_nil
                   | None :: l' => Pa_hole l' (items l')
                   | Some x :: l' => Pa_cons x l' (val_rect_nested x) (items l')
                   end) l)
  | VObject l => Hobject l (fields l)
  | VElement t p k r =>
      Helement t p k r (val_rect_nested t) (fields p)
        (val_rect_nested k) (val_rect_nested r)
  | VPromise p => Hpromise p
  | VIterator a => Hiterator a
  end.
End val_rect_nested.

(** [===] on the values the model holds: structural on primitives and
    on addresses (identity). *)
#[global] Instance val_eq_dec : EqDecision val.
Proof.
  refine (val_rect_nested (fun a => forall b, Decision (a = b))
            (fun l => forall l', Decision (l = l'))
            (fun l => forall l', Decision (l = l'))
            _ _ _ _ _ _ _ _ _ _ _ _ _ _ _ _ _ _);
    unfold Decision.
  - intros []; try (right; discriminate); left; reflexivity.
  - intros []; try (right; discriminate); left; reflexivity.
  - intros b []; try (right; discriminate).
    destruct (decide (b = b0)); [left; congruence | right; congruence].
  - intros n []; try (right; discriminate).
    destruct (decide (n = n0)); [left; congruence | right; congruence].
  - intros s []; try (right; discriminate).
    destruct (decide (s = s0)); [left; congruence | right; congruence].
  - intros s []; try (right; discriminate).
    destruct (decide (s = description)); [left; congruence | right; congruence].
  - intros a []; try (right; discriminate).
    destruct (decide (a = addr)); [left; congruence | right; congruence].
  - intros a []; try (right; discriminate).
    destruct (decide (a = addr)); [left; congruence | right; congruence].
  - intros l IH []; try (right; discriminate).
    destruct (IH items); [left; congruence | right; congruence].
  - intros l IH []; try (right; discriminate).
    destruct (IH fields); [left; congruence | right; congruence].
  - intros t p k r IHt IHp IHk IHr []; try (right; discriminate).
    destruct (IHt tag); [|right; congruence].
    destruct (IHp props); [|right; congruence].
    destruct (IHk key); [|right; congruence].
    destruct (IHr ref); [left; congruence | right; congruence].
  - intros a []; try (right; discriminate).
    destruct (decide (a = p)); [left; congruence | right; congruence].
  - intros a []; try (right; discriminate).
    destruct (decide (a = addr)); [left; congruence | right; congruence].
  - intros [|x l']; [left; reflexivity | right; discriminate].
  - intros l IH [|[x|] l']; try (right; discriminate).
    destruct (IH l'); [left; congruence | right; congruence].
  - intros v l IHv IHl [|[x|] l']; try (right; discriminate).
    destruct (IHv x); [|right; congruence].
    destruct (IHl l'); [left; congruence | right; congruence].
  - intros [|x l']; [left; reflexivity | right; discriminate].
  - intros k v l IHv IHl [|[k' x] l']; try (right; discriminate).
    destruct (decide (k = k')); [|right; congruence].
    destruct (IHv x); [|right; congruence].
    destruct (IHl l'); [left; congruence | right; congruence].
Defined.

Definition object := list (string * val).

(** [v == null] *)
Definition nullish (v : val) : bool :=
  match v with VUndefined | VNull => true | _ => false end.

(** [typeof v === "function"] *)
Definition is_function (v : val) : bool :=
  match v with VFunction _ => true | _ => false end.

(** [k in o], restricted to enumerable entries. *)
Fixpoint lookup (o : object) (k : string) : option val :=
  match o with
  | [] => None
  | (k', v) :: o' => if String.eqb k' k then Some v else lookup o' k
  end.

(** [o[k]] *)
Definition get (o : object) (k : string) : val :=
  default VUndefined (lookup o k).

(** [o[k] = v]: an existing entry keeps its place, a new one goes last. *)
Fixpoint set (o : object) (k : string) (v : val) : object :=
  match o with
  | [] => [(k, v)]
  | (k', v') :: o' =>
      if String.eqb k' k then (k, v) :: o' else (k', v') :: set o' k v
  end.

(** The names a [for (const name in v)] loop visits.  Only object
    literals, [null] and [undefined] are given entries: these are the
    shapes a props argument takes. *)
Definition entries (v : val) : object :=
  match v with VObject fields => fields | _ => [] end.

Definition keys (v : val) : list string := (entries v).*1.

(** [v[k]] *)
Definition member (v : val) (k : string) : val := get (entries v) k.

(** [a[i] = v] on an array: assignment past the end extends the array,
    leaving holes. *)
Fixpoint array_set (a : list (option val)) (i : nat) (v : val)
  : list (option val) :=
  match a, i with
  | [], 0 => [Some v]
  | [], S i' => None :: array_set [] i' v
  | _ :: a', 0 => Some v :: a'
  | x :: a', S i' => x :: array_set a' i' v
  end.

(** Modelled from the spec: the helpers of [./utils], which the
    repository's sources import and do not hold.  The spec describes
    them by their use: a component "returns a promise" or an "iterator
    / async-iterator", children are "an arbitrarily nested iterable",
    strings apart. *)
Definition isPromiseLike (v : val) : bool :=
  match v with VPromise _ => true | _ => false end.

Definition isIteratorOrAsyncIterator (v : val) : bool :=
  match v with VIterator _ => true | _ => false end.

Definition isNonStringIterable (v : val) : bool :=
  match v with VArray _ => true | _ => false end.

(** [arguments[i]] *)
Definition arg (arguments : list val) (i : nat) : val :=
  nth i arguments VUndefined.

(** [new Map()], [has], [get], [set], [delete], [values()] on a map that
    may still be [undefined]. *)
Definition map_has (m : option (list (val * nat))) (k : val) : bool :=
  match m with
  | Some l => bool_decide (k ∈ l.*1)
  | None => false
  end.

Fixpoint assoc (l : list (val * nat)) (k : val) : option nat :=
  match l with
  | [] => None
  | (k', n) :: l' => if decide (k' = k) then Some n else assoc l' k
  end.

Definition map_get (m : option (list (val * nat))) (k : val) : option nat :=
  match m with Some l => assoc l k | None => None end.

Fixpoint assoc_set (l : list (val * nat)) (k : val) (n : nat) : list (val * nat) :=
  match l with
  | [] => [(k, n)]
  | (k', n') :: l' =>
      if decide (k' = k) then (k, n) :: l' else (k', n') :: assoc_set l' k n
  end.

Definition map_set (m : option (list (val * nat))) (k : val) (n : nat)
  : option (list (val * nat)) :=
  Some (assoc_set (default [] m) k n).

Definition map_delete (m : option (list (val * nat))) (k : val)
  : option (list (val * nat)) :=
  match m with
  | Some l => Some (filter (fun e => e.1 <> k) l)
  | None => None
  end.

Definition map_values (m : option (list (val * nat))) : list nat :=
  match m with Some l => l.*2 | None => [] end.

Lemma lookup_set_eq o k v : lookup (set o k v) k = Some v.
Proof.
  induction o as [|[k' v'] o IH]; simpl.
  - now rewrite String.eqb_refl.
  - destruct (String.eqb k' k) eqn:E; simpl.
    + now rewrite String.eqb_refl.
    + now rewrite E.
Qed.

Lemma lookup_set_ne o k k' v : k <> k' -> lookup (set o k v) k' = lookup o k'.
Proof.
  intros Hne. induction o as [|[k0 v0] o IH]; simpl.
  - destruct (String.eqb k k') eqn:E; [apply String.eqb_eq in E; congruence | reflexivity].
  - destruct (String.eqb k0 k) eqn:E; simpl.
    + apply String.eqb_eq in E; subst k0.
      destruct (String.eqb k k') eqn:E'; [apply String.eqb_eq in E'; congruence | reflexivity].
    + destruct (String.eqb k0 k'); [reflexivity | exact IH].
Qed.

Lemma lookup_None_not_elem o k : lookup o k = None <-> k ∉ o.*1.
Proof.
  induction o as [|[k' v'] o IH]; simpl.
  - split; [intros _; apply not_elem_of_nil | reflexivity].
  - rewrite not_elem_of_cons. destruct (String.eqb k' k) eqn:E.
    + apply String.eqb_eq in E. subst k'.
      split; [discriminate | intros [H _]; now contradiction H].
    + apply String.eqb_neq in E. rewrite IH.
      split; [intros H; split; [intros ->; now apply E | exact H] | tauto].
Qed.

Lemma lookup_elem o k v :
  NoDup o.*1 -> (k, v) ∈ o -> lookup o k = Some v.
Proof.
  induction o as [|[k' v'] o IH]; simpl.
  - intros _ H. now apply elem_of_nil in H.
  - intros Hnd Hin. apply NoDup_cons in Hnd as [Hnotin Hnd].
    apply elem_of_cons in Hin as [Heq | Hin].
    + inversion Heq; subst. now rewrite String.eqb_refl.
    + destruct (String.eqb k' k) eqn:E.
      * apply String.eqb_eq in E; subst. exfalso. apply Hnotin.
        apply list_elem_of_fmap. now exists (k, v).
      * now apply IH.
Qed.

Lemma array_set_nil_length i v : length (array_set [] i v) = S i.
Proof. induction i; simpl; congruence. Qed.

End JS.

(** ** Promises and the microtask queue

    The host's promise machinery, as ECMAScript specifies it: a promise
    is pending with a list of reactions or settled; settling a promise
    queues one job per reaction; a reaction job calls its handler and
    resolves the derived promise with what the handler returns;
    resolving with a promise queues a job that subscribes to it.  The
    arrow functions the program passes to [then], [catch] and [finally]
    are closures of a type [K] the program supplies together with their
    interpretation. *)

Module Promises.
Import JS.

Inductive settlement : Type :=
| Fulfilled (v : val)
| Rejected (reason : val).

(** What calling a function comes to. *)
Inductive completion (A : Type) : Type :=
| Normal (a : A)
| Throw (reason : val).
Arguments Normal {A} a.
Arguments Throw {A} reason.

Section Machine.
Context {K : Type}.

Inductive handler : Type :=
| Identity                       (* onFulfilled absent *)
| Thrower                        (* onRejected absent *)
| Call (k : K)                   (* a function of the program *)
| ResolveFn (p : nat)            (* the resolve function handed out for p *)
| RejectFn (p : nat)
| AdoptResolve (p : nat)         (* the pair a thenable job creates for p *)
| AdoptReject (p : nat)
| ThenFinally (k : K)
| CatchFinally (k : K)
| ValueThunk (v : val)
| ThrowerOf (reason : val).

Record reaction : Type := Reaction {
  onFulfilled : handler;
  onRejected : handler;
  derived : nat
}.

Inductive status : Type :=
| Pending (reactions : list reaction)
| Settled (s : settlement).

Record promise : Type := Promise {
  state : status;
  alreadyResolved : bool
}.

Inductive job : Type :=
| ReactionJob (r : reaction) (s : settlement)
| ThenableJob (p : nat) (thenable : nat).

Record machine : Type := Machine {
  heap : list promise;   (* a promise is its index *)
  queue : list job       (* the microtask queue, oldest first *)
}.

Definition empty : machine := Machine [] [].

Definition status_of (m : machine) (p : nat) : status :=
  match heap m !! p with
  | Some pr => state pr
  | None => Pending []
  end.

Definition is_pending (m : machine) (p : nat) : bool :=
  match status_of m p with Pending _ => true | Settled _ => false end.

Definition settlement_of (m : machine) (p : nat) : option settlement :=
  match status_of m p with Pending _ => None | Settled s => Some s end.

Definition reactions_of (m : machine) (p : nat) : list reaction :=
  match status_of m p with Pending rs => rs | Settled _ => [] end.

(** [new Promise(...)], still pending. *)
Definition new_promise (m : machine) : nat * machine :=
  (length (heap m), Machine (heap m ++ [Promise (Pending []) false]) (queue m)).

Definition enqueue (j : job) (m : machine) : machine :=
  Machine (heap m) (queue m ++ [j]).

(** FulfillPromise / RejectPromise: a pending promise is settled and one
    job per reaction is queued, in subscription order. *)
Definition settle (p : nat) (s : settlement) (m : machine) : machine :=
  match heap m !! p with
  | Some (Promise (Pending rs) locked) =>
      Machine (<[p := Promise (Settled s) true]> (heap m))
              (queue m ++ map (fun r => ReactionJob r s) rs)
  | _ => m
  end.

(** The body of a resolve function, past its [alreadyResolved] test. *)
Definition resolve_now (p : nat) (x : val) (m : machine) : machine :=
  match x with
  | VPromise q =>
      if Nat.eqb q p
      then settle p (Rejected (VString "TypeError")) m
      else enqueue (ThenableJob p q) m
  | v => settle p (Fulfilled v) m
  end.

Definition lock (p : nat) (m : machine) : machine :=
  match heap m !! p with
  | Some (Promise st _) => Machine (<[p := Promise st true]> (heap m)) (queue m)
  | None => m
  end.

Definition locked (m : machine) (p : nat) : bool :=
  match heap m !! p with
  | Some pr => alreadyResolved pr
  | None => true
  end.

(** Calling the resolve function handed out for [p]. *)
Definition resolve (p : nat) (x : val) (m : machine) : machine :=
  if locked m p then m else resolve_now p x (lock p m).

(** Calling the reject function handed out for [p]. *)
Definition reject (p : nat) (reason : val) (m : machine) : machine :=
  if locked m p then m else settle p (Rejected reason) (lock p m).

(** [p.then(onFulfilled, onRejected)]: the derived promise. *)
Definition then_ (p : nat) (onF onR : handler) (m : machine) : nat * machine :=
  let '(d, m) := new_promise m in
  let r := Reaction onF onR d in
  match heap m !! p with
  | Some (Promise (Pending rs) locked) =>
      (d, Machine (<[p := Promise (Pending (rs ++ [r])) locked]> (heap m)) (queue m))
  | Some (Promise (Settled s) _) => (d, enqueue (ReactionJob r s) m)
  | None => (d, m)
  end.

(** [Promise.resolve(x)] *)
Definition promise_resolve (x : val) (m : machine) : nat * machine :=
  match x with
  | VPromise p => (p, m)
  | v =>
      let '(p, m) := new_promise m in
      (p, resolve p v m)
  end.

(** [Promise.race(ps)] over promises. *)
Fixpoint race_subscribe (r : nat) (ps : list nat) (m : machine) : machine :=
  match ps with
  | [] => m
  | p :: ps' => race_subscribe r ps' (snd (then_ p (ResolveFn r) (RejectFn r) m))
  end.

Definition race (ps : list nat) (m : machine) : nat * machine :=
  let '(r, m) := new_promise m in
  (r, race_subscribe r ps m).

(** *** Running the queue

    The program keeps the machine inside its own state [St] and says
    how one of its closures is called. *)
Section Loop.
Context {St : Type}.
Variable machine_of : St -> machine.
Variable with_machine : machine -> St -> St.
Variable call : K -> val -> St -> completion val * St.

Definition lift (f : machine -> machine) (st : St) : St :=
  with_machine (f (machine_of st)) st.

Definition lift_new {A} (f : machine -> A * machine) (st : St) : A * St :=
  let '(a, m) := f (machine_of st) in (a, with_machine m st).

(** [Promise.resolve(result).then(thunk)], the tail of a finally handler. *)
Definition after_finally (result : val) (thunk : handler) (st : St)
  : completion val * St :=
  let '(q, st) := lift_new (promise_resolve result) st in
  let '(t, st) := lift_new (then_ q thunk Thrower) st in
  (Normal (VPromise t), st).

Definition run_handler (h : handler) (arg : val) (st : St)
  : completion val * St :=
  match h with
  | Identity => (Normal arg, st)
  | Thrower => (Throw arg, st)
  | Call k => call k arg st
  | ResolveFn p => (Normal VUndefined, lift (resolve p arg) st)
  | RejectFn p => (Normal VUndefined, lift (reject p arg) st)
  | AdoptResolve p => (Normal VUndefined, lift (resolve_now p arg) st)
  | AdoptReject p => (Normal VUndefined, lift (settle p (Rejected arg)) st)
  | ThenFinally k =>
      match call k VUndefined st with
      | (Normal result, st) => after_finally result (ValueThunk arg) st
      | (Throw e, st) => (Throw e, st)
      end
  | CatchFinally k =>
      match call k VUndefined st with
      | (Normal result, st) => after_finally result (ThrowerOf arg) st
      | (Throw e, st) => (Throw e, st)
      end
  | ValueThunk v => (Normal v, st)
  | ThrowerOf e => (Throw e, st)
  end.

Definition run_job (j : job) (st : St) : St :=
  match j with
  | ReactionJob r (Fulfilled v) =>
      match run_handler (onFulfilled r) v st with
      | (Normal x, st) => lift (resolve (derived r) x) st
      | (Throw e, st) => lift (reject (derived r) e) st
      end
  | ReactionJob r (Rejected e) =>
      match run_handler (onRejected r) e st with
      | (Normal x, st) => lift (resolve (derived r) x) st
      | (Throw e', st) => lift (reject (derived r) e') st
      end
  | ThenableJob p q =>
      lift (fun m => snd (then_ q (AdoptResolve p) (AdoptReject p) m)) st
  end.

(** One turn of the microtask queue. *)
Definition tick (st : St) : option St :=
  match queue (machine_of st) with
  | [] => None
  | j :: rest =>
      Some (run_job j (lift (fun m => Machine (heap m) rest) st))
  end.

(** Run jobs until the queue is empty (or the fuel is spent). *)
Fixpoint drain (fuel : nat) (st : St) : St :=
  match fuel with
  | 0 => st
  | S fuel' =>
      match tick st with
      | None => st
      | Some st' => drain fuel' st'
      end
  end.

End Loop.
End Machine.
Arguments handler : clear implicits.
Arguments reaction : clear implicits.
Arguments status : clear implicits.
Arguments promise : clear implicits.
Arguments job : clear implicits.
Arguments machine : clear implicits.

End Promises.

(** ** The store and the statement monad

    Both revisions keep their retained objects (nodes, elements) in a
    store, named by address, next to the promise machine, the
    renderer's cache and whatever state the environment (user
    components, the backend) keeps for itself. *)

Module Runtime.
Import JS.

Section Store.
Context {N K W : Type} `{!Inhabited N}.

Record State : Type := mkState {
  nodes : gmap nat N;
  fresh : nat;                          (* the next node's address *)
  machine : Promises.machine K;
  cache : list (val * nat);             (* Renderer.cache *)
  world : W
}.

Definition with_nodes (f : gmap nat N -> gmap nat N) (s : State) : State :=
  mkState (f (nodes s)) (fresh s) (machine s) (cache s) (world s).
Definition with_machine (m : Promises.machine K) (s : State) : State :=
  mkState (nodes s) (fresh s) m (cache s) (world s).
Definition with_cache (c : list (val * nat)) (s : State) : State :=
  mkState (nodes s) (fresh s) (machine s) c (world s).
Definition with_world (w : W) (s : State) : State :=
  mkState (nodes s) (fresh s) (machine s) (cache s) w.

(** Statements run in a state and complete normally or throw. *)
Definition M (A : Type) : Type := State -> Promises.completion A * State.

#[export] Instance M_ret : MRet M := fun A a s => (Promises.Normal a, s).
#[export] Instance M_bind : MBind M := fun A B f m s =>
  match m s with
  | (Promises.Normal a, s') => f a s'
  | (Promises.Throw e, s') => (Promises.Throw e, s')
  end.

Definition throw {A} (reason : val) : M A := fun s => (Promises.Throw reason, s).

(** [try { body } catch (err) { handler }] *)
Definition try_catch {A} (body : M A) (handler : val -> M A) : M A := fun s =>
  match body s with
  | (Promises.Normal a, s') => (Promises.Normal a, s')
  | (Promises.Throw e, s') => handler e s'
  end.

Definition node (this : nat) : M N := fun s => (Promises.Normal (nodes s !!! this), s).

Definition all_nodes : M (gmap nat N) := fun s => (Promises.Normal (nodes s), s).

Definition assign (this : nat) (f : N -> N) : M unit := fun s =>
  (Promises.Normal tt, with_nodes (alter f this) s).

(** [new C(...)]: the object gets the next address. *)
Definition alloc (n : N) : M nat := fun s =>
  (Promises.Normal (fresh s),
   mkState (<[fresh s := n]> (nodes s)) (S (fresh s)) (machine s) (cache s) (world s)).

(** [this.cache.get(root)], [set], [delete] *)
Definition cache_get (root : val) : M (option nat) := fun s =>
  (Promises.Normal (assoc (cache s) root), s).
Definition cache_set (root : val) (n : nat) : M unit := fun s =>
  (Promises.Normal tt, with_cache (assoc_set (cache s) root n) s).
Definition cache_delete (root : val) : M unit := fun s =>
  (Promises.Normal tt, with_cache (filter (fun e => e.1 <> root) (cache s)) s).

Definition promises {A} (f : Promises.machine K -> A * Promises.machine K)
  : M A := fun s =>
  let '(a, m) := f (machine s) in (Promises.Normal a, with_machine m s).

Definition promises_ (f : Promises.machine K -> Promises.machine K)
  : M unit := fun s => (Promises.Normal tt, with_machine (f (machine s)) s).

(** [p.then(f)], [p.then(f, g)], [p.catch(g)], [p.finally(f)] *)
Definition then1 (p : nat) (f : K) : M nat :=
  promises (Promises.then_ p (Promises.Call f) Promises.Thrower).
Definition then2 (p : nat) (f g : K) : M nat :=
  promises (Promises.then_ p (Promises.Call f) (Promises.Call g)).
Definition catch1 (p : nat) (g : K) : M nat :=
  promises (Promises.then_ p Promises.Identity (Promises.Call g)).
Definition finally (p : nat) (f : K) : M nat :=
  promises (Promises.then_ p (Promises.ThenFinally f) (Promises.CatchFinally f)).

(** *** The environment: user code and the backend *)
Record Env : Type := mkEnv {
  (* this.tag.call(this.ctx, this.props) *)
  component : val -> nat -> val -> M val;
  (* iterator.next(value), iterator.return(), iterator.throw(reason) *)
  next : nat -> val -> M val;
  has_return : nat -> bool;
  return_ : nat -> M val;
  has_throw : nat -> bool;
  throw_ : nat -> val -> M val;
  (* a ref, a schedule or a cleanup callback called with a value *)
  apply : val -> val -> M unit;
  (* this.intrinsic.call(this, {...this.props, children}) *)
  intrinsic : val -> nat -> val -> M val;
  (* renderer.text(text) *)
  text : string -> string
}.

End Store.
Arguments State : clear implicits.
Arguments M : clear implicits.
Arguments Env : clear implicits.

(** *** A scripted environment

    For running the methods on an example: user components, iterators
    and intrinsics that follow a script and log what is asked of them. *)
Inductive event : Type :=
| Called (component : val) (props : val)
| Resumed (iterator : nat) (received : val)
| Returned (iterator : nat)
| Thrown (iterator : nat) (reason : val)
| Applied (callback : val) (argument : val)
| Rendered (tag : val) (props : val)
| Deferred (p : nat).

(** What one call does: return a value, throw, or return a promise
    that is pending until the test settles it. *)
Inductive behaviour : Type :=
| Returns (v : val)
| Throws (reason : val)
| Defers.

Record Script : Type := mkScript {
  on_call : val -> val -> behaviour;          (* component, props *)
  on_next : nat -> nat -> behaviour;          (* iterator, how many calls before *)
  on_return : nat -> option behaviour;        (* None: no return method *)
  on_throw : nat -> option (val -> behaviour);
  on_intrinsic : val -> val -> behaviour;     (* tag, props *)
  on_text : string -> string
}.

Record Log : Type := mkLog {
  events : list event;           (* oldest first *)
  resumptions : gmap nat nat     (* per iterator, the calls of next so far *)
}.

Section Scripted.
Context {N K : Type} `{!Inhabited N}.

Definition record (e : event) : M N K Log unit := fun s =>
  (Promises.Normal tt,
   with_world (mkLog (events (world s) ++ [e]) (resumptions (world s))) s).

Definition behave (b : behaviour) : M N K Log val :=
  match b with
  | Returns v => mret v
  | Throws reason => throw reason
  | Defers =>
      p ← promises Promises.new_promise;
      record (Deferred p);;
      mret (VPromise p)
  end.

Definition scripted (sc : Script) : Env N K Log :=
  {| component := fun tag _ props =>
       record (Called tag props);; behave (on_call sc tag props);
     next := fun it received => fun s =>
       let n := default 0 (resumptions (world s) !! it) in
       (record (Resumed it received);;
        (fun s => (Promises.Normal tt,
                   with_world (mkLog (events (world s))
                                 (<[it := S n]> (resumptions (world s)))) s));;
        behave (on_next sc it n)) s;
     has_return := fun it => bool_decide (on_return sc it <> None);
     return_ := fun it =>
       record (Returned it);;
       behave (default (Returns VUndefined) (on_return sc it));
     has_throw := fun it => bool_decide (on_throw sc it <> None);
     throw_ := fun it reason =>
       record (Thrown it reason);;
       behave (default Throws (on_throw sc it) reason);
     apply := fun f x => record (Applied f x);
     intrinsic := fun tag _ props =>
       record (Rendered tag props);; behave (on_intrinsic sc tag props);
     text := on_text sc |}.

Definition initial : State N K Log :=
  mkState ∅ 0 Promises.empty [] (mkLog [] ∅).

(** A test settles a promise the environment deferred, then lets the
    microtask queue run dry. *)
Definition fulfil (p : nat) (v : val) (s : State N K Log) : State N K Log :=
  with_machine (Promises.resolve p v (machine s)) s.

Definition fail (p : nat) (reason : val) (s : State N K Log) : State N K Log :=
  with_machine (Promises.reject p reason (machine s)) s.

End Scripted.

End Runtime.

(** ** The class based core ([src/index.ts]) *)

Module Nodes.
Import JS Runtime.

(** Special intrinsic tags: [Symbol.for("crank.Fragment")] and so on. *)
Definition Fragment : val := VSymbol "crank.Fragment".
Definition Copy : val := VSymbol "crank.Copy".
Definition Portal : val := VSymbol "crank.Portal".
Definition Raw : val := VSymbol "crank.Raw".

(** [isElement(value)]: the value is not nullish and carries the sigil. *)
Definition isElement (v : val) : bool :=
  match v with VElement _ _ _ _ => true | _ => false end.

(** [for (const key in props) if (key !== "crank-key" && key !== "crank-ref")
    props1[key] = props[key]] *)
Fixpoint copy_props (props : val) (names : list string) (props1 : object)
  : object :=
  match names with
  | [] => props1
  | key :: names' =>
      copy_props props names'
        (if negb (String.eqb key "crank-key") && negb (String.eqb key "crank-ref")
         then set props1 key (member props key)
         else props1)
  end.

(** [while (length-- > 2) children1[length - 2] = arguments[length]] *)
Fixpoint collect (arguments : list val) (length : nat)
    (children1 : list (option val)) : list (option val) :=
  match length with
  | 0 => children1
  | S length' =>
      if (2 <? length)%nat
      then collect arguments length'
             (array_set children1 (length' - 2) (arg arguments length'))
      else children1
  end.

Definition createElement (arguments : list val) : val :=
  let tag := arg arguments 0 in
  let props := arg arguments 1 in
  let children := arg arguments 2 in
  let props1 : object := [] in
  let key := VUndefined in
  let ref := VUndefined in
  let '(props1, key, ref) :=
    if negb (nullish props) then
      let key :=
        if negb (nullish (member props "crank-key"))
        then member props "crank-key" else key in
      let ref :=
        if is_function (member props "crank-ref")
        then member props "crank-ref" else ref in
      (copy_props props (keys props) props1, key, ref)
    else (props1, key, ref) in
  let length := length arguments in
  let props1 :=
    if (3 <? length)%nat then set props1 "children" (VArray (collect arguments length []))
    else if (2 <? length)%nat then set props1 "children" children
    else props1 in
  VElement tag props1 key ref.

(** [child.toString()] on what is left of the [Child] type once
    [null], [undefined], booleans, strings and elements are gone: a
    number. *)
Definition toString (v : val) : string :=
  match v with
  | VNumber n => pretty n
  | VString s => s
  | _ => "[object Object]"
  end.

Definition normalize (child : val) : val :=
  if nullish child || (if child is VBoolean _ then true else false) then VUndefined
  else if (if child is VString _ then true else false) || isElement child then child
  else VString (toString child).

(** The values an iteration over an array visits: a hole reads [undefined]. *)
Definition iterate (v : val) : list val :=
  match v with
  | VArray items => map (default VUndefined) items
  | _ => []
  end.

(** [function* flatten(children)]: the sequence it yields. *)
Definition flatten (children : val) : list val :=
  if nullish children then []
  else if isNonStringIterable children then
    map (fun child =>
           if isNonStringIterable child
           then createElement [Fragment; VNull; child]
           else normalize child)
        (iterate children)
  else [normalize children].

(** [typeof child === "object" ? child.tag : undefined], and the same for
    [key], [props], [ref], on a normalized child. *)
Definition child_tag (child : val) : val :=
  match child with VElement tag _ _ _ => tag | _ => VUndefined end.
Definition child_key (child : val) : val :=
  match child with VElement _ _ key _ => key | _ => VUndefined end.
Definition child_props (child : val) : val :=
  match child with VElement _ props _ _ => VObject props | _ => VUndefined end.
Definition child_ref (child : val) : val :=
  match child with VElement _ _ _ ref => ref | _ => VUndefined end.

(** *** Retained nodes *)

Inductive Class : Type := LeafNode | FragmentNode | HostNode | ComponentNode.

Inductive ComponentType : Type := SyncFn | AsyncFn | SyncGen | AsyncGen.

#[global] Instance Class_eq_dec : EqDecision Class.
Proof. solve_decision. Defined.
#[global] Instance ComponentType_eq_dec : EqDecision ComponentType.
Proof. solve_decision. Defined.

(** One record for the four classes: a field a class does not declare
    keeps its initial value.  Nodes live in a store and are named by
    their address; the sibling links [previousSibling] / [nextSibling]
    and [firstChild] / [lastChild] of a parent are the list [children]
    of its children's addresses, first child first.  A promise field
    holds the promise's address; [onNewResult] and [onProps], which the
    source sets to the resolve function of a promise, hold the address
    of that promise.  The event target [ctx] and the scopes are left
    out. *)
Record Node : Type := mkNode {
  cls : Class;
  (* NodeBase *)
  dirty : bool;
  tag : val;
  key : val;
  value : val;
  alternate : option nat;
  (* ParentNode *)
  moved : bool;
  copied : bool;
  updating : bool;
  unmounted : bool;
  ref : val;
  dirtyStart : option nat;
  keyedChildren : option (list (val * nat));
  children : list nat;
  parent : option nat;
  onNewResult : option nat;
  props : val;
  (* HostNode *)
  dirtyProps : bool;
  dirtyChildren : bool;
  dirtyRemoval : bool;
  childValues : list val;
  (* HostNode, ComponentNode *)
  iterating : bool;
  finished : bool;
  iterator : option nat;
  (* ComponentNode *)
  stepping : bool;
  available : bool;
  oldResult : option nat;
  componentType : option ComponentType;
  inflightPending : option nat;
  enqueuedPending : option nat;
  inflightResult : option nat;
  enqueuedResult : option nat;
  onProps : option nat;
  schedules : list val;
  cleanups : option (list val)
}.

(** [node.internal] *)
Definition internal (n : Node) : bool :=
  match cls n with LeafNode => false | _ => true end.

(** Field assignment: the record rebuilt with one field replaced. *)
Ltac assign n proj v :=
  let e := constr:(mkNode (cls n) (dirty n) (tag n) (key n) (value n) (alternate n)
                     (moved n) (copied n) (updating n) (unmounted n) (ref n)
                     (dirtyStart n) (keyedChildren n) (children n) (parent n)
                     (onNewResult n) (props n)
                     (dirtyProps n) (dirtyChildren n) (dirtyRemoval n) (childValues n)
                     (iterating n) (finished n) (iterator n)
                     (stepping n) (available n) (oldResult n) (componentType n)
                     (inflightPending n) (enqueuedPending n) (inflightResult n)
                     (enqueuedResult n) (onProps n) (schedules n) (cleanups n)) in
  match e with
  | context C [proj n] => let r := context C [v] in exact r
  end.

Definition set_dirty v n : Node := ltac:(assign n dirty v).
Definition set_value v n : Node := ltac:(assign n value v).
Definition set_alternate v n : Node := ltac:(assign n alternate v).
Definition set_moved v n : Node := ltac:(assign n moved v).
Definition set_copied v n : Node := ltac:(assign n copied v).
Definition set_updating v n : Node := ltac:(assign n updating v).
Definition set_unmounted v n : Node := ltac:(assign n unmounted v).
Definition set_ref v n : Node := ltac:(assign n ref v).
Definition set_dirtyStart v n : Node := ltac:(assign n dirtyStart v).
Definition set_keyedChildren v n : Node := ltac:(assign n keyedChildren v).
Definition set_children v n : Node := ltac:(assign n children v).
Definition set_onNewResult v n : Node := ltac:(assign n onNewResult v).
Definition set_props v n : Node := ltac:(assign n props v).
Definition set_dirtyProps v n : Node := ltac:(assign n dirtyProps v).
Definition set_dirtyChildren v n : Node := ltac:(assign n dirtyChildren v).
Definition set_dirtyRemoval v n : Node := ltac:(assign n dirtyRemoval v).
Definition set_childValues v n : Node := ltac:(assign n childValues v).
Definition set_iterating v n : Node := ltac:(assign n iterating v).
Definition set_finished v n : Node := ltac:(assign n finished v).
Definition set_iterator v n : Node := ltac:(assign n iterator v).
Definition set_stepping v n : Node := ltac:(assign n stepping v).
Definition set_available v n : Node := ltac:(assign n available v).
Definition set_oldResult v n : Node := ltac:(assign n oldResult v).
Definition set_componentType v n : Node := ltac:(assign n componentType v).
Definition set_inflightPending v n : Node := ltac:(assign n inflightPending v).
Definition set_enqueuedPending v n : Node := ltac:(assign n enqueuedPending v).
Definition set_inflightResult v n : Node := ltac:(assign n inflightResult v).
Definition set_enqueuedResult v n : Node := ltac:(assign n enqueuedResult v).
Definition set_onProps v n : Node := ltac:(assign n onProps v).
Definition set_schedules v n : Node := ltac:(assign n schedules v).
Definition set_cleanups v n : Node := ltac:(assign n cleanups v).

(** The field initializers of the four classes. *)
Definition blank (c : Class) (tag key : val) (parent : option nat) : Node :=
  {| cls := c; dirty := true; tag := tag; key := key; value := VUndefined;
     alternate := None;
     moved := true; copied := false; updating := false; unmounted := false;
     ref := VUndefined; dirtyStart := None; keyedChildren := None;
     children := []; parent := parent; onNewResult := None; props := VUndefined;
     dirtyProps := true; dirtyChildren := true; dirtyRemoval := true;
     childValues := [];
     iterating := false; finished := false; iterator := None;
     stepping := false; available := false; oldResult := None;
     componentType := None;
     inflightPending := None; enqueuedPending := None;
     inflightResult := None; enqueuedResult := None;
     onProps := None; schedules := []; cleanups := None |}.

#[global] Instance Node_inhabited : Inhabited Node :=
  populate (blank LeafNode VUndefined VUndefined None).

(** *** Closures

    The arrow functions [index.ts] hands to promises, each with the
    variables it captures. *)
Inductive closure : Type :=
| KConst (result1 : val)              (* () => result1 *)
| KUnmountAlternates (newNode : nat)  (* updateChildren: the callback on result1 *)
| KCommit (this : nat)                (* () => this.commit() *)
| KAdvance (this : nat)               (* () => this.advance() *)
| KStepEnqueued (this resolve : nat)  (* run: step, resolve(result), return pending *)
| KUndefined                          (* () => undefined *)
| KUpdateChildren (this : nat)        (* (child) => this.updateChildren(child) *)
| KParentCatch (this : nat)           (* (err) => this.parent.catch(err) *)
| KValue (this : nat)                 (* () => this.value *)
| KIterationCatch (this : nat)        (* step: the handler of iteration.catch *)
| KIteration (this : nat)             (* step: the handler of iteration.then *)
| KRethrow (this : nat)               (* advance: (err) => { if (!this.updating) throw err } *)
| KUnmountChildren (this : nat) (dirty : bool)
| KCaught (this : nat)                (* catch: the handler of iteration.then *)
| KIterationDone                      (* () => ({value: undefined, done: true}) *)
| KRendered (rootNode : nat) (root : val).

Section Core.
(** The state the environment keeps for itself: user components, the
    backend, whatever they close over. *)
Context {W : Type}.

Local Abbreviation State := (Runtime.State Node closure W).
Local Abbreviation M := (Runtime.M Node closure W).

(** The environment: user code and the backend. *)
Variable env : Env Node closure W.


(** *** Methods

    The methods call one another, and user code calls back into them:
    each body below takes the methods it calls from [self]. *)
Record Methods : Type := mkMethods {
  update : nat -> val -> val -> M (option nat);
  updateChildren : nat -> val -> M (option nat);
  commit : nat -> M (option nat);
  unmount : nat -> bool -> M (option nat);
  catch : nat -> val -> M (option nat);
  run : nat -> M (option nat);
  step : nat -> M (option nat * option nat);
  advance : nat -> M unit
}.

(** A [MaybePromise<undefined>] as a value. *)
Definition maybe (r : option nat) : val :=
  match r with Some p => VPromise p | None => VUndefined end.

Section Bodies.
Variable self : Methods.

(** **** The sibling list *)

Definition appendChild (this child : nat) : M unit :=
  assign this (fun n => set_children (children n ++ [child]) n).

Fixpoint insert_before (child reference : nat) (l : list nat) : list nat :=
  match l with
  | [] => []
  | x :: l' =>
      if decide (x = reference) then child :: x :: l'
      else x :: insert_before child reference l'
  end.

Definition insertBefore (this child : nat) (reference : option nat) : M unit :=
  match reference with
  | None => appendChild this child
  | Some reference =>
      if decide (child = reference) then mret tt
      else assign this (fun n => set_children (insert_before child reference (children n)) n)
  end.

(** Unlinking a node that is a child of [this]. *)
Definition removeChild (this child : nat) : M unit :=
  assign this (fun n => set_children (filter (fun x => x <> child) (children n)) n).

Definition replaceChild (this child reference : nat) : M unit :=
  insertBefore this child (Some reference);;
  removeChild this reference.

(** [node.nextSibling] *)
Fixpoint next_in (l : list nat) (x : nat) : option nat :=
  match l with
  | [] => None
  | y :: l' => if decide (y = x) then head l' else next_in l' x
  end.

Definition nextSibling (this : nat) (child : nat) : M (option nat) :=
  n ← node this; mret (next_in (children n) child).

Definition firstChild (this : nat) : M (option nat) :=
  n ← node this; mret (head (children n)).

(** **** createNode *)

(** The constructors copy what they are given; the intrinsic of a host
    node is looked up again at each commit, from its tag. *)
Definition createNode (parent : nat) (child : val) : M nat :=
  match child with
  | VElement tag props key _ =>
      if decide (tag = Fragment) then alloc (blank FragmentNode Fragment key (Some parent))
      else if is_function tag then
        alloc (set_props (VObject props) (blank ComponentNode tag key (Some parent)))
      else alloc (blank HostNode tag key (Some parent))
  | _ => alloc (blank LeafNode VUndefined VUndefined None)
  end.

(** **** ParentNode.updateChildren *)

(** The variables of the loop over [flatten(children)]. *)
Record Pass : Type := mkPass {
  result : option nat;
  keyedChildren1 : option (list (val * nat));   (* [keyedChildren], the new map *)
  cursor : option nat                           (* [node] *)
}.

(** [result = result === undefined ? result1 : result.then(() => result1)] *)
Definition merge (result : option nat) (result1 : nat) : M (option nat) :=
  match result with
  | None => mret (Some result1)
  | Some result => p ← then1 result (KConst (VPromise result1)); mret (Some p)
  end.

(** [while (node !== undefined && node.key !== undefined) node = node.nextSibling] *)
Fixpoint skip_keyed (nodes : gmap nat Node) (siblings : list nat) : option nat :=
  match siblings with
  | [] => None
  | x :: rest =>
      if decide (key (nodes !!! x) = VUndefined) then Some x
      else skip_keyed nodes rest
  end.

(** The siblings from [x] on. *)
Fixpoint from (l : list nat) (x : nat) : list nat :=
  match l with
  | [] => []
  | y :: l' => if decide (y = x) then l else from l' x
  end.

(** The key a child is aligned by: its own, unless an earlier child of
    this pass holds it already. *)
Definition effective_key (keyedChildren : option (list (val * nat))) (child : val)
  : val :=
  let key := child_key child in
  if bool_decide (key <> VUndefined) && map_has keyedChildren key
  then VUndefined else key.

(** Alignment: the node the child is matched with, or the cursor the
    loop continues with when the child is skipped ([continue]). *)
Inductive aligned : Type :=
| Matched (node : nat)
| Continue (cursor : option nat).

Definition align (this : nat) (child : val) (k : val) (cursor : option nat)
  : M aligned :=
  let tag := child_tag child in
  match cursor with
  | None =>
      if decide (k = VUndefined) then
        if decide (tag = Copy) then mret (Continue None)
        else
          node ← createNode this child;
          appendChild this node;;
          mret (Matched node)
      else
        n ← node this;
        match map_get (keyedChildren n) k with
        | None =>
            if decide (tag = Copy) then mret (Continue None)
            else
              node ← createNode this child;
              appendChild this node;;
              mret (Matched node)
        | Some node =>
            assign this (fun n => set_keyedChildren (map_delete (keyedChildren n) k) n);;
            assign node (set_moved true);;
            removeChild this node;;
            appendChild this node;;
            mret (Matched node)
        end
  | Some node0 =>
      if decide (k <> VUndefined) then
        n ← node this;
        match map_get (keyedChildren n) k with
        | None =>
            if decide (tag = Copy) then mret (Continue (Some node0))
            else
              keyedNode ← createNode this child;
              insertBefore this keyedNode (Some node0);;
              mret (Matched keyedNode)
        | Some keyedNode =>
            assign this (fun n => set_keyedChildren (map_delete (keyedChildren n) k) n);;
            (if decide (node0 <> keyedNode) then
               assign keyedNode (set_moved true);;
               removeChild this keyedNode;;
               insertBefore this keyedNode (Some node0)
             else mret tt);;
            mret (Matched keyedNode)
        end
      else
        c ← node node0;
        if decide (key c <> VUndefined) then
          store ← all_nodes;
          n ← node this;
          match skip_keyed store (from (children n) node0) with
          | Some node => mret (Matched node)
          | None =>
              if decide (tag = Copy) then mret (Continue None)
              else
                node ← createNode this child;
                appendChild this node;;
                mret (Matched node)
          end
        else mret (Matched node0)
  end.

(** Updating: the matched node is updated in place, marked copied, or
    replaced by a new node (the last branch).  The result is the node
    the cursor moves on from and the new aggregate [result]. *)
Definition replace (this : nat) (child : val) (node0 : nat) (result : option nat)
  : M (nat * option nat) :=
  c ← node node0;
  newNode ← createNode this child;
  nn ← node newNode;
  result1 ←
    (if internal nn then update self newNode (child_props child) (child_ref child)
     else
       assign newNode (set_value (if child is VString s then VString (text env s)
                                  else VUndefined));;
       mret None);
  result ←
    match result1 with
    | None =>
        (if internal c then unmount self node0 true;; mret tt else mret tt);;
        mret result
    | Some result1 =>
        assign newNode (set_alternate (Some node0));;
        result1 ← then1 result1 (KUnmountAlternates newNode);
        merge result result1
    end;
  replaceChild this newNode node0;;
  mret (newNode, result).

Definition update_aligned (this : nat) (child : val) (node0 : nat) (result : option nat)
  : M (nat * option nat) :=
  c ← node node0;
  if decide (child_tag child = Copy) then
    (if internal c then assign node0 (set_copied true) else mret tt);;
    mret (node0, result)
  else if decide (tag c = child_tag child) then
    if internal c then
      result1 ← update self node0 (child_props child) (child_ref child);
      match result1 with
      | Some result1 => result ← merge result result1; mret (node0, result)
      | None => mret (node0, result)
      end
    else
      let text := if child is VString s then VString (text env s) else VUndefined in
      assign node0 (fun c => set_value text (set_dirty (bool_decide (value c <> text)) c));;
      mret (node0, result)
  else replace this child node0 result.

(** The body of the loop over [flatten(children)]. *)
Definition pass_step (this : nat) (st : Pass) (child : val) : M Pass :=
  let k := effective_key (keyedChildren1 st) child in
  a ← align this child k (cursor st);
  match a with
  | Continue cursor => mret (mkPass (result st) (keyedChildren1 st) cursor)
  | Matched node0 =>
      '(node1, result) ← update_aligned this child node0 (result st);
      let keyedChildren :=
        if decide (k <> VUndefined) then map_set (keyedChildren1 st) k node1
        else keyedChildren1 st in
      next ← nextSibling this node1;
      mret (mkPass result keyedChildren next)
  end.

Fixpoint pass (this : nat) (st : Pass) (children : list val) : M Pass :=
  match children with
  | [] => mret st
  | child :: rest => st ← pass_step this st child; pass this st rest
  end.

(** The loop that unmounts and unlinks the unkeyed nodes from the cursor
    on; [fuel] bounds the walk along [nextSibling]. *)
Fixpoint trim (fuel : nat) (this : nat) (node0 next : option nat) : M unit :=
  match fuel, node0 with
  | S fuel', Some nd =>
      c ← node nd;
      (if decide (key c = VUndefined) then
         (if internal c then unmount self nd true;; mret tt else mret tt);;
         removeChild this nd
       else mret tt);;
      next' ← match next with
              | Some x => nextSibling this x
              | None => mret None
              end;
      trim fuel' this next next'
  | _, _ => mret tt
  end.

(** [for (const node of this.keyedChildren.values())
      { node.unmount(); this.removeChild(node) }] *)
Fixpoint unmount_keyed (this : nat) (l : list nat) : M unit :=
  match l with
  | [] => mret tt
  | nd :: rest =>
      unmount self nd true;;
      removeChild this nd;;
      unmount_keyed this rest
  end.

(** The end of [updateChildren]: the previous call's race is signalled,
    then the commit is chained on the aggregate and raced against the
    next call, or done at once. *)
Definition finish (this : nat) (result : option nat) : M (option nat) :=
  n ← node this;
  match onNewResult n with
  | Some newResult =>
      promises_ (Promises.resolve newResult (maybe result));;
      assign this (set_onNewResult None)
  | None => mret tt
  end;;
  match result with
  | Some result =>
      result ← then1 result (KCommit this);
      newResult ← promises Promises.new_promise;
      assign this (set_onNewResult (Some newResult));;
      raced ← promises (Promises.race [result; newResult]);
      mret (Some raced)
  | None =>
      commit self this;;
      mret None
  end.

Definition ParentNode_updateChildren (this : nat) (children : val) : M (option nat) :=
  first ← firstChild this;
  st ← pass this (mkPass None None first) (flatten children);
  next ← match cursor st with
         | Some x => nextSibling this x
         | None => mret None
         end;
  n ← node this;
  trim (S (length (Nodes.children n))) this (cursor st) next;;
  n ← node this;
  unmount_keyed this (map_values (keyedChildren n));;
  assign this (set_keyedChildren (keyedChildren1 st));;
  finish this (result st).

(** [this.props && this.props.children] *)
Definition truthy (v : val) : bool :=
  match v with
  | VUndefined | VNull | VBoolean false | VNumber 0 | VString "" => false
  | _ => true
  end.

Definition ParentNode_update (this : nat) (props ref : val) : M (option nat) :=
  assign this (set_props props);;
  assign this (set_ref ref);;
  assign this (set_updating true);;
  updateChildren self this (if truthy props then member props "children" else props).

Definition ComponentNode_updateChildren (this : nat) (children : val)
  : M (option nat) :=
  ParentNode_updateChildren this
    (if isNonStringIterable children
     then createElement [Fragment; VNull; children]
     else children).

(** **** Commit *)

(** [while (child.alternate !== undefined) child = child.alternate] *)
Fixpoint deepest (fuel : nat) (store : gmap nat Node) (child : nat) : nat :=
  match fuel with
  | 0 => child
  | S fuel' =>
      match alternate (store !!! child) with
      | Some older => deepest fuel' store older
      | None => child
      end
  end.

(** The last index below [oldLength] whose value is not a string. *)
Fixpoint last_non_string (childValues : list val) (oldLength : nat) : option nat :=
  match oldLength with
  | 0 => None
  | S i =>
      match childValues !! i with
      | Some (VString _) => last_non_string childValues i
      | _ => Some i
      end
  end.

(** The variables of the loop of [commitChildren]. *)
Record Buffer : Type := mkBuffer {
  buffer : option string;
  values : list val;      (* [childValues] *)
  oldLength : nat
}.

(** What one child adds to the values: a string joins the buffer; any
    other value of a child that is not a Portal flushes the buffer and
    is appended, an array spread. *)
Definition collect_value (c : Node) (b : Buffer) : Buffer :=
  match value c with
  | VString s =>
      mkBuffer (Some (match buffer b with Some t => t +:+ s | None => s end))
               (values b) (oldLength b)
  | v =>
      if decide (tag c <> Portal) then
        let flushed :=
          match buffer b with
          | Some t => values b ++ [VString t]
          | None => values b
          end in
        mkBuffer None
          (match v with
           | VArray _ => flushed ++ iterate v
           | VUndefined => flushed
           | _ => flushed ++ [v]
           end)
          (oldLength b)
      else b
  end.

Definition commit_child (this : nat) (b : Buffer) (child0 : nat) : M Buffer :=
  store ← all_nodes;
  let child := deepest (size store) store child0 in
  c ← node child;
  let b := collect_value c b in
  n ← node this;
  (if dirty c || (internal c && moved c) then
     if negb (dirty n) then
       (if internal c && negb (moved c) && bool_decide (dirtyStart c <> None) then
          assign this (set_dirtyStart (Some (oldLength b + default 0 (dirtyStart c))))
        else
          match last_non_string (values b) (oldLength b) with
          | Some i => assign this (set_dirtyStart (Some i))
          | None => mret tt
          end);;
       assign this (set_dirty true)
     else mret tt
   else mret tt);;
  assign child (set_dirty false);;
  (if internal c then
     assign child (fun c => set_dirtyStart None (set_moved false (set_copied false c)))
   else mret tt);;
  mret (mkBuffer (buffer b) (values b) (length (values b))).

Fixpoint commit_loop (this : nat) (b : Buffer) (siblings : list nat) : M Buffer :=
  match siblings with
  | [] => mret b
  | child :: rest => b ← commit_child this b child; commit_loop this b rest
  end.

Definition commitChildren (this : nat) : M (list val) :=
  n ← node this;
  b ← commit_loop this (mkBuffer None [] 0) (children n);
  let childValues :=
    match buffer b with
    | Some t => values b ++ [VString t]
    | None => values b
    end in
  n ← node this;
  (if decide (children n = []) then assign this (set_dirty true) else mret tt);;
  mret childValues.

(** [childValues.length > 1 ? childValues : childValues[0]] *)
Definition one_or_many (childValues : list val) : val :=
  match childValues with
  | [] => VUndefined
  | [v] => v
  | _ => VArray (Some <$> childValues)
  end.

Definition call_ref (this : nat) : M unit :=
  n ← node this;
  if decide (ref n <> VUndefined) then apply env (ref n) (value n) else mret tt.

Definition FragmentNode_commit (this : nat) : M (option nat) :=
  childValues ← commitChildren this;
  assign this (set_value (one_or_many childValues));;
  call_ref this;;
  n ← node this;
  (if negb (updating n) && dirty n
   then match parent n with
        | Some p => commit self p;; mret tt
        | None => mret tt
        end
   else mret tt);;
  assign this (set_updating false);;
  mret None.

Definition commitSelf (this : nat) : M unit :=
  n ← node this;
  it ←
    match iterator n with
    | Some it => mret (Some it)
    | None =>
        v ← intrinsic env (tag n) this
              (VObject (set (entries (props n)) "children"
                          (VArray (Some <$> childValues n))));
        match v with
        | VIterator it => assign this (set_iterator (Some it));; mret (Some it)
        | _ =>
            assign this (fun n => set_value v (set_dirty (bool_decide (value n <> v)) n));;
            mret None
        end
    end;
  match it with
  | None => mret tt
  | Some it =>
      iteration ← next env it VUndefined;
      assign this (fun n =>
        set_value (member iteration "value")
          (set_dirty (bool_decide (value n <> member iteration "value")) n));;
      assign this (set_iterating false);;
      if truthy (member iteration "done") then assign this (set_finished true)
      else mret tt
  end.

Definition HostNode_commit (this : nat) : M (option nat) :=
  childValues ← commitChildren this;
  assign this (set_childValues childValues);;
  assign this (fun n => set_dirtyChildren (dirty n) (set_dirtyProps (updating n) n));;
  caught ←
    try_catch (commitSelf this;; mret None)
      (fun err =>
         n ← node this;
         match parent n with
         | None => throw err
         | Some p => r ← catch self p err; mret (Some r)
         end);
  match caught with
  | Some r => mret r
  | None =>
      call_ref this;;
      n ← node this;
      (if negb (updating n) && dirty n
       then match parent n with
            | Some p => commit self p;; mret tt
            | None => mret tt
            end
       else mret tt);;
      assign this (set_updating false);;
      mret None
  end.

Fixpoint call_each (callbacks : list val) (v : val) : M unit :=
  match callbacks with
  | [] => mret tt
  | callback :: rest => apply env callback v;; call_each rest v
  end.

Definition ComponentNode_commit (this : nat) : M (option nat) :=
  childValues ← commitChildren this;
  assign this (set_value (one_or_many childValues));;
  n ← node this;
  (match schedules n with
   | [] => mret tt
   | callbacks =>
       assign this (set_schedules []);;
       call_each callbacks (value n)
   end);;
  call_ref this;;
  n ← node this;
  (if negb (updating n) && dirty n
   then match parent n with
        | Some p => commit self p;; mret tt
        | None => mret tt
        end
   else mret tt);;
  assign this (set_updating false);;
  mret None.

(** **** Unmount *)

Fixpoint unmount_each (siblings : list nat) (dirty : bool) : M unit :=
  match siblings with
  | [] => mret tt
  | nd :: rest =>
      c ← node nd;
      (if internal c then unmount self nd dirty;; mret tt else mret tt);;
      unmount_each rest dirty
  end.

Definition unmountChildren (this : nat) (dirty : bool) : M unit :=
  n ← node this;
  unmount_each (children n) dirty.

Definition FragmentNode_unmount (this : nat) (dirty : bool) : M (option nat) :=
  n ← node this;
  if unmounted n then mret None
  else
    assign this (set_unmounted true);;
    unmountChildren this dirty;;
    mret None.

(** [this.parent.catch(err)] in a component, whose [parent] is declared
    not to be [undefined]: were it, the member access would throw. *)
Definition parent_catch (this : nat) (err : val) : M (option nat) :=
  n ← node this;
  match parent n with
  | Some p => catch self p err
  | None => throw (VString "TypeError")
  end.

(** [iterator.return()] inside its [try]: the iteration, or what the
    [catch] block returns. *)
Definition try_return (it : nat) (handler : val -> M (option nat))
  : M (val + option nat) :=
  try_catch (iteration ← return_ env it; mret (inl iteration))
            (fun err => r ← handler err; mret (inr r)).

Definition HostNode_unmount (this : nat) (dirty : bool) : M (option nat) :=
  n ← node this;
  if unmounted n then mret None
  else
    returned ←
      (if negb (finished n) then
         assign this (set_dirtyRemoval dirty);;
         r ← match iterator n with
             | Some it =>
                 if has_return env it then
                   try_return it (fun err =>
                     match parent n with
                     | None => throw err
                     | Some p => catch self p err
                     end)
                 else mret (inl VUndefined)
             | None => mret (inl VUndefined)
             end;
         match r with
         | inr caught => mret (Some caught)
         | inl _ => assign this (set_finished true);; mret None
         end
       else mret None);
    match returned with
    | Some caught => mret caught
    | None =>
        assign this (set_unmounted true);;
        unmountChildren this (bool_decide (tag n = Portal));;
        mret None
    end.

(** [if (this.onProps !== undefined) { this.onProps(this.props); this.onProps = undefined }] *)
Definition release_props (this : nat) : M unit :=
  n ← node this;
  match onProps n with
  | Some p =>
      promises_ (Promises.resolve p (props n));;
      assign this (set_onProps None)
  | None => mret tt
  end.

Definition ComponentNode_unmount (this : nat) (dirty : bool) : M (option nat) :=
  n ← node this;
  if unmounted n then mret None
  else
    assign this (set_updating false);;
    assign this (set_unmounted true);;
    (match cleanups n with
     | Some callbacks =>
         call_each callbacks (value n);;
         assign this (set_cleanups None)
     | None => mret tt
     end);;
    n ← node this;
    if negb (finished n) then
      assign this (set_finished true);;
      release_props this;;
      r ← match iterator n with
          | Some it =>
              if has_return env it
              then try_return it (parent_catch this)
              else mret (inl VUndefined)
          | None => mret (inl VUndefined)
          end;
      match r with
      | inr caught => mret caught
      | inl (VPromise iteration) =>
          p ← then2 iteration (KUnmountChildren this dirty) (KParentCatch this);
          mret (Some p)
      | inl _ =>
          unmountChildren this dirty;;
          mret None
      end
    else mret None.

(** **** Error handling *)

Definition ParentNode_catch (this : nat) (reason : val) : M (option nat) :=
  n ← node this;
  match parent n with
  | None => throw reason
  | Some p => catch self p reason
  end.

Definition ComponentNode_catch (this : nat) (reason : val) : M (option nat) :=
  n ← node this;
  match iterator n with
  | Some it =>
      if negb (has_throw env it) || finished n then ParentNode_catch this reason
      else
        release_props this;;
        r ← try_catch (iteration ← throw_ env it reason; mret (inl iteration))
              (fun err => r ← parent_catch this err; mret (inr r));
        match r with
        | inr caught => mret caught
        | inl (VPromise iteration) =>
            result ← then2 iteration (KCaught this) (KParentCatch this);
            mret (Some result)
        | inl iteration =>
            (if truthy (member iteration "done")
             then assign this (set_finished true) else mret tt);;
            updateChildren self this (member iteration "value")
        end
  | None => ParentNode_catch this reason
  end.

(** **** The component scheduler *)

(** [if (this.onProps === undefined) this.available = true;
     else { this.onProps(this.props); this.onProps = undefined }] *)
Definition provide_props (this : nat) : M unit :=
  n ← node this;
  match onProps n with
  | None => assign this (set_available true)
  | Some p =>
      promises_ (Promises.resolve p (props n));;
      assign this (set_onProps None)
  end.

Definition refresh (this : nat) : M (option nat) :=
  n ← node this;
  if stepping n || unmounted n then mret None
  else
    provide_props this;;
    result ← run self this;
    match result with
    | None => commit self this;; mret None
    | Some result => p ← then1 result (KCommit this); mret (Some p)
    end.

Definition ComponentNode_update (this : nat) (props ref : val) : M (option nat) :=
  assign this (set_props props);;
  assign this (set_ref ref);;
  assign this (set_updating true);;
  provide_props this;;
  run self this.

(** [run]: in the last branch the promise of [enqueuedResult] is
    created before the chain on [inflightPending], whose callback
    captures its resolve function. *)
Definition ComponentNode_run (this : nat) : M (option nat) :=
  n ← node this;
  match inflightPending n with
  | None =>
      '(pending, result) ← step self this;
      (match pending with
       | Some pending =>
           p ← finally pending (KAdvance this);
           assign this (set_inflightPending (Some p))
       | None => mret tt
       end);;
      assign this (set_inflightResult result);;
      n ← node this;
      mret (inflightResult n)
  | Some inflight =>
      if decide (componentType n = Some AsyncGen) then mret (inflightResult n)
      else
        (match enqueuedPending n with
         | None =>
             resolve ← promises Promises.new_promise;
             stepped ← then1 inflight (KStepEnqueued this resolve);
             p ← finally stepped (KAdvance this);
             assign this (set_enqueuedPending (Some p));;
             assign this (set_enqueuedResult (Some resolve))
         | Some _ => mret tt
         end);;
        n ← node this;
        mret (enqueuedResult n)
  end.

(** The part of [step] that resumes the iterator. *)
Definition resume (this it : nat) : M (option nat * option nat) :=
  n ← node this;
  oldValue ←
    match oldResult n with
    | None => mret (value n)
    | Some oldResult => p ← then1 oldResult (KValue this); mret (VPromise p)
    end;
  assign this (set_oldResult None);;
  r ← try_catch (iteration ← next env it oldValue; mret (inl iteration))
        (fun err => caught ← parent_catch this err; mret (inr caught));
  match r with
  | inr caught => mret (caught, caught)
  | inl iteration =>
      assign this (set_stepping false);;
      match iteration with
      | VPromise iteration =>
          assign this (set_componentType (Some AsyncGen));;
          iteration ← catch1 iteration (KIterationCatch this);
          pending ← then2 iteration KUndefined KUndefined;
          result ← then1 iteration (KIteration this);
          mret (Some pending, Some result)
      | _ =>
          assign this (set_iterating false);;
          assign this (set_componentType (Some SyncGen));;
          (if truthy (member iteration "done")
           then assign this (set_finished true) else mret tt);;
          result ← updateChildren self this (member iteration "value");
          mret (result, result)
      end
  end.

Definition ComponentNode_step (this : nat) : M (option nat * option nat) :=
  n ← node this;
  if finished n then mret (None, None)
  else
    assign this (set_stepping true);;
    match iterator n with
    | Some it => resume this it
    | None =>
        r ← try_catch (v ← component env (tag n) this (props n); mret (inl v))
              (fun err => caught ← parent_catch this err; mret (inr caught));
        match r with
        | inr caught => mret (None, caught)
        | inl (VIterator it) =>
            assign this (set_iterator (Some it));;
            resume this it
        | inl (VPromise value1) =>
            assign this (set_componentType (Some AsyncFn));;
            pending ← then2 value1 KUndefined KUndefined;
            result ← then2 value1 (KUpdateChildren this) (KParentCatch this);
            assign this (set_stepping false);;
            mret (Some pending, Some result)
        | inl v =>
            assign this (set_componentType (Some SyncFn));;
            result ← updateChildren self this v;
            assign this (set_stepping false);;
            mret (None, result)
        end
    end.

Definition ComponentNode_advance (this : nat) : M unit :=
  assign this (fun n =>
    set_enqueuedResult None (set_enqueuedPending None
      (set_inflightResult (enqueuedResult n)
         (set_inflightPending (enqueuedPending n) n))));;
  n ← node this;
  if bool_decide (componentType n = Some AsyncGen) && negb (finished n) then
    r ← run self this;
    match r with
    | Some p => catch1 p (KRethrow this);; mret tt
    | None => throw (VString "TypeError")
    end
  else mret tt.

(** **** What the closures do when called *)

Fixpoint unmount_alternates (fuel : nat) (older : option nat) : M unit :=
  match fuel, older with
  | S fuel', Some nd =>
      c ← node nd;
      (if internal c then unmount self nd true;; mret tt else mret tt);;
      c ← node nd;
      unmount_alternates fuel' (alternate c)
  | _, _ => mret tt
  end.

Definition iteration_done : val :=
  VObject [("value", VUndefined); ("done", VBoolean true)].

Definition call (k : closure) (x : val) : M val :=
  match k with
  | KConst result1 => mret result1
  | KUnmountAlternates newNode =>
      store ← all_nodes;
      nn ← node newNode;
      unmount_alternates (size store) (alternate nn);;
      assign newNode (set_alternate None);;
      mret VUndefined
  | KCommit this => r ← commit self this; mret (maybe r)
  | KAdvance this => advance self this;; mret VUndefined
  | KStepEnqueued this resolve =>
      '(pending, result) ← step self this;
      promises_ (Promises.resolve resolve (maybe result));;
      mret (maybe pending)
  | KUndefined => mret VUndefined
  | KUpdateChildren this => r ← updateChildren self this x; mret (maybe r)
  | KParentCatch this => r ← parent_catch this x; mret (maybe r)
  | KValue this => n ← node this; mret (value n)
  | KIterationCatch this =>
      p ← parent_catch this x;
      match p with
      | None => mret iteration_done
      | Some p => q ← then1 p KIterationDone; mret (VPromise q)
      end
  | KIteration this =>
      assign this (set_iterating false);;
      (if truthy (member x "done") then assign this (set_finished true) else mret tt);;
      result ← updateChildren self this (member x "value");
      (match result with
       | Some result =>
           p ← catch1 result KUndefined;
           assign this (set_oldResult (Some p))
       | None => mret tt
       end);;
      mret (maybe result)
  | KRethrow this =>
      n ← node this;
      if negb (updating n) then throw x else mret VUndefined
  | KUnmountChildren this dirty => unmountChildren this dirty;; mret VUndefined
  | KCaught this =>
      (if truthy (member x "done") then assign this (set_finished true) else mret tt);;
      r ← updateChildren self this (member x "value");
      mret (maybe r)
  | KIterationDone => mret iteration_done
  | KRendered rootNode root =>
      commit self rootNode;;
      (if nullish root then unmount self rootNode true;; mret tt else mret tt);;
      n ← node rootNode;
      mret (value n)
  end.

(** **** Renderer.render *)

Definition render (children root : val) : M val :=
  let child :=
    if isNonStringIterable children
    then createElement [Fragment; VNull; children] else children in
  let portal :=
    if isElement child && bool_decide (child_tag child = Portal) then child
    else createElement [Portal; VObject [("root", root)]; child] in
  cached ← (if negb (nullish root) then cache_get root else mret None);
  rootNode ←
    match cached with
    | None =>
        rootNode ← alloc (blank HostNode (child_tag portal) VUndefined None);
        (if bool_decide (root <> VUndefined) && negb (nullish child) then
           if nullish root then throw (VString "TypeError")
           else cache_set root rootNode
         else mret tt);;
        mret rootNode
    | Some rootNode =>
        (if negb (nullish root) && nullish child then cache_delete root
         else mret tt);;
        mret rootNode
    end;
  result ← update self rootNode (child_props portal) VUndefined;
  match result with
  | Some result =>
      p ← then1 result (KRendered rootNode (member (child_props portal) "root"));
      mret (VPromise p)
  | None =>
      commit self rootNode;;
      (if nullish (member (child_props portal) "root")
       then unmount self rootNode true;; mret tt else mret tt);;
      n ← node rootNode;
      mret (value n)
  end.

End Bodies.

(** **** Tying the knot

    [methods fuel] dispatches on the class of [this], as the method
    tables of the classes do; [fuel] bounds the depth of calls, and a
    call past it throws the marker [out_of_fuel]. *)
Definition out_of_fuel : val := VString "out of fuel".

Definition exhausted : Methods :=
  {| update := fun _ _ _ => throw out_of_fuel;
     updateChildren := fun _ _ => throw out_of_fuel;
     commit := fun _ => throw out_of_fuel;
     unmount := fun _ _ => throw out_of_fuel;
     catch := fun _ _ => throw out_of_fuel;
     run := fun _ => throw out_of_fuel;
     step := fun _ => throw out_of_fuel;
     advance := fun _ => throw out_of_fuel |}.

Definition dispatch (self : Methods) : Methods :=
  {| update := fun this props ref =>
       n ← node this;
       match cls n with
       | ComponentNode => ComponentNode_update self this props ref
       | _ => ParentNode_update self this props ref
       end;
     updateChildren := fun this children =>
       n ← node this;
       match cls n with
       | ComponentNode => ComponentNode_updateChildren self this children
       | _ => ParentNode_updateChildren self this children
       end;
     commit := fun this =>
       n ← node this;
       match cls n with
       | ComponentNode => ComponentNode_commit self this
       | HostNode => HostNode_commit self this
       | _ => FragmentNode_commit self this
       end;
     unmount := fun this dirty =>
       n ← node this;
       match cls n with
       | ComponentNode => ComponentNode_unmount self this dirty
       | HostNode => HostNode_unmount self this dirty
       | _ => FragmentNode_unmount self this dirty
       end;
     catch := fun this reason =>
       n ← node this;
       match cls n with
       | ComponentNode => ComponentNode_catch self this reason
       | _ => ParentNode_catch self this reason
       end;
     run := ComponentNode_run self;
     step := ComponentNode_step self;
     advance := ComponentNode_advance self |}.

Fixpoint methods (fuel : nat) : Methods :=
  match fuel with
  | 0 => exhausted
  | S fuel' => dispatch (methods fuel')
  end.

(** The microtask queue, with the closures called at depth [fuel]. *)
Definition settle_jobs (fuel jobs : nat) (s : State) : State :=
  Promises.drain machine with_machine (call (methods fuel)) jobs s.

End Core.

Arguments Methods : clear implicits.

End Nodes.

(** ** The element based core

    Here an [Element] is both the descriptor [createElement] returns
    and the retained object the reconciler mutates; a value that is an
    element is [VOpaque] of its address in the store.  The fields of a
    component's [Context] ([_onProps], [_inflightPending], ...) are kept
    with its element, and [ctx] says whether the element has one. *)

Module Elements.
Import JS Runtime.

Definition Fragment : val := VSymbol "crank.Fragment".
Definition Copy : val := VSymbol "crank.Copy".
Definition Portal : val := VSymbol "crank.Portal".
Definition Raw : val := VSymbol "crank.Raw".

(** The constants of [./flags], which the sources import and do not
    hold: they are parameters of everything below. *)
Record Flags : Type := mkFlags {
  Initial : Z;
  Mounted : Z;
  Updating : Z;
  Dirty : Z;
  Moved : Z;
  Removing : Z;
  Handling : Z;
  Finished : Z;
  Unmounted : Z;
  Stepping : Z;
  Iterating : Z;
  Available : Z;
  SyncGen : Z;
  AsyncGen : Z
}.

(** [if (flags & mask)]: the bits in common are not all zero.  On the
    32-bit integers that flag words are, [&], [|] and [~] are those of
    [Z]. *)
Definition has (word mask : Z) : bool := negb (Z.land word mask =? 0)%Z.
Definition add (word mask : Z) : Z := Z.lor word mask.
Definition remove (word mask : Z) : Z := Z.land word (Z.lnot mask).

(** A callback in [el.schedules]: one the user registered, or the one
    [updateChildren] registers on a child it replaces,
    [(value) => { if (!fulfilled) newChild2.value = value }]. *)
Inductive callback : Type :=
| User (f : val)
| KeepValue (newChild2 : nat).

#[global] Instance callback_eq_dec : EqDecision callback.
Proof. solve_decision. Defined.

Record Element : Type := mkElement {
  tag : val;
  props : val;
  key : val;
  ref : val;
  flags : Z;
  parent : option nat;
  ctx : bool;
  iterator : option nat;
  value : val;
  children : val;
  childrenByKey : option (list (val * nat));
  onNewResult : option nat;
  schedules : list callback;
  cleanups : option (list val);
  (* Context *)
  _onProps : option nat;
  _oldResult : option nat;
  _inflightPending : option nat;
  _enqueuedPending : option nat;
  _inflightResult : option nat;
  _enqueuedResult : option nat;
  (* the variable [fulfilled] of the replacement that mounted this element *)
  fulfilled : bool
}.

Ltac assign el proj v :=
  let e := constr:(mkElement (tag el) (props el) (key el) (ref el) (flags el)
                     (parent el) (ctx el) (iterator el) (value el) (children el)
                     (childrenByKey el) (onNewResult el) (schedules el) (cleanups el)
                     (_onProps el) (_oldResult el) (_inflightPending el)
                     (_enqueuedPending el) (_inflightResult el) (_enqueuedResult el)
                     (fulfilled el)) in
  match e with
  | context C [proj el] => let r := context C [v] in exact r
  end.

Definition set_props v el : Element := ltac:(assign el props v).
Definition set_ref v el : Element := ltac:(assign el ref v).
Definition set_flags v el : Element := ltac:(assign el flags v).
Definition set_parent v el : Element := ltac:(assign el parent v).
Definition set_ctx v el : Element := ltac:(assign el ctx v).
Definition set_iterator v el : Element := ltac:(assign el iterator v).
Definition set_value v el : Element := ltac:(assign el value v).
Definition set_children v el : Element := ltac:(assign el children v).
Definition set_childrenByKey v el : Element := ltac:(assign el childrenByKey v).
Definition set_onNewResult v el : Element := ltac:(assign el onNewResult v).
Definition set_schedules v el : Element := ltac:(assign el schedules v).
Definition set_cleanups v el : Element := ltac:(assign el cleanups v).
Definition set_onProps v el : Element := ltac:(assign el _onProps v).
Definition set_oldResult v el : Element := ltac:(assign el _oldResult v).
Definition set_inflightPending v el : Element := ltac:(assign el _inflightPending v).
Definition set_enqueuedPending v el : Element := ltac:(assign el _enqueuedPending v).
Definition set_inflightResult v el : Element := ltac:(assign el _inflightResult v).
Definition set_enqueuedResult v el : Element := ltac:(assign el _enqueuedResult v).
Definition set_fulfilled v el : Element := ltac:(assign el fulfilled v).

(** [new Element(tag, props, key, ref)] *)
Definition new_Element (initial : Z) (tag props key ref : val) : Element :=
  {| tag := tag; props := props; key := key; ref := ref; flags := initial;
     parent := None; ctx := false; iterator := None; value := VUndefined;
     children := VUndefined; childrenByKey := None; onNewResult := None;
     schedules := []; cleanups := None;
     _onProps := None; _oldResult := None; _inflightPending := None;
     _enqueuedPending := None; _inflightResult := None; _enqueuedResult := None;
     fulfilled := false |}.

#[global] Instance Element_inhabited : Inhabited Element :=
  populate (new_Element 0 VUndefined VUndefined VUndefined VUndefined).

Inductive closure : Type :=
| KConst (result1 : val)              (* () => result1 *)
| KReplaced (oldChild1 newChild2 : nat) (* () => { fulfilled = true; unmount(renderer, oldChild1) } *)
| KCommit (el : nat)                  (* () => commit(renderer, el) *)
| KAdvance (ctx : nat)                (* () => advance(ctx) *)
| KStepEnqueued (ctx resolve : nat)
| KUndefined
| KUpdateChildren (el : nat)          (* (child) => updateChildren(ctx.renderer, el, child, ctx) *)
| KHandleParent (el : nat)            (* (err) => handle(renderer, el.parent!, err) *)
| KValue (el : nat)                   (* () => el.value *)
| KIterationCatch (el : nat)
| KIteration (el : nat)
| KRethrow (el : nat)
| KUnmountChildren (el : nat) (dirty : bool)
| KCaught (el : nat)
| KIterationDone
| KRendered (newChild : nat).

Section Core.
Context {W : Type}.
Variable F : Flags.

Local Abbreviation State := (Runtime.State Element closure W).
Local Abbreviation M := (Runtime.M Element closure W).

Variable env : Env Element closure W.

(** [isElement(value)]: the value is an object carrying the sigil. *)
Definition isElement (v : val) : bool :=
  match v with VOpaque _ => true | _ => false end.

(** [typeof child === "object"] on a normalized child. *)
Definition is_object (v : val) : bool :=
  match v with VOpaque _ => true | _ => false end.

(** [for (const name in props) ...]: the reserved names go to [key] and
    [ref], the others to [props1]. *)
Fixpoint strip (props : val) (names : list string) (acc : object * val * val)
  : object * val * val :=
  match names with
  | [] => acc
  | name :: names' =>
      let '(props1, key, ref) := acc in
      strip props names'
        (if String.eqb name "crank-key" then
           (props1, (if negb (nullish (member props name))
                     then member props name else key), ref)
         else if String.eqb name "crank-ref" then
           (props1, key, (if is_function (member props "crank-ref")
                          then member props name else ref))
         else (set props1 name (member props name), key, ref))
  end.

(** [while (length-- > 2) children1[length - 2] = arguments[length]] *)
Fixpoint collect (arguments : list val) (length : nat)
    (children1 : list (option val)) : list (option val) :=
  match length with
  | 0 => children1
  | S length' =>
      if (2 <? length)%nat
      then collect arguments length'
             (array_set children1 (length' - 2) (arg arguments length'))
      else children1
  end.

Definition createElement (arguments : list val) : M val :=
  let tag := arg arguments 0 in
  let props := arg arguments 1 in
  let children := arg arguments 2 in
  let '(props1, key, ref) :=
    if negb (nullish props)
    then strip props (keys props) ([], VUndefined, VUndefined)
    else ([], VUndefined, VUndefined) in
  let length := length arguments in
  let props1 :=
    if (3 <? length)%nat then set props1 "children" (VArray (collect arguments length []))
    else if (2 <? length)%nat then set props1 "children" children
    else props1 in
  el ← alloc (new_Element (Initial F) tag (VObject props1) key ref);
  mret (VOpaque el).

Definition toString (v : val) : string :=
  match v with
  | VNumber n => pretty n
  | VString s => s
  | _ => "[object Object]"
  end.

Definition normalize (child : val) : val :=
  if nullish child || (if child is VBoolean _ then true else false) then VUndefined
  else if (if child is VString _ then true else false) || isElement child then child
  else VString (toString child).

Definition iterate (v : val) : list val :=
  match v with
  | VArray items => map (default VUndefined) items
  | _ => []
  end.

(** The functions call one another, and user code calls back into
    them: each body below takes the functions it calls from [self]. *)
Record Methods : Type := mkMethods {
  rec_update : nat -> M (option nat);
  rec_updateChildren : nat -> val -> M (option nat);
  rec_commit : nat -> M (option nat);
  rec_unmount : nat -> bool -> M (option nat);
  rec_handle : nat -> val -> M (option nat);
  rec_run : nat -> M (option nat);
  rec_step : nat -> M (option nat * option nat);
  rec_advance : nat -> M unit
}.

Definition maybe (r : option nat) : val :=
  match r with Some p => VPromise p | None => VUndefined end.

Definition truthy (v : val) : bool :=
  match v with
  | VUndefined | VNull | VBoolean false | VNumber 0 | VString "" => false
  | _ => true
  end.

Section Bodies.
Variable self : Methods.

(** [el.flags |= mask], [el.flags &= ~mask] *)
Definition raise (el : nat) (mask : Z) : M unit :=
  assign el (fun e => set_flags (add (flags e) mask) e).
Definition lower (el : nat) (mask : Z) : M unit :=
  assign el (fun e => set_flags (remove (flags e) mask) e).

(** **** mount, update, refresh, run, step, advance *)

Definition mount (el : nat) (parent : option nat) : M nat :=
  e ← node el;
  el ← (if has (flags e) (Mounted F)
        then alloc (new_Element (Initial F) (tag e) (props e) (key e) (ref e))
        else mret el);
  raise el (Mounted F);;
  assign el (set_parent parent);;
  e ← node el;
  (if is_function (tag e) then assign el (set_ctx true) else mret tt);;
  mret el.

(** [if (typeof this._onProps === "function")
      { this._onProps(el.props); this._onProps = undefined }] *)
Definition release_props (el : nat) : M unit :=
  e ← node el;
  match _onProps e with
  | Some p =>
      promises_ (Promises.resolve p (props e));;
      assign el (set_onProps None)
  | None => mret tt
  end.

Definition refresh (el : nat) : M (option nat) :=
  e ← node el;
  if has (flags e) (Z.lor (Stepping F) (Unmounted F)) then mret None
  else
    (match _onProps e with
     | Some p =>
         promises_ (Promises.resolve p (props e));;
         assign el (set_onProps None)
     | None => raise el (Available F)
     end);;
    rec_run self el.

Definition update (el : nat) : M (option nat) :=
  raise el (Updating F);;
  e ← node el;
  if ctx e then refresh el
  else rec_updateChildren self el (member (props e) "children").

(** [run]: in the last branch the promise of [_enqueuedResult] is
    created before the chain on [_inflightPending], whose callback
    captures its resolve function. *)
Definition run (el : nat) : M (option nat) :=
  e ← node el;
  match _inflightPending e with
  | None =>
      '(pending, result) ← rec_step self el;
      (match pending with
       | Some pending =>
           p ← finally pending (KAdvance el);
           assign el (set_inflightPending (Some p))
       | None => mret tt
       end);;
      (match result with
       | Some result => assign el (set_inflightResult (Some result))
       | None => mret tt
       end);;
      mret result
  | Some inflight =>
      if has (flags e) (AsyncGen F) then mret (_inflightResult e)
      else
        (match _enqueuedPending e with
         | None =>
             resolve ← promises Promises.new_promise;
             stepped ← then1 inflight (KStepEnqueued el resolve);
             p ← finally stepped (KAdvance el);
             assign el (set_enqueuedPending (Some p));;
             assign el (set_enqueuedResult (Some resolve))
         | Some _ => mret tt
         end);;
        e ← node el;
        mret (_enqueuedResult e)
  end.

(** [handle(renderer, el.parent!, err)] *)
Definition handle_parent (el : nat) (err : val) : M (option nat) :=
  e ← node el;
  match parent e with
  | Some p => rec_handle self p err
  | None => throw (VString "TypeError")
  end.

Definition resume (el it : nat) : M (option nat * option nat) :=
  e ← node el;
  oldValue ←
    match _oldResult e with
    | Some oldResult =>
        p ← then1 oldResult (KValue el);
        assign el (set_oldResult None);;
        mret (VPromise p)
    | None => mret (value e)
    end;
  r ← try_catch (iteration ← next env it oldValue; mret (inl iteration))
        (fun err => caught ← handle_parent el err; mret (inr caught));
  match r with
  | inr caught => mret (caught, caught)
  | inl iteration =>
      lower el (Stepping F);;
      match iteration with
      | VPromise iteration =>
          raise el (AsyncGen F);;
          iteration ← catch1 iteration (KIterationCatch el);
          pending ← then2 iteration KUndefined KUndefined;
          result ← then1 iteration (KIteration el);
          mret (Some pending, Some result)
      | _ =>
          lower el (Iterating F);;
          raise el (SyncGen F);;
          (if truthy (member iteration "done") then raise el (Finished F) else mret tt);;
          result ← rec_updateChildren self el (member iteration "value");
          mret (result, result)
      end
  end.

Definition step (el : nat) : M (option nat * option nat) :=
  e ← node el;
  if has (flags e) (Finished F) then mret (None, None)
  else
    raise el (Stepping F);;
    match iterator e with
    | Some it => resume el it
    | None =>
        r ← try_catch (v ← component env (tag e) el (props e); mret (inl v))
              (fun err => caught ← handle_parent el err; mret (inr caught));
        match r with
        | inr caught => mret (None, caught)
        | inl (VIterator it) =>
            assign el (set_iterator (Some it));;
            resume el it
        | inl (VPromise value1) =>
            pending ← then2 value1 KUndefined KUndefined;
            result ← then2 value1 (KUpdateChildren el) (KHandleParent el);
            lower el (Stepping F);;
            mret (Some pending, Some result)
        | inl v =>
            result ← rec_updateChildren self el v;
            lower el (Stepping F);;
            mret (None, result)
        end
    end.

Definition advance (el : nat) : M unit :=
  assign el (fun e =>
    set_enqueuedResult None (set_enqueuedPending None
      (set_inflightResult (_enqueuedResult e)
         (set_inflightPending (_enqueuedPending e) e))));;
  e ← node el;
  if has (flags e) (AsyncGen F) && negb (has (flags e) (Finished F)) then
    r ← rec_run self el;
    match r with
    | Some p => catch1 p (KRethrow el);; mret tt
    | None => throw (VString "TypeError")
    end
  else mret tt.

(** **** updateChildren *)

(** [el.children[i]] when the children are an array, [el.children]
    itself for [i === 0] when they are not. *)
Definition old_child (children : val) (i : nat) : val :=
  match children with
  | VArray items => default VUndefined (mjoin (items !! i))
  | _ => if (i =? 0)%nat then children else VUndefined
  end.

(** [typeof child === "object" && child.key !== undefined] *)
Definition keyed (store : gmap nat Element) (child : val) : bool :=
  match child with
  | VOpaque c => bool_decide (key (store !!! c) <> VUndefined)
  | _ => false
  end.

(** [typeof child === "object" && child.key === undefined] *)
Definition unkeyed (store : gmap nat Element) (child : val) : bool :=
  match child with
  | VOpaque c => bool_decide (key (store !!! c) = VUndefined)
  | _ => false
  end.

(** [while (typeof oldChild === "object" && oldChild.key !== undefined)
      { i++; oldChild = el.children[i]; }] *)
Fixpoint skip_keyed (fuel : nat) (store : gmap nat Element) (children : val) (i : nat)
  : val * nat :=
  match fuel with
  | 0 => (old_child children i, i)
  | S fuel' =>
      if keyed store (old_child children i)
      then skip_keyed fuel' store children (S i)
      else (old_child children i, i)
  end.

(** The variables of the loop over the new children. *)
Record Pass : Type := mkPass {
  result : option nat;
  children1 : val;
  childrenByKey1 : option (list (val * nat));   (* [childrenByKey], the new map *)
  index : nat                                   (* [i] *)
}.

Definition merge (result : option nat) (result1 : nat) : M (option nat) :=
  match result with
  | None => mret (Some result1)
  | Some result => p ← then1 result (KConst (VPromise result1)); mret (Some p)
  end.

(** Alignment: the old child the new child is matched with, and [i]. *)
Definition align (el : nat) (i : nat) (newChild1 : val) : M (val * nat) :=
  e ← node el;
  store ← all_nodes;
  let oldChild := old_child (children e) i in
  if keyed store newChild1 then
    let k := match newChild1 with VOpaque c => key (store !!! c) | _ => VUndefined end in
    match map_get (childrenByKey e) k with
    | None => mret (VUndefined, i)
    | Some oldChild1 =>
        assign el (fun e => set_childrenByKey (map_delete (childrenByKey e) k) e);;
        if decide (oldChild = VOpaque oldChild1) then mret (oldChild, S i)
        else
          raise oldChild1 (Moved F);;
          mret (VOpaque oldChild1, i)
    end
  else
    let '(oldChild, i) :=
      if keyed store oldChild then
        match children e with
        | VArray items => skip_keyed (length items) store (children e) i
        | _ => (VUndefined, i)
        end
      else (oldChild, i) in
    mret (oldChild, S i).

Definition schedule (el : nat) (cb : callback) : M unit :=
  assign el (fun e =>
    set_schedules (if bool_decide (cb ∈ schedules e) then schedules e
                   else schedules e ++ [cb]) e).

Definition cleanup (el : nat) (cb : val) : M unit :=
  assign el (fun e =>
    let l := default [] (cleanups e) in
    set_cleanups (Some (if bool_decide (cb ∈ l) then l else l ++ [cb])) e).

(** Updating: the new child takes the place of the old one, updated in
    place, copied, or mounted afresh. *)
Definition update_child (el : nat) (newChild newChild1 oldChild : val)
    (result : option nat) : M (val * option nat) :=
  match newChild1 with
  | VOpaque nc =>
      nce ← node nc;
      '(newChild1, result1) ←
        (if decide (tag nce = Copy) then mret (oldChild, None)
         else
           match oldChild with
           | VOpaque oc =>
               oce ← node oc;
               if decide (tag oce = tag nce) then
                 nc ← (if decide (oldChild <> newChild) then
                         assign oc (fun o => set_ref (ref nce) (set_props (props nce) o));;
                         mret oc
                       else mret nc);
                 result1 ← rec_update self nc;
                 mret (VOpaque nc, result1)
               else
                 nc ← mount nc (Some el);
                 result1 ← rec_update self nc;
                 (match result1 with
                  | None => rec_unmount self oc true;; mret tt
                  | Some result1 =>
                      oce ← node oc;
                      assign nc (set_value (value oce));;
                      then1 result1 (KReplaced oc nc);;
                      schedule oc (KeepValue nc)
                  end);;
                 mret (VOpaque nc, result1)
           | _ =>
               nc ← mount nc (Some el);
               result1 ← rec_update self nc;
               (match result1 with
                | Some _ => assign nc (set_value oldChild)
                | None => mret tt
                end);;
               mret (VOpaque nc, result1)
           end);
      result ← match result1 with
               | Some result1 => merge result result1
               | None => mret result
               end;
      mret (newChild1, result)
  | _ =>
      (match oldChild with
       | VOpaque oc => rec_unmount self oc true;; mret tt
       | _ => mret tt
       end);;
      mret ((if newChild1 is VString s then VString (text env s) else newChild1),
            result)
  end.

(** [children1.push(newChild1)], with the two first cases of the source. *)
Definition push (children1 newChild1 : val) : val :=
  match children1 with
  | VUndefined => newChild1
  | VArray items => VArray (items ++ [Some newChild1])
  | single => VArray [Some single; Some newChild1]
  end.

Definition pass_step (el : nat) (st : Pass) (newChild : val) : M Pass :=
  newChild1 ← (if isNonStringIterable newChild
               then createElement [Fragment; VNull; newChild]
               else mret (normalize newChild));
  '(oldChild, i) ← align el (index st) newChild1;
  '(newChild1, result) ← update_child el newChild newChild1 oldChild (result st);
  store ← all_nodes;
  let childrenByKey :=
    if keyed store newChild1 then
      let k := match newChild1 with VOpaque c => key (store !!! c) | _ => VUndefined end in
      if map_has (childrenByKey1 st) k then childrenByKey1 st
      else map_set (childrenByKey1 st) k
             (match newChild1 with VOpaque c => c | _ => 0 end)
    else childrenByKey1 st in
  mret (mkPass result (push (children1 st) newChild1) childrenByKey i).

Fixpoint pass (el : nat) (st : Pass) (children : list val) : M Pass :=
  match children with
  | [] => mret st
  | newChild :: rest => st ← pass_step el st newChild; pass el st rest
  end.

(** [for (; i < el.children.length; i++) ...]: the unkeyed old children
    left are unmounted. *)
Fixpoint trim (olds : list val) : M unit :=
  match olds with
  | [] => mret tt
  | oldChild :: rest =>
      store ← all_nodes;
      (if unkeyed store oldChild
       then match oldChild with
            | VOpaque oc => rec_unmount self oc true;; mret tt
            | _ => mret tt
            end
       else mret tt);;
      trim rest
  end.

Fixpoint unmount_keyed (l : list nat) : M unit :=
  match l with
  | [] => mret tt
  | child :: rest => rec_unmount self child true;; unmount_keyed rest
  end.

(** The end of [updateChildren], from [if (el.onNewResult !== undefined)]. *)
Definition finish (el : nat) (result : option nat) : M (option nat) :=
  e ← node el;
  match onNewResult e with
  | Some newResult =>
      promises_ (Promises.resolve newResult (maybe result));;
      assign el (set_onNewResult None)
  | None => mret tt
  end;;
  match result with
  | Some result =>
      result ← then1 result (KCommit el);
      newResult ← promises Promises.new_promise;
      assign el (set_onNewResult (Some newResult));;
      raced ← promises (Promises.race [result; newResult]);
      mret (Some raced)
  | None => rec_commit self el
  end.

Definition updateChildren (el : nat) (children : val) : M (option nat) :=
  e ← node el;
  children ← (if is_function (tag e) && isNonStringIterable children
              then createElement [Fragment; VNull; children]
              else mret children);
  let handling := Z.land (flags e) (Handling F) in
  let children :=
    if isNonStringIterable children then iterate children
    else if decide (children = VUndefined) then [] else [children] in
  st ← pass el (mkPass None VUndefined None 0) children;
  e ← node el;
  if decide (handling <> Z.land (flags e) (Handling F)) then
    lower el (Handling F);;
    mret None
  else
    (match Elements.children e with
     | VUndefined => mret tt
     | VArray items => trim (drop (index st) (map (default VUndefined) items))
     | only =>
         store ← all_nodes;
         if (index st =? 0)%nat && unkeyed store only
         then match only with
              | VOpaque oc => rec_unmount self oc true;; mret tt
              | _ => mret tt
              end
         else mret tt
     end);;
    e ← node el;
    unmount_keyed (map_values (childrenByKey e));;
    assign el (set_children (children1 st));;
    assign el (set_childrenByKey (childrenByKey1 st));;
    finish el (result st).

(** **** prepareCommit and commit *)

(** [if (typeof child === "object") { if (child.flags & (Dirty | Moved))
      el.flags |= Dirty; child.flags &= ~(Dirty | Moved) }
     else el.flags |= Dirty] *)
Definition absorb (el : nat) (child : val) : M unit :=
  match child with
  | VOpaque c =>
      ce ← node c;
      (if has (flags ce) (Z.lor (Dirty F) (Moved F))
       then raise el (Dirty F) else mret tt);;
      lower c (Z.lor (Dirty F) (Moved F))
  | _ => raise el (Dirty F)
  end.

(** The variables of the loop of [prepareCommit]. *)
Record Buffer : Type := mkBuffer {
  buffer : option string;
  values : list val
}.

(** What one child adds to the values: a Portal nothing; a string, or
    the string value of an element, joins the buffer; any other value
    flushes the buffer and is appended, an array spread. *)
Definition collect_value (store : gmap nat Element) (child : val) (b : Buffer)
  : Buffer :=
  let portal :=
    match child with
    | VOpaque c => bool_decide (tag (store !!! c) = Portal)
    | _ => false
    end in
  if portal then b
  else
    let v := match child with VOpaque c => value (store !!! c) | _ => child end in
    match v with
    | VString s =>
        mkBuffer (Some (match buffer b with Some t => t +:+ s | None => s end))
                 (values b)
    | _ =>
        let flushed :=
          match buffer b with
          | Some t => values b ++ [VString t]
          | None => values b
          end in
        mkBuffer None
          (match v with
           | VArray _ => flushed ++ iterate v
           | VUndefined => flushed
           | _ => flushed ++ [v]
           end)
    end.

Fixpoint prepare_loop (el : nat) (b : Buffer) (children : list val) : M Buffer :=
  match children with
  | [] => mret b
  | child :: rest =>
      absorb el child;;
      store ← all_nodes;
      prepare_loop el (collect_value store child b) rest
  end.

Definition prepareCommit (el : nat) : M unit :=
  e ← node el;
  match children e with
  | VUndefined =>
      raise el (Dirty F);;
      assign el (set_value VUndefined)
  | VArray items =>
      b ← prepare_loop el (mkBuffer None []) (map (default VUndefined) items);
      let values :=
        match buffer b with
        | Some t => values b ++ [VString t]
        | None => values b
        end in
      match values with
      | [] =>
          raise el (Dirty F);;
          assign el (set_value VUndefined)
      | [v] => assign el (set_value v)
      | _ => assign el (set_value (VArray (Some <$> values)))
      end
  | child =>
      absorb el child;;
      store ← all_nodes;
      match child with
      | VOpaque c =>
          if decide (tag (store !!! c) = Portal)
          then assign el (set_value VUndefined)
          else assign el (set_value (value (store !!! c)))
      | _ => assign el (set_value child)
      end
  end.

(** [get childValues()] *)
Definition childValues (e : Element) : list val :=
  match value e with
  | VUndefined => []
  | VArray items => map (default VUndefined) items
  | v => [v]
  end.

Definition run_callback (cb : callback) (v : val) : M unit :=
  match cb with
  | User f => apply env f v
  | KeepValue newChild2 =>
      e ← node newChild2;
      if negb (fulfilled e) then assign newChild2 (set_value v) else mret tt
  end.

Fixpoint run_callbacks (callbacks : list callback) (el : nat) : M unit :=
  match callbacks with
  | [] => mret tt
  | cb :: rest =>
      e ← node el;
      run_callback cb (value e);;
      run_callbacks rest el
  end.

(** [oldValue === value ? el.flags &= ~Dirty : el.flags |= Dirty] *)
Definition compare (el : nat) (oldValue v : val) : M unit :=
  if decide (oldValue = v) then lower el (Dirty F) else raise el (Dirty F).

(** The rest of [commit], from the schedules on. *)
Definition commit_tail (el : nat) : M (option nat) :=
  e ← node el;
  (match schedules e with
   | [] => mret tt
   | callbacks =>
       assign el (set_schedules []);;
       run_callbacks callbacks el
   end);;
  e ← node el;
  (if decide (ref e <> VUndefined) then apply env (ref e) (value e) else mret tt);;
  e ← node el;
  (if negb (has (flags e) (Updating F)) && has (flags e) (Dirty F)
   then match parent e with
        | Some p => rec_commit self p;; mret tt
        | None => mret tt
        end
   else mret tt);;
  lower el (Updating F);;
  mret None.

(** What the [try] block of [commit] comes to: [true] when it returned
    from [commit] (the intrinsic gave a plain value). *)
Definition commit_intrinsic (el : nat) (oldValue : val) : M bool :=
  e ← node el;
  it ←
    match iterator e with
    | Some it => mret (Some it)
    | None =>
        v ← intrinsic env (tag e) el
              (VObject (set (entries (props e)) "children"
                          (VArray (Some <$> childValues e))));
        match v with
        | VIterator it => assign el (set_iterator (Some it));; mret (Some it)
        | _ =>
            compare el oldValue v;;
            assign el (set_value v);;
            mret None
        end
    end;
  match it with
  | None => mret true
  | Some it =>
      iteration ← next env it VUndefined;
      compare el oldValue (member iteration "value");;
      assign el (set_value (member iteration "value"));;
      (if truthy (member iteration "done") then raise el (Finished F) else mret tt);;
      mret false
  end.

Definition commit (el : nat) : M (option nat) :=
  e ← node el;
  let oldValue := value e in
  prepareCommit el;;
  if is_function (tag e) then commit_tail el
  else if decide (tag e <> Fragment) then
    r ← try_catch (returned ← commit_intrinsic el oldValue; mret (inl returned))
          (fun err =>
             match parent e with
             | None => throw err
             | Some p => caught ← rec_handle self p err; mret (inr caught)
             end);
    match r with
    | inr caught => mret caught
    | inl true => mret None
    | inl false => commit_tail el
    end
  else commit_tail el.

(** **** unmount *)

Fixpoint unmount_each (children : list val) (dirty : bool) : M unit :=
  match children with
  | [] => mret tt
  | VOpaque child :: rest => rec_unmount self child dirty;; unmount_each rest dirty
  | _ :: rest => unmount_each rest dirty
  end.

(** The list is built by comparing [el.children] with the string
    ["undefined"], as the source does. *)
Definition unmountChildren (el : nat) (dirty : bool) : M unit :=
  e ← node el;
  unmount_each
    (match children e with
     | VString "undefined" => []
     | VArray items => map (default VUndefined) items
     | only => [only]
     end) dirty.

Fixpoint run_cleanups (callbacks : list val) (el : nat) : M unit :=
  match callbacks with
  | [] => mret tt
  | cb :: rest =>
      e ← node el;
      apply env cb (value e);;
      run_cleanups rest el
  end.

(** [iterator.return()] inside its [try]. *)
Definition try_return (it : nat) (handler : val -> M (option nat))
  : M (val + option nat) :=
  try_catch (iteration ← return_ env it; mret (inl iteration))
            (fun err => r ← handler err; mret (inr r)).

Definition unmount (el : nat) (dirty : bool) : M (option nat) :=
  e ← node el;
  (match cleanups e with
   | Some callbacks =>
       run_cleanups callbacks el;;
       assign el (set_cleanups None)
   | None => mret tt
   end);;
  e ← node el;
  if has (flags e) (Unmounted F) then mret None
  else
    raise el (Unmounted F);;
    e ← node el;
    r ←
      (if negb (has (flags e) (Finished F)) then
         raise el (Finished F);;
         (if ctx e then release_props el else mret tt);;
         if decide (tag e = Fragment) then mret (inl dirty)
         else if is_function (tag e) then
           match iterator e with
           | Some it =>
               if has_return env it then
                 r ← try_return it (handle_parent el);
                 match r with
                 | inr caught => mret (inr caught)
                 | inl (VPromise iteration) =>
                     p ← then2 iteration (KUnmountChildren el dirty) (KHandleParent el);
                     mret (inr (Some p))
                 | inl _ => mret (inl dirty)
                 end
               else mret (inl dirty)
           | None => mret (inl dirty)
           end
         else
           (if dirty then raise el (Removing F) else lower el (Removing F));;
           let dirty := bool_decide (tag e = Portal) in
           match iterator e with
           | Some it =>
               if has_return env it then
                 r ← try_return it (fun err =>
                       match parent e with
                       | None => throw err
                       | Some p => rec_handle self p err
                       end);
                 match r with
                 | inr caught => mret (inr caught)
                 | inl _ => mret (inl dirty)
                 end
               else mret (inl dirty)
           | None => mret (inl dirty)
           end
       else mret (inl dirty));
    match r with
    | inr returned => mret returned
    | inl dirty =>
        lower el (Updating F);;
        unmountChildren el dirty;;
        mret None
    end.

(** **** handle *)

Definition handle (el : nat) (reason : val) : M (option nat) :=
  raise el (Handling F);;
  e ← node el;
  (if ctx e then release_props el else mret tt);;
  let throwable :=
    match iterator e with
    | Some it => is_function (tag e) && has_throw env it && negb (has (flags e) (Finished F))
    | None => false
    end in
  if throwable then
    r ← try_catch (iteration ← throw_ env (default 0 (iterator e)) reason;
                   mret (inl iteration))
          (fun err => r ← handle_parent el err; mret (inr r));
    match r with
    | inr caught => mret caught
    | inl (VPromise iteration) =>
        p ← then2 iteration (KCaught el) (KHandleParent el);
        mret (Some p)
    | inl iteration =>
        (if truthy (member iteration "done") then raise el (Finished F) else mret tt);;
        rec_updateChildren self el (member iteration "value")
    end
  else
    match parent e with
    | None => throw reason
    | Some p => rec_handle self p reason
    end.

(** **** What the closures do when called *)

Definition iteration_done : val :=
  VObject [("value", VUndefined); ("done", VBoolean true)].

Definition call (k : closure) (x : val) : M val :=
  match k with
  | KConst result1 => mret result1
  | KReplaced oldChild1 newChild2 =>
      assign newChild2 (set_fulfilled true);;
      rec_unmount self oldChild1 true;;
      mret VUndefined
  | KCommit el => r ← rec_commit self el; mret (maybe r)
  | KAdvance el => rec_advance self el;; mret VUndefined
  | KStepEnqueued el resolve =>
      '(pending, result) ← rec_step self el;
      promises_ (Promises.resolve resolve (maybe result));;
      mret (maybe pending)
  | KUndefined => mret VUndefined
  | KUpdateChildren el => r ← rec_updateChildren self el x; mret (maybe r)
  | KHandleParent el => r ← handle_parent el x; mret (maybe r)
  | KValue el => e ← node el; mret (value e)
  | KIterationCatch el =>
      caught ← handle_parent el x;
      match caught with
      | None => mret iteration_done
      | Some caught => q ← then1 caught KIterationDone; mret (VPromise q)
      end
  | KIteration el =>
      lower el (Iterating F);;
      (if truthy (member x "done") then raise el (Finished F) else mret tt);;
      result ← rec_updateChildren self el (member x "value");
      (match result with
       | Some result =>
           p ← catch1 result KUndefined;
           assign el (set_oldResult (Some p))
       | None => mret tt
       end);;
      mret (maybe result)
  | KRethrow el =>
      e ← node el;
      if negb (has (flags e) (Updating F)) then throw x else mret VUndefined
  | KUnmountChildren el dirty =>
      lower el (Updating F);;
      unmountChildren el dirty;;
      mret VUndefined
  | KCaught el =>
      (if truthy (member x "done") then raise el (Finished F) else mret tt);;
      r ← rec_updateChildren self el (member x "value");
      mret (maybe r)
  | KIterationDone => mret iteration_done
  | KRendered newChild =>
      e ← node newChild;
      (if nullish (member (props e) "root")
       then rec_unmount self newChild true;; mret tt else mret tt);;
      e ← node newChild;
      mret (value e)
  end.

(** **** Renderer.render *)

(** [root !== null && typeof root === "object"] *)
Definition is_root (root : val) : bool :=
  match root with VOpaque _ => true | _ => false end.

Definition render (children root : val) : M val :=
  let clearing := nullish children in
  store ← all_nodes;
  newChild ←
    match children with
    | VOpaque c =>
        if decide (tag (store !!! c) = Portal) then mret c
        else
          v ← createElement [Portal; VObject [("root", root)]; children];
          mret (match v with VOpaque c => c | _ => 0 end)
    | _ =>
        v ← createElement [Portal; VObject [("root", root)]; children];
        mret (match v with VOpaque c => c | _ => 0 end)
    end;
  oldChild ← (if negb (nullish root) then cache_get root else mret None);
  newChild ←
    match oldChild with
    | None =>
        mount newChild None;;
        (if negb clearing && is_root root then cache_set root newChild
         else mret tt);;
        mret newChild
    | Some oldChild =>
        (if decide (oldChild <> newChild) then
           ne ← node newChild;
           assign oldChild (fun o => set_ref (ref ne) (set_props (props ne) o))
         else mret tt);;
        (if clearing && is_root root then cache_delete root else mret tt);;
        mret oldChild
    end;
  result ← rec_update self newChild;
  match result with
  | Some result =>
      p ← then1 result (KRendered newChild);
      mret (VPromise p)
  | None =>
      e ← node newChild;
      (if nullish (member (props e) "root")
       then rec_unmount self newChild true;; mret tt else mret tt);;
      e ← node newChild;
      mret (value e)
  end.

End Bodies.

(** **** Tying the knot *)
Definition out_of_fuel : val := VString "out of fuel".

Definition exhausted : Methods :=
  {| rec_update := fun _ => throw out_of_fuel;
     rec_updateChildren := fun _ _ => throw out_of_fuel;
     rec_commit := fun _ => throw out_of_fuel;
     rec_unmount := fun _ _ => throw out_of_fuel;
     rec_handle := fun _ _ => throw out_of_fuel;
     rec_run := fun _ => throw out_of_fuel;
     rec_step := fun _ => throw out_of_fuel;
     rec_advance := fun _ => throw out_of_fuel |}.

Definition unfold (self : Methods) : Methods :=
  {| rec_update := update self;
     rec_updateChildren := updateChildren self;
     rec_commit := commit self;
     rec_unmount := unmount self;
     rec_handle := handle self;
     rec_run := run self;
     rec_step := step self;
     rec_advance := advance self |}.

Fixpoint methods (fuel : nat) : Methods :=
  match fuel with
  | 0 => exhausted
  | S fuel' => unfold (methods fuel')
  end.

(** The microtask queue, with the closures called at depth [fuel]. *)
Definition settle_jobs (fuel jobs : nat) (s : State) : State :=
  Promises.drain machine with_machine (call (methods fuel)) jobs s.

End Core.
Arguments Methods : clear implicits.

End Elements.

(** * Properties *)

Section Construction.
Import JS.

(** The reserved names of a props object. *)
Definition reserved (k : string) : bool :=
  String.eqb k "crank-key" || String.eqb k "crank-ref".

(** A props argument: [null], [undefined] or an object literal. *)
Definition is_props (p : val) : bool :=
  match p with VUndefined | VNull | VObject _ => true | _ => false end.

(** What the construction API promises about the element built from
    [props] and the child arguments [rest]. *)
Definition stripped (p : val) (rest : list val) (props1 : object) (key ref : val)
  : Prop :=
  (forall k, k <> "children" ->
     lookup props1 k = if reserved k then None else lookup (entries p) k)
  /\ lookup props1 "children" =
       match rest with
       | [] => lookup (entries p) "children"
       | [child] => Some child
       | _ => Some (VArray (Some <$> rest))
       end
  /\ key = (if nullish (member p "crank-key") then VUndefined
            else member p "crank-key")
  /\ ref = (if is_function (member p "crank-ref") then member p "crank-ref"
            else VUndefined).

Lemma lookup_member p k :
  k ∈ keys p -> lookup (entries p) k = Some (member p k).
Proof.
  unfold member, get, keys. intros Hin.
  destruct (lookup (entries p) k) eqn:E; [reflexivity|].
  apply lookup_None_not_elem in E. contradiction.
Qed.

Lemma lookup_not_key p k : k ∉ keys p -> lookup (entries p) k = None.
Proof. intros H. now apply lookup_None_not_elem. Qed.

Lemma reserved_false k :
  reserved k = false ->
  negb (k =? "crank-key")%string && negb (k =? "crank-ref")%string = true.
Proof. unfold reserved. destruct (k =? "crank-key")%string, (k =? "crank-ref")%string; easy. Qed.

Lemma reserved_true k :
  reserved k = true ->
  negb (k =? "crank-key")%string && negb (k =? "crank-ref")%string = false.
Proof. unfold reserved. destruct (k =? "crank-key")%string, (k =? "crank-ref")%string; easy. Qed.

Lemma copy_props_reserved p names acc k :
  reserved k = true -> lookup (Nodes.copy_props p names acc) k = lookup acc k.
Proof.
  intros R. revert acc. induction names as [|name names IH]; intros acc; simpl; [reflexivity|].
  rewrite IH. destruct (negb (name =? "crank-key")%string && negb (name =? "crank-ref")%string) eqn:E;
    [|reflexivity].
  apply lookup_set_ne. intros ->. rewrite (reserved_true _ R) in E. discriminate.
Qed.

Lemma copy_props_absent p names acc k :
  k ∉ names -> lookup (Nodes.copy_props p names acc) k = lookup acc k.
Proof.
  revert acc. induction names as [|name names IH]; intros acc Hnin; simpl; [reflexivity|].
  apply not_elem_of_cons in Hnin as [Hne Hnin]. rewrite IH by assumption.
  destruct (negb (name =? "crank-key")%string && negb (name =? "crank-ref")%string);
    [|reflexivity].
  apply lookup_set_ne. congruence.
Qed.

Lemma copy_props_present p names acc k :
  k ∈ names -> reserved k = false ->
  lookup (Nodes.copy_props p names acc) k = Some (member p k).
Proof.
  intros Hin R. revert acc. induction names as [|name names IH]; intros acc; simpl.
  - now apply elem_of_nil in Hin.
  - destruct (decide (k ∈ names)) as [Hin' | Hnin].
    + now apply IH.
    + apply elem_of_cons in Hin as [-> | Hin]; [|contradiction].
      rewrite copy_props_absent by assumption.
      rewrite (reserved_false _ R). apply lookup_set_eq.
Qed.

(** The loop that gathers the child arguments fills the array from its
    last index down. *)
Lemma array_set_holes j v tl :
  array_set (replicate (S j) None ++ tl) j v = replicate j None ++ Some v :: tl.
Proof.
  induction j as [|j IH]; simpl; [reflexivity|].
  f_equal. exact IH.
Qed.

Lemma array_set_nil j v : array_set [] j v = replicate j None ++ [Some v].
Proof. induction j as [|j IH]; simpl; [reflexivity | now rewrite IH]. Qed.

Lemma lookup_nth (l : list val) i :
  (i < length l)%nat -> l !! i = Some (nth i l VUndefined).
Proof.
  intros H. destruct (lookup_lt_is_Some_2 l i H) as [x Hx].
  now rewrite nth_lookup, Hx.
Qed.

Lemma collect_from tag p rest j :
  (j < length rest)%nat ->
  Nodes.collect (tag :: p :: rest) (2 + j) (replicate j None ++ (Some <$> drop j rest))
  = Some <$> rest.
Proof.
  induction j as [|j IH]; intros Hj.
  - simpl. now rewrite drop_0.
  - change (2 + S j)%nat with (S (2 + j)). cbn [Nodes.collect].
    replace (2 <? S (2 + j))%nat with true by (symmetry; apply Nat.ltb_lt; lia).
    replace (2 + j - 2)%nat with j by lia.
    rewrite array_set_holes.
    unfold arg. change (nth (2 + j) (tag :: p :: rest) VUndefined) with (nth j rest VUndefined).
    etransitivity; [|apply IH; lia]. do 2 f_equal.
    rewrite (drop_S rest (nth j rest VUndefined) j); [reflexivity|].
    apply lookup_nth. lia.
Qed.

Lemma collect_all tag p rest :
  Nodes.collect (tag :: p :: rest) (2 + length rest) [] = Some <$> rest.
Proof.
  destruct (length rest) as [|n] eqn:E.
  - apply length_zero_iff_nil in E. now subst.
  - change (2 + S n)%nat with (S (2 + n)). cbn [Nodes.collect].
    replace (2 <? S (2 + n))%nat with true by (symmetry; apply Nat.ltb_lt; lia).
    replace (2 + n - 2)%nat with n by lia.
    rewrite array_set_nil.
    unfold arg. change (nth (2 + n) (tag :: p :: rest) VUndefined) with (nth n rest VUndefined).
    etransitivity; [|apply (collect_from tag p rest n); lia]. do 2 f_equal.
    rewrite (drop_S rest (nth n rest VUndefined) n).
    + rewrite drop_ge by lia. reflexivity.
    + apply lookup_nth. lia.
Qed.

Lemma member_absent p k : k ∉ keys p -> member p k = VUndefined.
Proof. intros H. unfold member, get. now rewrite lookup_not_key. Qed.

Lemma createElement_nodes tag p rest :
  exists props1 key ref,
    Nodes.createElement (tag :: p :: rest) = VElement tag props1 key ref
    /\ stripped p rest props1 key ref.
Proof.
  unfold Nodes.createElement.
  change (arg (tag :: p :: rest) 0) with tag.
  change (arg (tag :: p :: rest) 1) with p.
  set (base := if negb (nullish p) then _ else _).
  assert (Hbase : exists props0,
             base = (props0,
                     (if nullish (member p "crank-key") then VUndefined
                      else member p "crank-key"),
                     (if is_function (member p "crank-ref") then member p "crank-ref"
                      else VUndefined))
             /\ forall k, lookup props0 k =
                          if reserved k then None else lookup (entries p) k).
  { subst base. destruct (nullish p) eqn:Hp; simpl.
    - exists []. assert (entries p = []) as Hent by (destruct p; try discriminate; reflexivity).
      unfold member. rewrite Hent. simpl. split; [reflexivity|].
      intros k. now destruct (reserved k).
    - eexists. split.
      + destruct (nullish (member p "crank-key")); reflexivity.
      + intros k. destruct (reserved k) eqn:R.
        * now rewrite copy_props_reserved.
        * destruct (decide (k ∈ keys p)) as [Hin | Hnin].
          -- rewrite copy_props_present by assumption. now rewrite lookup_member.
          -- rewrite copy_props_absent by assumption. now rewrite lookup_not_key. }
  destruct Hbase as (props0 & -> & Hprops0).
  cbv zeta.
  destruct rest as [|child [|child' rest]]; cbn [length Nat.ltb Nat.leb].
  - eexists _, _, _. split; [reflexivity|]. repeat split; try reflexivity.
    + intros k _. apply Hprops0.
    + rewrite Hprops0. reflexivity.
  - eexists _, _, _. split; [reflexivity|]. repeat split; try reflexivity.
    + intros k Hk. rewrite lookup_set_ne by congruence. apply Hprops0.
    + apply lookup_set_eq.
  - eexists _, _, _. split; [reflexivity|]. repeat split; try reflexivity.
    + intros k Hk. rewrite lookup_set_ne by congruence. apply Hprops0.
    + change (S (S (S (S (length rest))))) with (2 + length (child :: child' :: rest))%nat.
      rewrite (collect_all tag p (child :: child' :: rest)). apply lookup_set_eq.
Qed.

Lemma strip_spec p names acc key0 ref0 :
  Elements.strip p names (acc, key0, ref0) =
  (Nodes.copy_props p names acc,
   (if bool_decide ("crank-key" ∈ names) && negb (nullish (member p "crank-key"))
    then member p "crank-key" else key0),
   (if bool_decide ("crank-ref" ∈ names) && is_function (member p "crank-ref")
    then member p "crank-ref" else ref0)).
Proof.
  revert acc key0 ref0. induction names as [|name names IH]; intros acc key0 ref0.
  - reflexivity.
  - cbn [Elements.strip Nodes.copy_props].
    destruct (name =? "crank-key")%string eqn:Ek.
    + apply String.eqb_eq in Ek. subst name. rewrite IH. cbn [negb andb].
      rewrite (bool_decide_eq_true_2 ("crank-key" ∈ "crank-key" :: names)) by left.
      rewrite (bool_decide_ext ("crank-ref" ∈ "crank-key" :: names) ("crank-ref" ∈ names))
        by (rewrite elem_of_cons; intuition discriminate).
      destruct (bool_decide ("crank-key" ∈ names)), (nullish (member p "crank-key"));
        reflexivity.
    + destruct (name =? "crank-ref")%string eqn:Er.
      * apply String.eqb_eq in Er. subst name. rewrite IH. cbn [negb andb].
        rewrite (bool_decide_eq_true_2 ("crank-ref" ∈ "crank-ref" :: names)) by left.
        rewrite (bool_decide_ext ("crank-key" ∈ "crank-ref" :: names) ("crank-key" ∈ names))
          by (rewrite elem_of_cons; intuition discriminate).
        destruct (bool_decide ("crank-ref" ∈ names)), (is_function (member p "crank-ref"));
          reflexivity.
      * rewrite IH. cbn [negb andb].
        apply String.eqb_neq in Ek, Er.
        rewrite (bool_decide_ext ("crank-key" ∈ name :: names) ("crank-key" ∈ names))
          by (rewrite elem_of_cons; intuition congruence).
        rewrite (bool_decide_ext ("crank-ref" ∈ name :: names) ("crank-ref" ∈ names))
          by (rewrite elem_of_cons; intuition congruence).
        reflexivity.
Qed.

Lemma createElement_elements {W} (F : Elements.Flags) tag p rest
    (s : Runtime.State Elements.Element Elements.closure W) :
  exists props1 key ref,
    Elements.createElement F (tag :: p :: rest) s =
      (Promises.Normal (VOpaque (Runtime.fresh s)),
       Runtime.mkState
         (<[Runtime.fresh s :=
              Elements.new_Element (Elements.Initial F) tag (VObject props1) key ref]>
            (Runtime.nodes s))
         (S (Runtime.fresh s)) (Runtime.machine s) (Runtime.cache s) (Runtime.world s))
    /\ stripped p rest props1 key ref.
Proof.
  unfold Elements.createElement.
  change (arg (tag :: p :: rest) 0) with tag.
  change (arg (tag :: p :: rest) 1) with p.
  set (base := if negb (nullish p) then _ else _).
  assert (Hbase : exists props0,
             base = (props0,
                     (if nullish (member p "crank-key") then VUndefined
                      else member p "crank-key"),
                     (if is_function (member p "crank-ref") then member p "crank-ref"
                      else VUndefined))
             /\ forall k, lookup props0 k =
                          if reserved k then None else lookup (entries p) k).
  { subst base. destruct (nullish p) eqn:Hp; simpl.
    - exists []. assert (entries p = []) as Hent by (destruct p; try discriminate; reflexivity).
      unfold member. rewrite Hent. simpl. split; [reflexivity|].
      intros k. now destruct (reserved k).
    - rewrite strip_spec. eexists. split.
      + f_equal; [f_equal|].
        * destruct (decide ("crank-key" ∈ keys p)) as [Hin | Hnin].
          -- rewrite bool_decide_eq_true_2 by assumption.
             now destruct (nullish (member p "crank-key")).
          -- rewrite bool_decide_eq_false_2 by assumption.
             rewrite (member_absent _ _ Hnin). reflexivity.
        * destruct (decide ("crank-ref" ∈ keys p)) as [Hin | Hnin].
          -- rewrite bool_decide_eq_true_2 by assumption. reflexivity.
          -- rewrite bool_decide_eq_false_2 by assumption.
             rewrite (member_absent _ _ Hnin). reflexivity.
      + intros k. destruct (reserved k) eqn:R.
        * now rewrite copy_props_reserved.
        * destruct (decide (k ∈ keys p)) as [Hin | Hnin].
          -- rewrite copy_props_present by assumption. now rewrite lookup_member.
          -- rewrite copy_props_absent by assumption. now rewrite lookup_not_key. }
  destruct Hbase as (props0 & -> & Hprops0).
  cbv zeta.
  destruct rest as [|child [|child' rest]]; cbn [length Nat.ltb Nat.leb].
  - eexists _, _, _. split; [reflexivity|]. repeat split; try reflexivity.
    + intros k _. apply Hprops0.
    + rewrite Hprops0. reflexivity.
  - eexists _, _, _. split; [reflexivity|]. repeat split; try reflexivity.
    + intros k Hk. rewrite lookup_set_ne by congruence. apply Hprops0.
    + apply lookup_set_eq.
  - eexists _, _, _. split; [reflexivity|]. repeat split; try reflexivity.
    + intros k Hk. rewrite lookup_set_ne by congruence. apply Hprops0.
    + change (S (S (S (S (length rest))))) with (2 + length (child :: child' :: rest))%nat.
      change Elements.collect with Nodes.collect.
      rewrite (collect_all tag p (child :: child' :: rest)). apply lookup_set_eq.
Qed.

End Construction.

(** C8. For every tag, props argument and child arguments, the element
    [createElement] returns carries the enumerable entries of the props
    except "crank-key" and "crank-ref", which go to its [key] and [ref]
    fields; with two or more child arguments [props.children] is the
    array of them in order, with exactly one it is that argument, with
    none it is left as the props had it.  Both revisions. *)
Theorem createElement_strips_and_collects
    (tag p : JS.val) (rest : list JS.val) (Hp : is_props p = true) :
  (exists props1 key ref,
      Nodes.createElement (tag :: p :: rest) = JS.VElement tag props1 key ref
      /\ stripped p rest props1 key ref)
  /\ (forall (W : Type) (F : Elements.Flags)
             (s : Runtime.State Elements.Element Elements.closure W),
        exists props1 key ref,
          Elements.createElement F (tag :: p :: rest) s =
            (Promises.Normal (JS.VOpaque (Runtime.fresh s)),
             Runtime.mkState
               (<[Runtime.fresh s :=
                    Elements.new_Element (Elements.Initial F) tag (JS.VObject props1)
                      key ref]>
                  (Runtime.nodes s))
               (S (Runtime.fresh s)) (Runtime.machine s) (Runtime.cache s)
               (Runtime.world s))
          /\ stripped p rest props1 key ref).
Proof.
  split.
  - apply createElement_nodes.
  - intros W F s. apply createElement_elements.
Qed.

Lemma createElement_strips_and_collects_witness :
  is_props (JS.VObject [("crank-key", JS.VNumber 7); ("id", JS.VString "a")]) = true
  /\ exists props1 key ref,
      Nodes.createElement
        [JS.VString "div";
         JS.VObject [("crank-key", JS.VNumber 7); ("id", JS.VString "a")];
         JS.VString "x"; JS.VString "y"]
      = JS.VElement (JS.VString "div") props1 key ref
      /\ stripped (JS.VObject [("crank-key", JS.VNumber 7); ("id", JS.VString "a")])
           [JS.VString "x"; JS.VString "y"] props1 key ref.
Proof.
  split; [reflexivity|].
  exact (proj1 (createElement_strips_and_collects (JS.VString "div")
                  (JS.VObject [("crank-key", JS.VNumber 7); ("id", JS.VString "a")])
                  [JS.VString "x"; JS.VString "y"] eq_refl)).
Defined.

Example createElement_example :
  Nodes.createElement
    [JS.VString "div";
     JS.VObject [("crank-key", JS.VNumber 7); ("id", JS.VString "a");
                 ("crank-ref", JS.VFunction 3)];
     JS.VString "x"; JS.VString "y"]
  = JS.VElement (JS.VString "div")
      [("id", JS.VString "a");
       ("children", JS.VArray [Some (JS.VString "x"); Some (JS.VString "y")])]
      (JS.VNumber 7) (JS.VFunction 3).
Proof. reflexivity. Qed.

(** ** Guards on the lifecycle flags *)

Section Guards.
Import JS Runtime.
Context {W : Type}.

Lemma node_lookup {N K : Type} `{!Inhabited N} (s : State N K W) this (n : N) :
  nodes s !! this = Some n -> node this s = (Promises.Normal n, s).
Proof. intros H. unfold node. now rewrite (lookup_total_correct _ _ _ H). Qed.

(** A word that has the bits of one of two masks has bits of their union. *)
Lemma has_union word a b :
  Elements.has word a || Elements.has word b = true ->
  Elements.has word (Z.lor a b) = true.
Proof.
  unfold Elements.has. rewrite Z.land_lor_distr_r.
  destruct (Z.land word a =? 0)%Z eqn:Ea, (Z.land word b =? 0)%Z eqn:Eb; simpl;
    try discriminate; intros _;
    apply negb_true_iff, Z.eqb_neq; rewrite Z.lor_eq_0_iff;
    apply Z.eqb_neq in Ea || apply Z.eqb_neq in Eb; tauto.
Qed.

Lemma nodes_refresh_guard (self : Nodes.Methods W) s this n :
  nodes s !! this = Some n ->
  Nodes.stepping n || Nodes.unmounted n = true ->
  Nodes.refresh self this s = (Promises.Normal None, s).
Proof.
  intros Hn Hf. unfold Nodes.refresh, mbind, M_bind.
  rewrite (node_lookup _ _ _ Hn), Hf. reflexivity.
Qed.

Lemma elements_refresh_guard (F : Elements.Flags) (self : Elements.Methods W) s el e :
  nodes s !! el = Some e ->
  Elements.has (Elements.flags e) (Elements.Stepping F)
  || Elements.has (Elements.flags e) (Elements.Unmounted F) = true ->
  Elements.refresh F self el s = (Promises.Normal None, s).
Proof.
  intros He Hf. unfold Elements.refresh, mbind, M_bind.
  rewrite (node_lookup _ _ _ He), (has_union _ _ _ Hf). reflexivity.
Qed.



End Guards.

(** C9. [refresh] on a component whose unmounted flag is set (likewise
    while its stepping flag is set) returns [undefined] and leaves the
    whole state as it was, whatever [run] and the user callable would
    have done: neither is called.  Both revisions. *)
Theorem refresh_unmounted_is_silent :
  (forall (W : Type) (self : Nodes.Methods W)
          (s : Runtime.State Nodes.Node Nodes.closure W) this n,
      Runtime.nodes s !! this = Some n ->
      Nodes.stepping n || Nodes.unmounted n = true ->
      Nodes.refresh self this s = (Promises.Normal None, s))
  /\ (forall (W : Type) (F : Elements.Flags) (self : Elements.Methods W)
             (s : Runtime.State Elements.Element Elements.closure W) el e,
        Runtime.nodes s !! el = Some e ->
        Elements.has (Elements.flags e) (Elements.Stepping F)
        || Elements.has (Elements.flags e) (Elements.Unmounted F) = true ->
        Elements.refresh F self el s = (Promises.Normal None, s)).
Proof.
  split.
  - intros W self s this n. apply nodes_refresh_guard.
  - intros W F self s el e. apply elements_refresh_guard.
Qed.

(** A store holding one unmounted component, for the examples. *)
Definition unmounted_component : Nodes.Node :=
  Nodes.set_unmounted true
    (Nodes.blank Nodes.ComponentNode (JS.VFunction 0) JS.VUndefined None).

Definition one_node (n : Nodes.Node) : Runtime.State Nodes.Node Nodes.closure Runtime.Log :=
  Runtime.with_nodes (fun _ => {[ 0%nat := n ]}) Runtime.initial.

(** Flag constants for the examples: one bit each. *)
Definition bits : Elements.Flags :=
  Elements.mkFlags 0 1 2 4 8 16 32 64 128 256 512 1024 2048 4096.

Definition unmounted_element : Elements.Element :=
  Elements.set_flags (Z.lor (Elements.Mounted bits) (Elements.Unmounted bits))
    (Elements.new_Element 0 (JS.VFunction 0) JS.VUndefined JS.VUndefined JS.VUndefined).

Definition one_element (e : Elements.Element)
  : Runtime.State Elements.Element Elements.closure Runtime.Log :=
  Runtime.with_nodes (fun _ => {[ 0%nat := e ]}) Runtime.initial.

Definition idle : Runtime.Script :=
  {| Runtime.on_call := fun _ _ => Runtime.Returns JS.VUndefined;
     Runtime.on_next := fun _ _ => Runtime.Returns JS.VUndefined;
     Runtime.on_return := fun _ => None;
     Runtime.on_throw := fun _ => None;
     Runtime.on_intrinsic := fun _ _ => Runtime.Returns JS.VUndefined;
     Runtime.on_text := fun s => s |}.

Lemma refresh_unmounted_is_silent_witness :
  Nodes.refresh (Nodes.methods (Runtime.scripted idle) 3) 0 (one_node unmounted_component)
  = (Promises.Normal None, one_node unmounted_component)
  /\ Elements.refresh bits (Elements.methods bits (Runtime.scripted idle) 3) 0
       (one_element unmounted_element)
     = (Promises.Normal None, one_element unmounted_element).
Proof.
  split.
  - apply (proj1 refresh_unmounted_is_silent) with (n := unmounted_component);
      reflexivity.
  - apply (proj2 refresh_unmounted_is_silent) with (e := unmounted_element);
      reflexivity.
Defined.



(** ** Committed values *)

Section Committed.
Import JS Runtime.

(** A backend whose values are strings, as an HTML renderer's are:
    every intrinsic, Portal's too, returns the string ["P"]. *)
Definition strings : Script :=
  {| on_call := fun _ _ => Returns VUndefined;
     on_next := fun _ _ => Returns VUndefined;
     on_return := fun _ => None;
     on_throw := fun _ => None;
     on_intrinsic := fun _ _ => Returns (VString "P");
     on_text := fun s => s |}.

(** A fragment (0) over the text "a" (1) and a committed Portal whose
    value is the string "p" (2). *)
Definition text_and_portal : State Nodes.Node Nodes.closure Log :=
  with_nodes (fun _ =>
    {[ 0%nat := Nodes.set_children [1; 2]%nat
                  (Nodes.blank Nodes.FragmentNode Nodes.Fragment VUndefined None);
       1%nat := Nodes.set_value (VString "a")
                  (Nodes.blank Nodes.LeafNode VUndefined VUndefined None);
       2%nat := Nodes.set_value (VString "p")
                  (Nodes.blank Nodes.HostNode Nodes.Portal VUndefined (Some 0%nat)) ]})
    initial.

(** The same children for the element based revision: the element 0
    whose children are the string "a" and the Portal element 2. *)
Definition text_and_portal_element : State Elements.Element Elements.closure Log :=
  with_nodes (fun _ =>
    {[ 0%nat := Elements.set_children (VArray [Some (VString "a"); Some (VOpaque 2)])
                  (Elements.new_Element 0 Elements.Fragment VUndefined VUndefined VUndefined);
       2%nat := Elements.set_value (VString "p")
                  (Elements.new_Element 0 Elements.Portal VUndefined VUndefined VUndefined) ]})
    initial.

End Committed.

(** C5, at a failing input.  In [index.ts] the test for a Portal comes
    after the test for a string value: a Portal child whose committed
    value is a string is merged into the parent's text run ("a" and the
    Portal's "p" commit as "ap"), and a render through a backend of
    strings hands the root the child value "aP".  The element based
    [prepareCommit] tests for the Portal first and commits "a". *)
Theorem commitChildren_merges_string_portal :
  fst (Nodes.commitChildren 0 text_and_portal)
    = Promises.Normal [JS.VString "ap"]
  /\ Runtime.events (Runtime.world (snd
       (Nodes.render (Nodes.methods (Runtime.scripted strings) 30)
          (JS.VArray [Some (JS.VString "a");
                      Some (Nodes.createElement
                              [Nodes.Portal; JS.VObject [("root", JS.VOpaque 1001)];
                               JS.VString "x"])])
          (JS.VOpaque 1000) Runtime.initial)))
     = [Runtime.Rendered Nodes.Portal
          (JS.VObject [("root", JS.VOpaque 1001);
                       ("children", JS.VArray [Some (JS.VString "x")])]);
        Runtime.Rendered Nodes.Portal
          (JS.VObject [("root", JS.VOpaque 1000);
                       ("children", JS.VArray [Some (JS.VString "aP")])]);
        Runtime.Rendered Nodes.Portal
          (JS.VObject [("root", JS.VOpaque 1000);
                       ("children", JS.VArray [Some (JS.VString "aP")])])]
  /\ Elements.value
       (Runtime.nodes (snd (Elements.prepareCommit bits 0 text_and_portal_element)) !!! 0%nat)
     = JS.VString "a".
Proof. repeat split; vm_compute; reflexivity. Qed.

(** ** Clearing a root *)

Section Clearing.
Import JS Runtime.

Definition iteration (v : val) (done : bool) : val :=
  VObject [("value", v); ("done", VBoolean done)].

(** Two generator components.  [Outer] (function 1, iterator 1)
    returns at its first step, with the element [<Inner />] as its final
    value; [Inner] (function 2, iterator 2) yields the text "hi" and
    stays suspended.  Both iterators have a [return] method. *)
Definition outer_inner (inner : val) : Script :=
  {| on_call := fun tag _ =>
       match tag with
       | VFunction 1 => Returns (VIterator 1)
       | VFunction 2 => Returns (VIterator 2)
       | _ => Returns VUndefined
       end;
     on_next := fun it _ =>
       match it with
       | 1 => Returns (iteration inner true)
       | _ => Returns (iteration (VString "hi") false)
       end;
     on_return := fun _ => Some (Returns (iteration VUndefined true));
     on_throw := fun _ => None;
     on_intrinsic := fun _ _ => Returns (VOpaque 7);
     on_text := fun s => s |}.

Definition the_root : val := VOpaque 1000.

(** [render(<Outer />, root)] then [render(null, root)], on [index.ts]. *)
Definition nodes_script : Script := outer_inner (Nodes.createElement [VFunction 2; VNull]).

Definition nodes_mounted : State Nodes.Node Nodes.closure Log :=
  snd (Nodes.render (Nodes.methods (scripted nodes_script) 30)
         (Nodes.createElement [VFunction 1; VNull]) the_root initial).

Definition nodes_cleared : State Nodes.Node Nodes.closure Log :=
  snd (Nodes.render (Nodes.methods (scripted nodes_script) 30) VNull the_root nodes_mounted).

(** The same on the element based revision: the elements [<Outer />]
    (0) and [<Inner />] (1) are created first. *)
Definition elements_script : Script := outer_inner (VOpaque 1).

Definition elements_created : State Elements.Element Elements.closure Log :=
  snd (Elements.createElement bits [VFunction 2; VNull]
         (snd (Elements.createElement bits [VFunction 1; VNull] initial))).

Definition elements_mounted : State Elements.Element Elements.closure Log :=
  snd (Elements.render bits (Elements.methods bits (scripted elements_script) 30)
         (VOpaque 0) the_root elements_created).

Definition elements_cleared : State Elements.Element Elements.closure Log :=
  snd (Elements.render bits (Elements.methods bits (scripted elements_script) 30)
         VNull the_root elements_mounted).

(** What the environment was asked between the two renders. *)
Definition since {N K} (before after : State N K Log) : list event :=
  drop (length (events (world before))) (events (world after)).

End Clearing.

(** C6, at a failing input.  After [render(<Outer />, root)] the root is
    cached, [Outer] is finished and [Inner] is live (mounted, its
    iterator suspended).  [render(null, root)] on [index.ts] drops the
    cached mapping and unmounts [Outer], but [ComponentNode.unmount]
    unmounts children only inside [if (!this.finished)]: [Inner] stays
    mounted and its iterator's [return] is never called.  The element
    based [unmount] reaches the children of a finished component and
    calls [return] on [Inner]'s iterator. *)
Theorem render_null_skips_children_of_finished_component :
  Runtime.cache nodes_mounted = [(the_root, 0%nat)]
  /\ Runtime.cache nodes_cleared = []
  /\ Nodes.finished (Runtime.nodes nodes_mounted !!! 1%nat) = true
  /\ Nodes.children (Runtime.nodes nodes_mounted !!! 1%nat) = [2%nat]
  /\ Nodes.iterator (Runtime.nodes nodes_mounted !!! 2%nat) = Some 2%nat
  /\ Nodes.finished (Runtime.nodes nodes_mounted !!! 2%nat) = false
  /\ Nodes.unmounted (Runtime.nodes nodes_cleared !!! 1%nat) = true
  /\ Nodes.unmounted (Runtime.nodes nodes_cleared !!! 2%nat) = false
  /\ since nodes_mounted nodes_cleared
     = [Runtime.Rendered Nodes.Portal
          (JS.VObject [("root", the_root); ("children", JS.VArray [])]);
        Runtime.Rendered Nodes.Portal
          (JS.VObject [("root", the_root); ("children", JS.VArray [])])]
  /\ Runtime.cache elements_cleared = []
  /\ since elements_mounted elements_cleared
     = [Runtime.Returned 2;
        Runtime.Rendered Elements.Portal
          (JS.VObject [("root", the_root); ("children", JS.VArray [])])].
Proof. repeat split; vm_compute; reflexivity. Qed.

(** Unmounting twice, on the trees above: [Inner], with a cleanup
    callback registered, is unmounted and then unmounted again.  The
    first call runs the callback and the iterator's [return]; the second
    asks nothing of the environment and leaves the state as it is. *)
Example unmount_twice_example :
  let nodes_once :=
    Nodes.unmount (Nodes.methods (Runtime.scripted nodes_script) 30) 2 true
      (Runtime.with_nodes (alter (Nodes.set_cleanups (Some [JS.VFunction 9])) 2%nat)
         nodes_mounted) in
  let nodes_twice :=
    Nodes.unmount (Nodes.methods (Runtime.scripted nodes_script) 30) 2 true
      (snd nodes_once) in
  let elements_once :=
    Elements.unmount bits (Runtime.scripted elements_script)
      (Elements.methods bits (Runtime.scripted elements_script) 30) 1 true
      (Runtime.with_nodes (alter (Elements.set_cleanups (Some [JS.VFunction 9])) 1%nat)
         elements_mounted) in
  let elements_twice :=
    Elements.unmount bits (Runtime.scripted elements_script)
      (Elements.methods bits (Runtime.scripted elements_script) 30) 1 true
      (snd elements_once) in
  since nodes_mounted (snd nodes_once)
    = [Runtime.Applied (JS.VFunction 9) (JS.VString "hi"); Runtime.Returned 2]
  /\ nodes_twice = (Promises.Normal None, snd nodes_once)
  /\ since elements_mounted (snd elements_once)
     = [Runtime.Applied (JS.VFunction 9) (JS.VString "hi"); Runtime.Returned 2]
  /\ elements_twice = (Promises.Normal None, snd elements_once).
Proof. split; [|split; [|split]]; vm_compute; reflexivity. Qed.

(** Text runs on both revisions.  The children ["foo", "bar"] commit as
    the one string "foobar"; a run is cut by a child with another value
    and resumed after it, numbers joining the text.  Only the values of
    the children themselves are merged: the strings a child with an
    array value brings along are appended as they are. *)
Definition opaque_backend : Runtime.Script :=
  {| Runtime.on_call := fun _ _ => Runtime.Returns JS.VUndefined;
     Runtime.on_next := fun _ _ => Runtime.Returns JS.VUndefined;
     Runtime.on_return := fun _ => None;
     Runtime.on_throw := fun _ => None;
     Runtime.on_intrinsic := fun _ _ => Runtime.Returns (JS.VOpaque 7);
     Runtime.on_text := fun s => s |}.

Definition nodes_rendered (children : JS.val) : option Runtime.event :=
  last (Runtime.events (Runtime.world (snd
    (Nodes.render (Nodes.methods (Runtime.scripted opaque_backend) 30)
       children the_root Runtime.initial)))).

(** The children of the element based render may hold the element
    [<div />], created first as element 0. *)
Definition elements_rendered (children : JS.val) : option Runtime.event :=
  last (Runtime.events (Runtime.world (snd
    (Elements.render bits (Elements.methods bits (Runtime.scripted opaque_backend) 30)
       children the_root
       (snd (Elements.createElement bits [JS.VString "div"; JS.VNull]
               Runtime.initial)))))).

Definition root_children (values : list JS.val) : option Runtime.event :=
  Some (Runtime.Rendered Nodes.Portal
          (JS.VObject [("root", the_root); ("children", JS.VArray (Some <$> values))])).

Example text_runs_merge_example :
  nodes_rendered (JS.VArray [Some (JS.VString "foo"); Some (JS.VString "bar")])
    = root_children [JS.VString "foobar"]
  /\ elements_rendered (JS.VArray [Some (JS.VString "foo"); Some (JS.VString "bar")])
     = root_children [JS.VString "foobar"]
  /\ nodes_rendered
       (JS.VArray [Some (JS.VString "a");
                   Some (Nodes.createElement [JS.VString "div"; JS.VNull]);
                   Some (JS.VString "b"); Some (JS.VNumber 1); Some (JS.VString "c")])
     = root_children [JS.VString "a"; JS.VOpaque 7; JS.VString "b1c"]
  /\ elements_rendered
       (JS.VArray [Some (JS.VString "a"); Some (JS.VOpaque 0);
                   Some (JS.VString "b"); Some (JS.VNumber 1); Some (JS.VString "c")])
     = root_children [JS.VString "a"; JS.VOpaque 7; JS.VString "b1c"]
  /\ nodes_rendered
       (JS.VArray [Some (JS.VString "a");
                   Some (JS.VArray
                           [Some (JS.VString "x");
                            Some (Nodes.createElement [JS.VString "div"; JS.VNull])])])
     = root_children [JS.VString "a"; JS.VString "x"; JS.VOpaque 7]
  /\ elements_rendered
       (JS.VArray [Some (JS.VString "a");
                   Some (JS.VArray [Some (JS.VString "x"); Some (JS.VOpaque 0)])])
     = root_children [JS.VString "a"; JS.VString "x"; JS.VOpaque 7].
Proof. repeat split; vm_compute; reflexivity. Qed.

(** ** In-flight coalescing *)

Section Coalescing.
Import JS Runtime.
Context {W : Type}.

(** Subscribing to a pending promise adds a reaction and queues nothing. *)
Lemma then_pending {K} (m : Promises.machine K) p rs locked onF onR :
  Promises.heap m !! p = Some (Promises.Promise (Promises.Pending rs) locked) ->
  Promises.then_ p onF onR m =
    (length (Promises.heap m),
     Promises.Machine
       (<[p := Promises.Promise
                 (Promises.Pending
                    (rs ++ [Promises.Reaction onF onR (length (Promises.heap m))]))
                 locked]>
          (Promises.heap m ++ [Promises.Promise (Promises.Pending []) false]))
       (Promises.queue m)).
Proof.
  intros Hp. unfold Promises.then_, Promises.new_promise. cbn [Promises.heap Promises.queue].
  rewrite lookup_app_l by (eapply lookup_lt_Some; eassumption).
  rewrite Hp. reflexivity.
Qed.

Lemma pending_lookup {K} (m : Promises.machine K) p :
  Promises.is_pending m p = true -> p < length (Promises.heap m) ->
  exists rs locked,
    Promises.heap m !! p = Some (Promises.Promise (Promises.Pending rs) locked).
Proof.
  unfold Promises.is_pending, Promises.status_of. intros H Hlt.
  destruct (Promises.heap m !! p) as [[st locked]|] eqn:E.
  - destruct st; [eauto | discriminate].
  - apply lookup_ge_None in E. lia.
Qed.

(** Running statements: the laws the proofs step with. *)
Lemma run_node {N K A} `{!Inhabited N} (k : N -> M N K W A) s this (n : N) :
  nodes s !! this = Some n -> (node this ≫= k) s = k n s.
Proof. intros H. unfold mbind, M_bind. now rewrite (node_lookup _ _ _ H). Qed.

Lemma run_assign {N K A} `{!Inhabited N} (k : unit -> M N K W A) s this (f : N -> N) :
  (assign this f ≫= k) s = k tt (with_nodes (alter f this) s).
Proof. reflexivity. Qed.

Lemma run_ret {N K A B} `{!Inhabited N} (k : A -> M N K W B) s (a : A) :
  (mret a ≫= k) s = k a s.
Proof. reflexivity. Qed.

Lemma run_promises {N K A B} `{!Inhabited N} (k : A -> M N K W B) (s : State N K W)
    (f : Promises.machine K -> A * Promises.machine K) :
  (promises f ≫= k) s = k (f (machine s)).1 (with_machine (f (machine s)).2 s).
Proof. unfold mbind, M_bind, promises. now destruct (f (machine s)). Qed.

Lemma run_assoc {N K A B C} `{!Inhabited N} (m : M N K W A) (f : A -> M N K W B)
    (g : B -> M N K W C) s :
  ((m ≫= f) ≫= g) s = (m ≫= (fun x => f x ≫= g)) s.
Proof. unfold mbind, M_bind. destruct (m s) as [[a|e] s']; reflexivity. Qed.

Lemma lookup_after_then {K} (heap0 : list (Promises.promise K)) p x y :
  p < length heap0 ->
  (<[p := x]> (heap0 ++ [y])) !! length heap0 = Some y.
Proof.
  intros Hlt. rewrite list_lookup_insert_ne by lia.
  now apply list_lookup_middle.
Qed.

Lemma lookup_then_target {K} (heap0 : list (Promises.promise K)) p x y :
  p < length heap0 ->
  (<[p := x]> (heap0 ++ [y])) !! p = Some x.
Proof.
  intros Hlt. apply list_lookup_insert_eq. rewrite length_app. lia.
Qed.

(** A synchronous or asynchronous function component, or a synchronous
    generator, that already has an enqueued run hands out the enqueued
    result and changes nothing. *)
Lemma nodes_run_enqueued (self : Nodes.Methods W)
    (s : State Nodes.Node Nodes.closure W) this n p q :
  nodes s !! this = Some n ->
  Nodes.inflightPending n = Some p ->
  Nodes.componentType n <> Some Nodes.AsyncGen ->
  Nodes.enqueuedPending n = Some q ->
  Nodes.ComponentNode_run self this s = (Promises.Normal (Nodes.enqueuedResult n), s).
Proof.
  intros Hn Hin Hty Henq. unfold Nodes.ComponentNode_run.
  rewrite (run_node _ _ _ _ Hn), Hin.
  destruct (decide (Nodes.componentType n = Some Nodes.AsyncGen)); [contradiction|].
  rewrite Henq. rewrite run_ret. rewrite (run_node _ _ _ _ Hn). reflexivity.
Qed.

(** An asynchronous generator with a run in flight hands out the in-flight
    result and changes nothing. *)
Lemma nodes_run_async_generator (self : Nodes.Methods W)
    (s : State Nodes.Node Nodes.closure W) this n p :
  nodes s !! this = Some n ->
  Nodes.inflightPending n = Some p ->
  Nodes.componentType n = Some Nodes.AsyncGen ->
  Nodes.ComponentNode_run self this s = (Promises.Normal (Nodes.inflightResult n), s).
Proof.
  intros Hn Hin Hty. unfold Nodes.ComponentNode_run.
  rewrite (run_node _ _ _ _ Hn), Hin.
  destruct (decide (Nodes.componentType n = Some Nodes.AsyncGen)); [|contradiction].
  reflexivity.
Qed.

Lemma nodes_run_enqueues (self self' : Nodes.Methods W)
    (s : State Nodes.Node Nodes.closure W) this n p rs locked :
  nodes s !! this = Some n ->
  Nodes.inflightPending n = Some p ->
  Promises.heap (machine s) !! p
    = Some (Promises.Promise (Promises.Pending rs) locked) ->
  Nodes.componentType n <> Some Nodes.AsyncGen ->
  Nodes.enqueuedPending n = None ->
  let a := length (Promises.heap (machine s)) in
  exists s',
    Nodes.ComponentNode_run self this s = (Promises.Normal (Some a), s')
    /\ Nodes.ComponentNode_run self' this s' = (Promises.Normal (Some a), s')
    /\ Promises.queue (machine s') = Promises.queue (machine s)
    /\ world s' = world s
    /\ Promises.heap (machine s') !! p
       = Some (Promises.Promise
                 (Promises.Pending
                    (rs ++ [Promises.Reaction
                              (Promises.Call (Nodes.KStepEnqueued this a))
                              Promises.Thrower (S a)]))
                 locked)
    /\ nodes s' !! this
       = Some (Nodes.set_enqueuedResult (Some a)
                 (Nodes.set_enqueuedPending (Some (S (S a))) n)).
Proof.
  intros Hn Hin Hp Hty Henq a.
  assert (Hlt : p < length (Promises.heap (machine s)))
    by (eapply lookup_lt_Some; eassumption).
  eexists. split; [|split].
  - unfold Nodes.ComponentNode_run.
    rewrite (run_node _ _ _ _ Hn), Hin.
    destruct (decide (Nodes.componentType n = Some Nodes.AsyncGen)); [contradiction|].
    rewrite Henq.
    unfold then1, finally.
    rewrite !run_assoc.
    rewrite run_promises. cbn [Promises.new_promise fst snd].
    rewrite !run_assoc.
    rewrite run_promises. cbn [machine with_machine].
    erewrite then_pending
      by (cbn [Promises.heap]; rewrite lookup_app_l by assumption; eassumption).
    cbn [fst snd Promises.heap Promises.queue].
    rewrite !run_assoc.
    rewrite run_promises. cbn [machine with_machine].
    erewrite then_pending
      by (cbn [Promises.heap]; rewrite length_app; cbn [length];
          replace (length (Promises.heap (machine s)) + 1) with
            (length (Promises.heap (machine s) ++
                     [Promises.Promise (K:=Nodes.closure) (Promises.Pending []) false]))
            by (rewrite length_app; simpl; lia);
          apply lookup_after_then; rewrite length_app; simpl; lia).
    cbn [fst snd Promises.heap Promises.queue].
    rewrite ?run_assoc, run_assign, ?run_assoc, run_assign.
    erewrite run_node
      by (cbn [nodes with_nodes with_machine]; rewrite !lookup_alter_eq, Hn; reflexivity).
    cbn [mret M_ret]. cbn.
    rewrite !length_insert, !length_app. cbn [length].
    replace (length (Promises.heap (machine s)) + 1) with (S a) by (subst a; lia).
    replace (S a + 1) with (S (S a)) by lia.
    reflexivity.
  - match goal with
    | |- Nodes.ComponentNode_run _ _ ?s' = _ =>
        assert (Hn' : nodes s' !! this
                      = Some (Nodes.set_enqueuedResult (Some a)
                                (Nodes.set_enqueuedPending (Some (S (S a))) n)))
          by (cbn [nodes with_nodes with_machine];
              rewrite !lookup_alter_eq, Hn; reflexivity)
    end.
    rewrite (nodes_run_enqueued self' _ this _ p (S (S a)) Hn' Hin Hty eq_refl).
    reflexivity.
  - cbn [machine with_machine with_nodes world Promises.queue Promises.heap nodes].
    repeat split.
    + rewrite list_lookup_insert_ne by (subst a; lia).
      rewrite lookup_app_l by (rewrite length_insert, !length_app; simpl; lia).
      apply lookup_then_target. rewrite length_app; simpl; lia.
    + rewrite !lookup_alter_eq, Hn. reflexivity.
Qed.

(** The same for the element based [run]: a component that is not an
    asynchronous generator and already has an enqueued run hands out the enqueued
    result and changes nothing. *)
Lemma elements_run_enqueued (F : Elements.Flags) (self : Elements.Methods W)
    (s : State Elements.Element Elements.closure W) this n p q :
  nodes s !! this = Some n ->
  Elements._inflightPending n = Some p ->
  Elements.has (Elements.flags n) (Elements.AsyncGen F) = false ->
  Elements._enqueuedPending n = Some q ->
  Elements.run F self this s = (Promises.Normal (Elements._enqueuedResult n), s).
Proof.
  intros Hn Hin Hty Henq. unfold Elements.run.
  rewrite (run_node _ _ _ _ Hn), Hin.
  rewrite Hty.
  rewrite Henq. rewrite run_ret. rewrite (run_node _ _ _ _ Hn). reflexivity.
Qed.

(** An asynchronous generator with a run in flight hands out the in-flight
    result and changes nothing. *)
Lemma elements_run_async_generator (F : Elements.Flags) (self : Elements.Methods W)
    (s : State Elements.Element Elements.closure W) this n p :
  nodes s !! this = Some n ->
  Elements._inflightPending n = Some p ->
  Elements.has (Elements.flags n) (Elements.AsyncGen F) = true ->
  Elements.run F self this s = (Promises.Normal (Elements._inflightResult n), s).
Proof.
  intros Hn Hin Hty. unfold Elements.run.
  rewrite (run_node _ _ _ _ Hn), Hin.
  rewrite Hty.
  reflexivity.
Qed.

Lemma elements_run_enqueues (F : Elements.Flags) (self self' : Elements.Methods W)
    (s : State Elements.Element Elements.closure W) this n p rs locked :
  nodes s !! this = Some n ->
  Elements._inflightPending n = Some p ->
  Promises.heap (machine s) !! p
    = Some (Promises.Promise (Promises.Pending rs) locked) ->
  Elements.has (Elements.flags n) (Elements.AsyncGen F) = false ->
  Elements._enqueuedPending n = None ->
  let a := length (Promises.heap (machine s)) in
  exists s',
    Elements.run F self this s = (Promises.Normal (Some a), s')
    /\ Elements.run F self' this s' = (Promises.Normal (Some a), s')
    /\ Promises.queue (machine s') = Promises.queue (machine s)
    /\ world s' = world s
    /\ Promises.heap (machine s') !! p
       = Some (Promises.Promise
                 (Promises.Pending
                    (rs ++ [Promises.Reaction
                              (Promises.Call (Elements.KStepEnqueued this a))
                              Promises.Thrower (S a)]))
                 locked)
    /\ nodes s' !! this
       = Some (Elements.set_enqueuedResult (Some a)
                 (Elements.set_enqueuedPending (Some (S (S a))) n)).
Proof.
  intros Hn Hin Hp Hty Henq a.
  assert (Hlt : p < length (Promises.heap (machine s)))
    by (eapply lookup_lt_Some; eassumption).
  eexists. split; [|split].
  - unfold Elements.run.
    rewrite (run_node _ _ _ _ Hn), Hin.
    rewrite Hty.
    rewrite Henq.
    unfold then1, finally.
    rewrite !run_assoc.
    rewrite run_promises. cbn [Promises.new_promise fst snd].
    rewrite !run_assoc.
    rewrite run_promises. cbn [machine with_machine].
    erewrite then_pending
      by (cbn [Promises.heap]; rewrite lookup_app_l by assumption; eassumption).
    cbn [fst snd Promises.heap Promises.queue].
    rewrite !run_assoc.
    rewrite run_promises. cbn [machine with_machine].
    erewrite then_pending
      by (cbn [Promises.heap]; rewrite length_app; cbn [length];
          replace (length (Promises.heap (machine s)) + 1) with
            (length (Promises.heap (machine s) ++
                     [Promises.Promise (K:=Elements.closure) (Promises.Pending []) false]))
            by (rewrite length_app; simpl; lia);
          apply lookup_after_then; rewrite length_app; simpl; lia).
    cbn [fst snd Promises.heap Promises.queue].
    rewrite ?run_assoc, run_assign, ?run_assoc, run_assign.
    erewrite run_node
      by (cbn [nodes with_nodes with_machine]; rewrite !lookup_alter_eq, Hn; reflexivity).
    cbn [mret M_ret]. cbn.
    rewrite !length_insert, !length_app. cbn [length].
    replace (length (Promises.heap (machine s)) + 1) with (S a) by (subst a; lia).
    replace (S a + 1) with (S (S a)) by lia.
    reflexivity.
  - match goal with
    | |- Elements.run _ _ _ ?s' = _ =>
        assert (Hn' : nodes s' !! this
                      = Some (Elements.set_enqueuedResult (Some a)
                                (Elements.set_enqueuedPending (Some (S (S a))) n)))
          by (cbn [nodes with_nodes with_machine];
              rewrite !lookup_alter_eq, Hn; reflexivity)
    end.
    rewrite (elements_run_enqueued F self' _ this _ p (S (S a)) Hn' Hin Hty eq_refl).
    reflexivity.
  - cbn [machine with_machine with_nodes world Promises.queue Promises.heap nodes].
    repeat split.
    + rewrite list_lookup_insert_ne by (subst a; lia).
      rewrite lookup_app_l by (rewrite length_insert, !length_app; simpl; lia).
      apply lookup_then_target. rewrite length_app; simpl; lia.
    + rewrite !lookup_alter_eq, Hn. reflexivity.
Qed.

End Coalescing.

(** C2. While the promise in [inflightPending] is pending, [run] on a
    component that is not an asynchronous generator enqueues at most one
    step: the first call creates the promise of [enqueuedResult], makes
    the step a reaction to the fulfilment of the pending in-flight
    promise (nothing is put on the job queue and the environment is not
    called), and returns that promise; every later call, whatever the
    methods it is given, returns the same promise and changes nothing.
    An asynchronous generator gets its [inflightResult] back and nothing
    changes.  Both revisions. *)
Theorem run_coalesces_while_inflight :
  (forall (W : Type) (self self' : Nodes.Methods W)
          (s : Runtime.State Nodes.Node Nodes.closure W) this n p rs locked,
      Runtime.nodes s !! this = Some n ->
      Nodes.inflightPending n = Some p ->
      Promises.heap (Runtime.machine s) !! p
        = Some (Promises.Promise (Promises.Pending rs) locked) ->
      (Nodes.componentType n = Some Nodes.AsyncGen ->
         Nodes.ComponentNode_run self this s
         = (Promises.Normal (Nodes.inflightResult n), s))
      /\ (Nodes.componentType n <> Some Nodes.AsyncGen ->
          forall q, Nodes.enqueuedPending n = Some q ->
            Nodes.ComponentNode_run self this s
            = (Promises.Normal (Nodes.enqueuedResult n), s))
      /\ (Nodes.componentType n <> Some Nodes.AsyncGen ->
          Nodes.enqueuedPending n = None ->
          let a := length (Promises.heap (Runtime.machine s)) in
          exists s',
            Nodes.ComponentNode_run self this s = (Promises.Normal (Some a), s')
            /\ Nodes.ComponentNode_run self' this s' = (Promises.Normal (Some a), s')
            /\ Promises.queue (Runtime.machine s') = Promises.queue (Runtime.machine s)
            /\ Runtime.world s' = Runtime.world s
            /\ Promises.heap (Runtime.machine s') !! p
               = Some (Promises.Promise
                         (Promises.Pending
                            (rs ++ [Promises.Reaction
                                      (Promises.Call (Nodes.KStepEnqueued this a))
                                      Promises.Thrower (S a)]))
                         locked)
            /\ Runtime.nodes s' !! this
               = Some (Nodes.set_enqueuedResult (Some a)
                         (Nodes.set_enqueuedPending (Some (S (S a))) n))))
  /\ (forall (W : Type) (F : Elements.Flags) (self self' : Elements.Methods W)
             (s : Runtime.State Elements.Element Elements.closure W) el e p rs locked,
        Runtime.nodes s !! el = Some e ->
        Elements._inflightPending e = Some p ->
        Promises.heap (Runtime.machine s) !! p
          = Some (Promises.Promise (Promises.Pending rs) locked) ->
        (Elements.has (Elements.flags e) (Elements.AsyncGen F) = true ->
           Elements.run F self el s
           = (Promises.Normal (Elements._inflightResult e), s))
        /\ (Elements.has (Elements.flags e) (Elements.AsyncGen F) = false ->
            forall q, Elements._enqueuedPending e = Some q ->
              Elements.run F self el s
              = (Promises.Normal (Elements._enqueuedResult e), s))
        /\ (Elements.has (Elements.flags e) (Elements.AsyncGen F) = false ->
            Elements._enqueuedPending e = None ->
            let a := length (Promises.heap (Runtime.machine s)) in
            exists s',
              Elements.run F self el s = (Promises.Normal (Some a), s')
              /\ Elements.run F self' el s' = (Promises.Normal (Some a), s')
              /\ Promises.queue (Runtime.machine s') = Promises.queue (Runtime.machine s)
              /\ Runtime.world s' = Runtime.world s
              /\ Promises.heap (Runtime.machine s') !! p
                 = Some (Promises.Promise
                           (Promises.Pending
                              (rs ++ [Promises.Reaction
                                        (Promises.Call (Elements.KStepEnqueued el a))
                                        Promises.Thrower (S a)]))
                           locked)
              /\ Runtime.nodes s' !! el
                 = Some (Elements.set_enqueuedResult (Some a)
                           (Elements.set_enqueuedPending (Some (S (S a))) e)))).
Proof.
  split.
  - intros W self self' s this n p rs locked Hn Hin Hp. repeat split.
    + intros Hty. eapply nodes_run_async_generator; eassumption.
    + intros Hty q Hq. eapply nodes_run_enqueued; eassumption.
    + intros Hty Hq. eapply nodes_run_enqueues; eassumption.
  - intros W F self self' s el e p rs locked He Hin Hp. repeat split.
    + intros Hty. eapply elements_run_async_generator; eassumption.
    + intros Hty q Hq. eapply elements_run_enqueued; eassumption.
    + intros Hty Hq. eapply elements_run_enqueues; eassumption.
Qed.

(** An asynchronous function component whose promise stays pending
    until the test settles it. *)
Definition slow : Runtime.Script :=
  {| Runtime.on_call := fun _ _ => Runtime.Defers;
     Runtime.on_next := fun _ _ => Runtime.Returns JS.VUndefined;
     Runtime.on_return := fun _ => None;
     Runtime.on_throw := fun _ => None;
     Runtime.on_intrinsic := fun _ _ => Runtime.Returns (JS.VOpaque 7);
     Runtime.on_text := fun s => s |}.

(** [render(<Slow />, root)]: the component (node 1, element 0) has its
    first run in flight. *)
Definition nodes_waiting : Runtime.State Nodes.Node Nodes.closure Runtime.Log :=
  snd (Nodes.render (Nodes.methods (Runtime.scripted slow) 30)
         (Nodes.createElement [JS.VFunction 1; JS.VNull]) (JS.VOpaque 1000)
         Runtime.initial).

Definition elements_waiting
  : Runtime.State Elements.Element Elements.closure Runtime.Log :=
  snd (Elements.render bits (Elements.methods bits (Runtime.scripted slow) 30)
         (JS.VOpaque 0) (JS.VOpaque 1000)
         (snd (Elements.createElement bits [JS.VFunction 1; JS.VNull]
                 Runtime.initial))).

Lemma run_coalesces_while_inflight_witness :
  (exists s',
      Nodes.ComponentNode_run (Nodes.methods (Runtime.scripted slow) 30) 1 nodes_waiting
      = (Promises.Normal (Some 10%nat), s')
      /\ Nodes.ComponentNode_run Nodes.exhausted 1 s'
         = (Promises.Normal (Some 10%nat), s'))
  /\ (exists s',
         Elements.run bits (Elements.methods bits (Runtime.scripted slow) 30) 0
           elements_waiting
         = (Promises.Normal (Some 10%nat), s')
         /\ Elements.run bits Elements.exhausted 0 s'
            = (Promises.Normal (Some 10%nat), s')).
Proof.
  split.
  - edestruct (proj1 run_coalesces_while_inflight Runtime.Log
                 (Nodes.methods (Runtime.scripted slow) 30) Nodes.exhausted
                 nodes_waiting 1%nat) as (_ & _ & H);
      [vm_compute; reflexivity | vm_compute; reflexivity | vm_compute; reflexivity |].
    destruct H as (s' & H1 & H2 & _); [discriminate | reflexivity |].
    exists s'. split; assumption.
  - edestruct (proj2 run_coalesces_while_inflight Runtime.Log bits
                 (Elements.methods bits (Runtime.scripted slow) 30) Elements.exhausted
                 elements_waiting 0%nat) as (_ & _ & H);
      [vm_compute; reflexivity | vm_compute; reflexivity | vm_compute; reflexivity |].
    destruct H as (s' & H1 & H2 & _); [reflexivity | reflexivity |].
    exists s'. split; assumption.
Defined.

(** The components the environment was asked to call. *)
Definition calls (l : list Runtime.event) : list JS.val :=
  omap (fun e => match e with Runtime.Called c _ => Some c | _ => None end) l.

(** The whole course on both revisions: three calls of [run] while the
    first run is in flight return one promise and call nothing; once the
    component's promise is fulfilled and the jobs have run, the component
    has been called exactly once more. *)
Example run_coalesces_example :
  let self := Nodes.methods (Runtime.scripted slow) 30 in
  let r1 := Nodes.ComponentNode_run self 1 nodes_waiting in
  let r2 := Nodes.ComponentNode_run self 1 (snd r1) in
  let r3 := Nodes.ComponentNode_run self 1 (snd r2) in
  let settled :=
    Nodes.settle_jobs (Runtime.scripted slow) 30 100
      (Runtime.fulfil 0 (JS.VString "x") (snd r3)) in
  (fst r1, fst r2, fst r3)
    = (Promises.Normal (Some 10%nat), Promises.Normal (Some 10%nat),
       Promises.Normal (Some 10%nat))
  /\ since nodes_waiting (snd r3) = []
  /\ calls (since nodes_waiting settled) = [JS.VFunction 1]
  /\ let self := Elements.methods bits (Runtime.scripted slow) 30 in
     let r1 := Elements.run bits self 0 elements_waiting in
     let r2 := Elements.run bits self 0 (snd r1) in
     let r3 := Elements.run bits self 0 (snd r2) in
     let settled :=
       Elements.settle_jobs bits (Runtime.scripted slow) 30 100
         (Runtime.fulfil 0 (JS.VString "x") (snd r3)) in
     (fst r1, fst r2, fst r3)
       = (Promises.Normal (Some 10%nat), Promises.Normal (Some 10%nat),
          Promises.Normal (Some 10%nat))
     /\ since elements_waiting (snd r3) = []
     /\ calls (since elements_waiting settled) = [JS.VFunction 1].
Proof. repeat split; vm_compute; reflexivity. Qed.

(** ** Routing of errors *)

Section Routing.
Import JS Runtime.
Context {W : Type}.

Section OnNodes.
Variable env : Env Nodes.Node Nodes.closure W.







End OnNodes.

Section OnElements.
Variable F : Elements.Flags.
Variable env : Env Elements.Element Elements.closure W.










End OnElements.
End Routing.

Section Routed.
Import Runtime.


End Routed.




(** An error boundary at work.  [Boundary] is a generator component that
    yields [<Child />]; calling [Child] throws "boom".  When
    [Boundary]'s iterator has a [throw] method that yields the text
    "fallback", the error is passed to it and the fallback is rendered;
    when it has none, "boom" comes out of [render]. *)
Definition boundary (catches : bool) (child : JS.val) : Runtime.Script :=
  {| Runtime.on_call := fun tag _ =>
       match tag with
       | JS.VFunction 1 => Runtime.Returns (JS.VIterator 1)
       | _ => Runtime.Throws (JS.VString "boom")
       end;
     Runtime.on_next := fun _ _ => Runtime.Returns (iteration child false);
     Runtime.on_return := fun _ => None;
     Runtime.on_throw := fun _ =>
       if catches
       then Some (fun _ => Runtime.Returns (iteration (JS.VString "fallback") false))
       else None;
     Runtime.on_intrinsic := fun _ _ => Runtime.Returns (JS.VOpaque 7);
     Runtime.on_text := fun s => s |}.

Definition nodes_boundary (catches : bool)
  : Promises.completion JS.val * Runtime.State Nodes.Node Nodes.closure Runtime.Log :=
  Nodes.render
    (Nodes.methods
       (Runtime.scripted (boundary catches (Nodes.createElement [JS.VFunction 2; JS.VNull])))
       30)
    (Nodes.createElement [JS.VFunction 1; JS.VNull]) the_root Runtime.initial.

Definition elements_boundary (catches : bool)
  : Promises.completion JS.val
    * Runtime.State Elements.Element Elements.closure Runtime.Log :=
  Elements.render bits
    (Elements.methods bits (Runtime.scripted (boundary catches (JS.VOpaque 1))) 30)
    (JS.VOpaque 0) the_root
    (snd (Elements.createElement bits [JS.VFunction 2; JS.VNull]
            (snd (Elements.createElement bits [JS.VFunction 1; JS.VNull]
                    Runtime.initial)))).

(** What was passed to iterators' [throw]. *)
Definition thrown (l : list Runtime.event) : list (nat * JS.val) :=
  omap (fun e => match e with Runtime.Thrown it r => Some (it, r) | _ => None end) l.

Example error_boundary_example :
  fst (nodes_boundary true) = Promises.Normal (JS.VOpaque 7)
  /\ thrown (Runtime.events (Runtime.world (snd (nodes_boundary true))))
     = [(1%nat, JS.VString "boom")]
  /\ last (Runtime.events (Runtime.world (snd (nodes_boundary true))))
     = Some (Runtime.Rendered Nodes.Portal
               (JS.VObject [("root", the_root);
                            ("children", JS.VArray [Some (JS.VString "fallback")])]))
  /\ fst (nodes_boundary false) = Promises.Throw (JS.VString "boom")
  /\ fst (elements_boundary true) = Promises.Normal (JS.VOpaque 7)
  /\ thrown (Runtime.events (Runtime.world (snd (elements_boundary true))))
     = [(1%nat, JS.VString "boom")]
  /\ last (Runtime.events (Runtime.world (snd (elements_boundary true))))
     = Some (Runtime.Rendered Elements.Portal
               (JS.VObject [("root", the_root);
                            ("children", JS.VArray [Some (JS.VString "fallback")])]))
  /\ fst (elements_boundary false) = Promises.Throw (JS.VString "boom").
Proof. repeat split; vm_compute; reflexivity. Qed.

(** ** Keys claimed twice in one pass *)

Section Keys.
Import JS Runtime.
Context {W : Type}.

Lemma assoc_elem l k : is_Some (assoc l k) <-> k ∈ l.*1.
Proof.
  induction l as [|[k' n] l IH]; simpl.
  - split; [intros [? ?]; discriminate | intros H; now apply elem_of_nil in H].
  - rewrite elem_of_cons. destruct (decide (k' = k)) as [->|Hne].
    + split; [now left | eauto].
    + rewrite IH. split; [now right | intros [->|H]; [contradiction | exact H]].
Qed.

Lemma map_has_get m k : map_has m k = true <-> is_Some (map_get m k).
Proof.
  destruct m as [l|]; simpl.
  - rewrite bool_decide_eq_true. symmetry. apply assoc_elem.
  - split; [discriminate | intros [? ?]; discriminate].
Qed.

Lemma assoc_set_ne l k k' n : k <> k' -> assoc (assoc_set l k' n) k = assoc l k.
Proof.
  intros Hne. induction l as [|[k0 n0] l IH]; simpl.
  - destruct (decide (k' = k)); [congruence | reflexivity].
  - destruct (decide (k0 = k')) as [->|Hne']; simpl.
    + destruct (decide (k' = k)); [congruence | reflexivity].
    + destruct (decide (k0 = k)); [reflexivity | exact IH].
Qed.

Lemma map_get_set_ne m k k' n : k <> k' -> map_get (map_set m k' n) k = map_get m k.
Proof.
  intros Hne. unfold map_set, map_get. rewrite assoc_set_ne by exact Hne.
  now destruct m.
Qed.

Lemma assoc_filter_ne l k : assoc (filter (fun e => e.1 <> k) l) k = None.
Proof.
  induction l as [|[k' n] l IH]; [reflexivity|].
  rewrite filter_cons. cbn [fst]. destruct (decide (k' <> k)) as [Hne|Heq].
  - simpl. destruct (decide (k' = k)); [contradiction | exact IH].
  - exact IH.
Qed.

Lemma map_get_delete m k : map_get (map_delete m k) k = None.
Proof. destruct m as [l|]; [apply assoc_filter_ne | reflexivity]. Qed.

(** A sequence that completes normally: so did its first statement. *)
Lemma bind_normal {N K A B} `{!Inhabited N} (m : M N K W A) (f : A -> M N K W B)
    s b s' :
  (m ≫= f) s = (Promises.Normal b, s') ->
  exists a s1, m s = (Promises.Normal a, s1) /\ f a s1 = (Promises.Normal b, s').
Proof.
  unfold mbind, M_bind. destruct (m s) as [[a|e] s1]; [eauto | discriminate].
Qed.

Section OnNodes.
Variable env : Env Nodes.Node Nodes.closure W.
Variable self : Nodes.Methods W.

Lemma effective_key_taken m child nd :
  map_get m (Nodes.child_key child) = Some nd ->
  Nodes.effective_key m child = VUndefined.
Proof.
  intros H. unfold Nodes.effective_key.
  assert (Hhas : map_has m (Nodes.child_key child) = true)
    by (apply map_has_get; eauto).
  rewrite Hhas. cbv zeta.
  destruct (bool_decide (Nodes.child_key child <> VUndefined)) eqn:E; [reflexivity|].
  apply bool_decide_eq_false in E. simpl.
  destruct (decide (Nodes.child_key child = VUndefined)); [assumption | contradiction].
Qed.

Lemma effective_key_free m child :
  Nodes.effective_key m child <> VUndefined ->
  Nodes.effective_key m child = Nodes.child_key child
  /\ map_get m (Nodes.child_key child) = None.
Proof.
  unfold Nodes.effective_key. intros H.
  destruct (bool_decide (Nodes.child_key child <> VUndefined)) eqn:Ek; simpl in *.
  - destruct (map_has m (Nodes.child_key child)) eqn:Eh; [contradiction|].
    split; [reflexivity|].
    destruct (map_get m (Nodes.child_key child)) eqn:Eg; [|reflexivity].
    assert (map_has m (Nodes.child_key child) = true) by (apply map_has_get; eauto).
    congruence.
  - apply bool_decide_eq_false in Ek. exfalso. apply Ek. exact H.
Qed.

(** A step of the pass leaves the new map as it is, or adds the child
    under its effective key. *)
Lemma nodes_pass_step_map this st child s st' s' :
  Nodes.pass_step env self this st child s = (Promises.Normal st', s') ->
  Nodes.keyedChildren1 st' = Nodes.keyedChildren1 st
  \/ (Nodes.effective_key (Nodes.keyedChildren1 st) child <> VUndefined
      /\ exists node1,
           Nodes.keyedChildren1 st'
           = map_set (Nodes.keyedChildren1 st)
               (Nodes.effective_key (Nodes.keyedChildren1 st) child) node1).
Proof.
  unfold Nodes.pass_step. intros H.
  apply bind_normal in H as (a & s1 & _ & H).
  destruct a as [node0|cursor].
  - apply bind_normal in H as ([node1 result] & s2 & _ & H).
    apply bind_normal in H as (next & s3 & _ & H).
    injection H as <- _.
    cbn [Nodes.keyedChildren1].
    destruct (decide (Nodes.effective_key (Nodes.keyedChildren1 st) child <> VUndefined));
      [right; eauto | now left].
  - injection H as <- _. now left.
Qed.

Lemma nodes_pass_step_keeps this st child s st' s' k nd :
  map_get (Nodes.keyedChildren1 st) k = Some nd ->
  Nodes.pass_step env self this st child s = (Promises.Normal st', s') ->
  map_get (Nodes.keyedChildren1 st') k = Some nd.
Proof.
  intros Hk H. apply nodes_pass_step_map in H as [-> | (Hne & node1 & ->)];
    [exact Hk|].
  apply effective_key_free in Hne as [-> Hfree].
  rewrite map_get_set_ne; [exact Hk|]. intros Heq. rewrite Heq in Hk. congruence.
Qed.

Lemma nodes_pass_keeps this children : forall st s st' s' k nd,
  map_get (Nodes.keyedChildren1 st) k = Some nd ->
  Nodes.pass env self this st children s = (Promises.Normal st', s') ->
  map_get (Nodes.keyedChildren1 st') k = Some nd.
Proof.
  induction children as [|child rest IH]; intros st s st' s' k nd Hk H; cbn in H.
  - now injection H as <- _.
  - apply bind_normal in H as (st1 & s1 & H1 & H).
    eapply IH; [|exact H]. eapply nodes_pass_step_keeps; eassumption.
Qed.

(** The step for a child whose key is taken: alignment by no key, and
    the new map as it was. *)
Lemma nodes_pass_step_demoted this st child nd :
  map_get (Nodes.keyedChildren1 st) (Nodes.child_key child) = Some nd ->
  Nodes.pass_step env self this st child
  = (a ← Nodes.align this child VUndefined (Nodes.cursor st);
     match a with
     | Nodes.Continue cursor =>
         mret (Nodes.mkPass (Nodes.result st) (Nodes.keyedChildren1 st) cursor)
     | Nodes.Matched node0 =>
         '(node1, result) ← Nodes.update_aligned env self this child node0
                              (Nodes.result st);
         next ← Nodes.nextSibling this node1;
         mret (Nodes.mkPass result (Nodes.keyedChildren1 st) next)
     end).
Proof.
  intros H. unfold Nodes.pass_step. now rewrite (effective_key_taken _ _ _ H).
Qed.

(** Alignment by no key is by position: the node at the cursor when it
    has no key, else the next sibling without one. *)
Lemma nodes_align_positional this child node0 c
    (s : State Nodes.Node Nodes.closure W) :
  nodes s !! node0 = Some c ->
  Nodes.key c = VUndefined ->
  Nodes.align this child VUndefined (Some node0) s
  = (Promises.Normal (Nodes.Matched node0), s).
Proof.
  intros Hc Hk. unfold Nodes.align.
  destruct (decide (VUndefined <> VUndefined)) as [Hne|_]; [congruence|].
  rewrite (run_node _ _ _ _ Hc).
  destruct (decide (Nodes.key c <> VUndefined)); [contradiction | reflexivity].
Qed.

End OnNodes.

Section OnElements.
Variable F : Elements.Flags.
Variable env : Env Elements.Element Elements.closure W.
Variable self : Elements.Methods W.

(** [newChild1.key] of a new child that is an element. *)
Definition key_of (store : gmap nat Elements.Element) (child : val) : val :=
  match child with VOpaque c => Elements.key (store !!! c) | _ => VUndefined end.

(** A keyed child whose key is not in the old map is matched with no old
    child, and [i] stays. *)
Lemma elements_align_taken el i newChild1 (s : State Elements.Element Elements.closure W) :
  Elements.keyed (nodes s) newChild1 = true ->
  map_get (Elements.childrenByKey (nodes s !!! el)) (key_of (nodes s) newChild1) = None ->
  Elements.align F el i newChild1 s = (Promises.Normal (VUndefined, i), s).
Proof.
  intros Hk Hg. unfold Elements.align, mbind, M_bind, node, all_nodes.
  rewrite Hk. unfold key_of in Hg. now rewrite Hg.
Qed.

(** An unkeyed child takes the old child at [i], when that has no key. *)
Lemma elements_align_positional el i newChild1
    (s : State Elements.Element Elements.closure W) :
  Elements.keyed (nodes s) newChild1 = false ->
  Elements.keyed (nodes s)
    (Elements.old_child (Elements.children (nodes s !!! el)) i) = false ->
  Elements.align F el i newChild1 s
  = (Promises.Normal (Elements.old_child (Elements.children (nodes s !!! el)) i, S i), s).
Proof.
  intros Hk Ho. unfold Elements.align, mbind, M_bind, node, all_nodes.
  now rewrite Hk, Ho.
Qed.

(** Once a keyed child is aligned its key is gone from the old map. *)
Lemma elements_align_claims el e i newChild1
    (s : State Elements.Element Elements.closure W) r s' :
  nodes s !! el = Some e ->
  Elements.keyed (nodes s) newChild1 = true ->
  Elements.align F el i newChild1 s = (Promises.Normal r, s') ->
  exists e', nodes s' !! el = Some e'
             /\ map_get (Elements.childrenByKey e') (key_of (nodes s) newChild1) = None.
Proof.
  intros He Hk. unfold Elements.align.
  rewrite (run_node _ _ _ _ He). unfold mbind, M_bind, all_nodes.
  rewrite Hk. fold (key_of (nodes s) newChild1).
  destruct (map_get (Elements.childrenByKey e) (key_of (nodes s) newChild1))
    as [oldChild1|] eqn:Hg.
  - unfold assign, Elements.raise, assign.
    destruct (decide (Elements.old_child (Elements.children e) i = VOpaque oldChild1)).
    + intros H. injection H as _ <-. cbn [nodes with_nodes].
      rewrite lookup_alter_eq, He. eexists. split; [reflexivity|].
      cbn. apply map_get_delete.
    + intros H. injection H as _ <-. cbn [nodes with_nodes].
      destruct (decide (oldChild1 = el)) as [->|Hne].
      * rewrite !lookup_alter_eq, He. eexists. split; [reflexivity|].
        cbn. apply map_get_delete.
      * rewrite lookup_alter_ne by exact Hne.
        rewrite lookup_alter_eq, He. eexists. split; [reflexivity|].
        cbn. apply map_get_delete.
  - intros H. injection H as _ <-. eauto.
Qed.

(** A step of the pass leaves the new map as it is, or adds a key that
    was not in it. *)
Lemma elements_pass_step_map el st newChild s st' s' :
  Elements.pass_step F env self el st newChild s = (Promises.Normal st', s') ->
  Elements.childrenByKey1 st' = Elements.childrenByKey1 st
  \/ exists k c,
       map_has (Elements.childrenByKey1 st) k = false
       /\ Elements.childrenByKey1 st' = map_set (Elements.childrenByKey1 st) k c.
Proof.
  unfold Elements.pass_step. intros H.
  apply bind_normal in H as (newChild1 & s1 & _ & H).
  apply bind_normal in H as ([oldChild i] & s2 & _ & H).
  apply bind_normal in H as ([newChild2 result] & s3 & _ & H).
  apply bind_normal in H as (store & s4 & _ & H).
  injection H as <- _. cbn [Elements.childrenByKey1].
  destruct (Elements.keyed store newChild2); [|now left].
  match goal with
  | |- context [map_has ?m ?k] => destruct (map_has m k) eqn:Eh
  end; [now left | right; eauto].
Qed.

Lemma elements_pass_step_keeps el st newChild s st' s' k c :
  map_get (Elements.childrenByKey1 st) k = Some c ->
  Elements.pass_step F env self el st newChild s = (Promises.Normal st', s') ->
  map_get (Elements.childrenByKey1 st') k = Some c.
Proof.
  intros Hk H. apply elements_pass_step_map in H as [-> | (k' & c' & Hfree & ->)];
    [exact Hk|].
  rewrite map_get_set_ne; [exact Hk|]. intros Heq. subst k'.
  assert (map_has (Elements.childrenByKey1 st) k = true) by (apply map_has_get; eauto).
  congruence.
Qed.

Lemma elements_pass_keeps el children : forall st s st' s' k c,
  map_get (Elements.childrenByKey1 st) k = Some c ->
  Elements.pass F env self el st children s = (Promises.Normal st', s') ->
  map_get (Elements.childrenByKey1 st') k = Some c.
Proof.
  induction children as [|child rest IH]; intros st s st' s' k c Hk H; cbn in H.
  - now injection H as <- _.
  - apply bind_normal in H as (st1 & s1 & H1 & H).
    eapply IH; [|exact H]. eapply elements_pass_step_keeps; eassumption.
Qed.

End OnElements.

End Keys.

Section Claimed.
Import JS Runtime.

(** C7.  A key that an earlier child of the pass holds stays with that
    child: in both revisions a later child with the same key leaves the
    new keyed map as it is, through the rest of the pass.  What becomes
    of the later child differs.  In [index.ts] it is aligned with no key,
    that is by position: it takes the node at the cursor when that node
    has no key.  In the element based revision it is looked up in the old
    map like any keyed child; the key is no longer there (aligning the
    first claimant removed it), so the child is matched with no old
    child and [i] is not advanced.  Neither branch throws. *)
Theorem key_collision_keeps_first_claimant :
  (forall (W : Type) (env : Env Nodes.Node Nodes.closure W) (self : Nodes.Methods W)
          this st child first,
      map_get (Nodes.keyedChildren1 st) (Nodes.child_key child) = Some first ->
      Nodes.pass_step env self this st child
      = (a ← Nodes.align this child VUndefined (Nodes.cursor st);
         match a with
         | Nodes.Continue cursor =>
             mret (Nodes.mkPass (Nodes.result st) (Nodes.keyedChildren1 st) cursor)
         | Nodes.Matched node0 =>
             '(node1, result) ← Nodes.update_aligned env self this child node0
                                  (Nodes.result st);
             next ← Nodes.nextSibling this node1;
             mret (Nodes.mkPass result (Nodes.keyedChildren1 st) next)
         end)
      /\ (forall (s : State Nodes.Node Nodes.closure W) node0 c,
             nodes s !! node0 = Some c -> Nodes.key c = VUndefined ->
             Nodes.align this child VUndefined (Some node0) s
             = (Promises.Normal (Nodes.Matched node0), s))
      /\ (forall s st' s',
             Nodes.pass_step env self this st child s = (Promises.Normal st', s') ->
             Nodes.keyedChildren1 st' = Nodes.keyedChildren1 st)
      /\ (forall children s st' s',
             Nodes.pass env self this st children s = (Promises.Normal st', s') ->
             map_get (Nodes.keyedChildren1 st') (Nodes.child_key child) = Some first))
  /\ (forall (W : Type) (F : Elements.Flags)
             (env : Env Elements.Element Elements.closure W)
             (self : Elements.Methods W) el newChild1,
        (forall (s : State Elements.Element Elements.closure W) e i r s',
            nodes s !! el = Some e ->
            Elements.keyed (nodes s) newChild1 = true ->
            Elements.align F el i newChild1 s = (Promises.Normal r, s') ->
            exists e',
              nodes s' !! el = Some e'
              /\ map_get (Elements.childrenByKey e') (key_of (nodes s) newChild1) = None)
        /\ (forall (s : State Elements.Element Elements.closure W) i,
               Elements.keyed (nodes s) newChild1 = true ->
               map_get (Elements.childrenByKey (nodes s !!! el))
                 (key_of (nodes s) newChild1) = None ->
               Elements.align F el i newChild1 s = (Promises.Normal (VUndefined, i), s))
        /\ (forall st k first children s st' s',
               map_get (Elements.childrenByKey1 st) k = Some first ->
               Elements.pass F env self el st children s = (Promises.Normal st', s') ->
               map_get (Elements.childrenByKey1 st') k = Some first)).
Proof.
  split.
  - intros W env self this st child first Hk. repeat split.
    + eapply nodes_pass_step_demoted; eassumption.
    + intros s node0 c. apply nodes_align_positional.
    + intros s st' s' H.
      apply nodes_pass_step_map in H as [H | (Hne & _)]; [exact H|].
      now rewrite (effective_key_taken _ _ _ Hk) in Hne.
    + intros children s st' s'. now apply nodes_pass_keeps.
  - intros W F env self el newChild1. repeat split.
    + intros s e i r s'. apply elements_align_claims.
    + intros s i. apply elements_align_taken.
    + intros st k first children s st' s'. apply elements_pass_keeps.
Qed.

End Claimed.

(** The props [{"crank-key": k}]. *)
Definition with_key (k : Z) : JS.val := JS.VObject [("crank-key", JS.VNumber k)].

(** [render([<div />], root)], then
    [render([<span crank-key={1} />, <div crank-key={1} />], root)], or
    the same with the second [div] unkeyed.  On [index.ts] the root is
    node 0, its fragment node 1 and the first [div] node 2. *)
Definition nodes_one_div : Runtime.State Nodes.Node Nodes.closure Runtime.Log :=
  snd (Nodes.render (Nodes.methods (Runtime.scripted opaque_backend) 30)
         (JS.VArray [Some (Nodes.createElement [JS.VString "div"; JS.VNull])])
         the_root Runtime.initial).

Definition nodes_collision (duplicate : bool)
  : Promises.completion JS.val * Runtime.State Nodes.Node Nodes.closure Runtime.Log :=
  Nodes.render (Nodes.methods (Runtime.scripted opaque_backend) 30)
    (JS.VArray
       [Some (Nodes.createElement [JS.VString "span"; with_key 1]);
        Some (Nodes.createElement
                [JS.VString "div"; if duplicate then with_key 1 else JS.VNull])])
    the_root nodes_one_div.

(** On the element based revision the first [div] is element 0, the
    root element 1, the [span] element 2 and the second [div] element 3. *)
Definition elements_one_div
  : Runtime.State Elements.Element Elements.closure Runtime.Log :=
  snd (Elements.render bits (Elements.methods bits (Runtime.scripted opaque_backend) 30)
         (JS.VArray [Some (JS.VOpaque 0)]) the_root
         (snd (Elements.createElement bits [JS.VString "div"; JS.VNull]
                 Runtime.initial))).

Definition elements_collision (duplicate : bool)
  : Promises.completion JS.val
    * Runtime.State Elements.Element Elements.closure Runtime.Log :=
  Elements.render bits (Elements.methods bits (Runtime.scripted opaque_backend) 30)
    (JS.VArray [Some (JS.VOpaque 2); Some (JS.VOpaque 3)]) the_root
    (snd (Elements.createElement bits
            [JS.VString "div"; if duplicate then with_key 1 else JS.VNull]
            (snd (Elements.createElement bits [JS.VString "span"; with_key 1]
                    elements_one_div)))).

(** On the element based revision the later child with the duplicate
    key is not treated as an unkeyed child would be.  Unkeyed, the
    second [div] takes the old [div] at its position (element 0 is
    reused and stays mounted); with the duplicate key it is mounted as a
    new element (3) and the old [div] is unmounted.  On [index.ts] the
    two give the same tree, the old [div] (node 2) reused. *)
Lemma duplicate_key_is_mounted_afresh :
  fst (elements_collision true) = Promises.Normal (JS.VOpaque 7)
  /\ Elements.children (Runtime.nodes (snd (elements_collision true)) !!! 1%nat)
     = JS.VArray [Some (JS.VOpaque 2); Some (JS.VOpaque 3)]
  /\ Elements.has (Elements.flags (Runtime.nodes (snd (elements_collision true)) !!! 0%nat))
       (Elements.Unmounted bits) = true
  /\ Elements.children (Runtime.nodes (snd (elements_collision false)) !!! 1%nat)
     = JS.VArray [Some (JS.VOpaque 2); Some (JS.VOpaque 0)]
  /\ Elements.has (Elements.flags (Runtime.nodes (snd (elements_collision false)) !!! 0%nat))
       (Elements.Unmounted bits) = false
  /\ Elements.childrenByKey (Runtime.nodes (snd (elements_collision true)) !!! 1%nat)
     = Some [(JS.VNumber 1, 2%nat)]
  /\ Nodes.children (Runtime.nodes (snd (nodes_collision true)) !!! 1%nat) = [3; 2]%nat
  /\ Nodes.children (Runtime.nodes (snd (nodes_collision false)) !!! 1%nat) = [3; 2]%nat
  /\ Nodes.unmounted (Runtime.nodes (snd (nodes_collision true)) !!! 2%nat) = false
  /\ Nodes.keyedChildren (Runtime.nodes (snd (nodes_collision true)) !!! 1%nat)
     = Some [(JS.VNumber 1, 3%nat)].
Proof. repeat split; vm_compute; reflexivity. Qed.

(** The pass over the new children on the stores above: the step for
    the [span] claims key 1, the rest of the pass is the second [div]. *)
Definition nodes_after_span
  : Promises.completion Nodes.Pass * Runtime.State Nodes.Node Nodes.closure Runtime.Log :=
  Nodes.pass_step (Runtime.scripted opaque_backend)
    (Nodes.methods (Runtime.scripted opaque_backend) 30) 1
    (Nodes.mkPass None None (Some 2%nat))
    (Nodes.createElement [JS.VString "span"; with_key 1]) nodes_one_div.

Definition span_claimed : Nodes.Pass :=
  Nodes.mkPass None (Some [(JS.VNumber 1, 3%nat)]) (Some 2%nat).

Lemma key_collision_keeps_first_claimant_witness :
  fst nodes_after_span = Promises.Normal span_claimed
  /\ (exists st' s',
         Nodes.pass (Runtime.scripted opaque_backend)
           (Nodes.methods (Runtime.scripted opaque_backend) 30) 1
           span_claimed [Nodes.createElement [JS.VString "div"; with_key 1]]
           (snd nodes_after_span)
         = (Promises.Normal st', s')
         /\ JS.map_get (Nodes.keyedChildren1 st') (JS.VNumber 1) = Some 3%nat)
  /\ Elements.align bits 1 0 (JS.VOpaque 3)
       (snd (Elements.createElement bits [JS.VString "div"; with_key 1]
               (snd (Elements.createElement bits [JS.VString "span"; with_key 1]
                       elements_one_div))))
     = (Promises.Normal (JS.VUndefined, 0%nat),
        snd (Elements.createElement bits [JS.VString "div"; with_key 1]
               (snd (Elements.createElement bits [JS.VString "span"; with_key 1]
                       elements_one_div)))).
Proof.
  split; [vm_compute; reflexivity|]. split.
  - eexists _, _. split; [vm_compute; reflexivity|].
    eapply (proj2 (proj2 (proj2
              (proj1 key_collision_keeps_first_claimant Runtime.Log
                 (Runtime.scripted opaque_backend)
                 (Nodes.methods (Runtime.scripted opaque_backend) 30)
                 1%nat span_claimed
                 (Nodes.createElement [JS.VString "div"; with_key 1]) 3%nat
                 eq_refl)))
             [Nodes.createElement [JS.VString "div"; with_key 1]]
             (snd nodes_after_span)).
    vm_compute; reflexivity.
  - apply (proj1 (proj2
             (proj2 key_collision_keeps_first_claimant Runtime.Log bits
                (Runtime.scripted opaque_backend)
                (Elements.methods bits (Runtime.scripted opaque_backend) 30)
                1%nat (JS.VOpaque 3))));
      vm_compute; reflexivity.
Defined.

(** ** Replacing a child by one of another tag *)

Section Replacing.
Import JS Runtime.
Context {W : Type}.

(** A later subscription keeps the reactions a pending promise has. *)
Lemma then_keeps_reaction {K} (m : Promises.machine K) p rs locked R r onF onR :
  Promises.heap m !! p = Some (Promises.Promise (Promises.Pending rs) locked) ->
  R ∈ rs ->
  exists rs',
    Promises.heap (Promises.then_ r onF onR m).2 !! p
    = Some (Promises.Promise (Promises.Pending rs') locked)
    /\ R ∈ rs'.
Proof.
  intros Hp HR.
  assert (Hlt : p < length (Promises.heap m)) by (eapply lookup_lt_Some; eassumption).
  unfold Promises.then_, Promises.new_promise. cbn [Promises.heap Promises.queue].
  destruct ((Promises.heap m ++ [Promises.Promise (Promises.Pending []) false]) !! r)
    as [[[rs0|st] l0]|] eqn:Hr; cbn [snd Promises.heap Promises.enqueue];
    try (exists rs; split; [rewrite lookup_app_l by exact Hlt; exact Hp | exact HR]).
  destruct (decide (r = p)) as [->|Hne].
  - rewrite lookup_app_l in Hr by exact Hlt. rewrite Hp in Hr. injection Hr as <- <-.
    eexists. split.
    + apply list_lookup_insert_eq. rewrite length_app. lia.
    + apply elem_of_app. now left.
  - exists rs. split; [|exact HR].
    rewrite list_lookup_insert_ne by exact Hne.
    rewrite lookup_app_l by exact Hlt. exact Hp.
Qed.

Section OnNodes.
Variable env : Env Nodes.Node Nodes.closure W.
Variable self : Nodes.Methods W.

(** A child of another tag than the node it is aligned with replaces it. *)
Lemma nodes_update_aligned_replaces this child node0 result
    (s : State Nodes.Node Nodes.closure W) :
  Nodes.child_tag child <> Nodes.Copy ->
  Nodes.tag (nodes s !!! node0) <> Nodes.child_tag child ->
  Nodes.update_aligned env self this child node0 result s
  = Nodes.replace env self this child node0 result s.
Proof.
  intros Hcopy Htag. unfold Nodes.update_aligned, mbind at 1, M_bind at 1, node at 1.
  destruct (decide (Nodes.child_tag child = Nodes.Copy)); [contradiction|].
  destruct (decide (Nodes.tag (nodes s !!! node0) = Nodes.child_tag child));
    [contradiction | reflexivity].
Qed.

(** The new node's update was synchronous: the old node is unmounted
    before the new one takes its place. *)
Lemma nodes_replace_sync this child node0 result
    (s s1 s2 : State Nodes.Node Nodes.closure W) newNode :
  Nodes.createNode this child s = (Promises.Normal newNode, s1) ->
  Nodes.internal (nodes s1 !!! newNode) = true ->
  Nodes.update self newNode (Nodes.child_props child) (Nodes.child_ref child) s1
  = (Promises.Normal None, s2) ->
  Nodes.replace env self this child node0 result s
  = ((if Nodes.internal (nodes s !!! node0)
      then Nodes.unmount self node0 true;; mret tt else mret tt);;
     Nodes.replaceChild this newNode node0;;
     mret (newNode, result)) s2.
Proof.
  intros Hc Hi Hu. unfold Nodes.replace.
  unfold mbind at 1, M_bind at 1, node at 1.
  unfold mbind at 1, M_bind at 1. rewrite Hc.
  unfold mbind at 1, M_bind at 1, node at 1. rewrite Hi.
  unfold mbind at 1, M_bind at 1. rewrite Hu.
  rewrite run_assoc. reflexivity.
Qed.

(** The new node's update returned a promise: the old node becomes the
    new node's alternate, its unmount is left to a reaction to that
    promise, and no method is called. *)
Lemma nodes_replace_async this child node0 result
    (s s1 s2 : State Nodes.Node Nodes.closure W) newNode result1 :
  Nodes.createNode this child s = (Promises.Normal newNode, s1) ->
  Nodes.internal (nodes s1 !!! newNode) = true ->
  Nodes.update self newNode (Nodes.child_props child) (Nodes.child_ref child) s1
  = (Promises.Normal (Some result1), s2) ->
  Nodes.replace env self this child node0 result s
  = (merged ← (assign newNode (Nodes.set_alternate (Some node0));;
               unmounting ← then1 result1 (Nodes.KUnmountAlternates newNode);
               Nodes.merge result unmounting);
     Nodes.replaceChild this newNode node0;;
     mret (newNode, merged)) s2.
Proof.
  intros Hc Hi Hu. unfold Nodes.replace.
  unfold mbind at 1, M_bind at 1, node at 1.
  unfold mbind at 1, M_bind at 1. rewrite Hc.
  unfold mbind at 1, M_bind at 1, node at 1. rewrite Hi.
  unfold mbind at 1, M_bind at 1. rewrite Hu.
  reflexivity.
Qed.

(** What the asynchronous branch leaves: the environment was not asked
    anything, the nodes other than the parent and the new node are as the
    new node's update left them (the old node among them), the new node
    has the old one as its alternate, and the promise of the update has
    the unmount of the alternates among its reactions. *)
Lemma nodes_replace_async_effect this child node0 result
    (s s1 s2 : State Nodes.Node Nodes.closure W) newNode result1 rs locked :
  Nodes.createNode this child s = (Promises.Normal newNode, s1) ->
  Nodes.internal (nodes s1 !!! newNode) = true ->
  Nodes.update self newNode (Nodes.child_props child) (Nodes.child_ref child) s1
  = (Promises.Normal (Some result1), s2) ->
  newNode <> this ->
  Promises.heap (machine s2) !! result1
  = Some (Promises.Promise (Promises.Pending rs) locked) ->
  exists merged s',
    Nodes.replace env self this child node0 result s
    = (Promises.Normal (newNode, Some merged), s')
    /\ world s' = world s2
    /\ (forall x, x <> this -> x <> newNode -> nodes s' !! x = nodes s2 !! x)
    /\ nodes s' !! newNode = Nodes.set_alternate (Some node0) <$> nodes s2 !! newNode
    /\ exists rs',
         Promises.heap (machine s') !! result1
         = Some (Promises.Promise (Promises.Pending rs') locked)
         /\ Promises.Reaction (Promises.Call (Nodes.KUnmountAlternates newNode))
              Promises.Thrower (length (Promises.heap (machine s2))) ∈ rs'.
Proof.
  intros Hc Hi Hu Hne Hp.
  rewrite (nodes_replace_async _ _ _ _ _ _ _ _ _ Hc Hi Hu).
  assert (Hlt : result1 < length (Promises.heap (machine s2)))
    by (eapply lookup_lt_Some; eassumption).
  rewrite !run_assoc, run_assign, !run_assoc.
  unfold then1. rewrite run_promises. cbn [machine with_machine with_nodes].
  erewrite then_pending by eassumption. cbn [fst snd].
  set (R := Promises.Reaction (Promises.Call (Nodes.KUnmountAlternates newNode))
              Promises.Thrower (length (Promises.heap (machine s2)))).
  set (m1 := Promises.Machine _ _).
  assert (Hm1 : Promises.heap m1 !! result1
                = Some (Promises.Promise (Promises.Pending (rs ++ [R])) locked)).
  { subst m1. cbn [Promises.heap]. apply list_lookup_insert_eq.
    rewrite length_app. lia. }
  assert (HR : R ∈ rs ++ [R])
    by (apply elem_of_app; right; apply list_elem_of_singleton; reflexivity).
  unfold Nodes.replaceChild, Nodes.insertBefore, Nodes.removeChild.
  destruct result as [result|]; cbn [Nodes.merge].
  - rewrite !run_assoc. unfold then1. rewrite run_promises.
    cbn [machine with_machine with_nodes].
    destruct (then_keeps_reaction m1 result1 _ _ R result
                (Promises.Call (Nodes.KConst (VPromise (length (Promises.heap (machine s2))))))
                Promises.Thrower Hm1 HR) as (rs' & Hrs' & HR').
    rewrite run_ret.
    destruct (decide (newNode = node0)) as [->|Hn0];
      (eexists _, _; split; [reflexivity|]);
      cbn [world nodes machine with_nodes with_machine];
      (split; [reflexivity|]);
      (split; [intros x Hx1 Hx2; rewrite ?lookup_alter_ne by congruence; reflexivity|]);
      (split; [rewrite ?lookup_alter_ne by congruence; now rewrite lookup_alter_eq|]);
      eauto.
  - rewrite run_ret.
    destruct (decide (newNode = node0)) as [->|Hn0];
      (eexists _, _; split; [reflexivity|]);
      cbn [world nodes machine with_nodes with_machine];
      (split; [reflexivity|]);
      (split; [intros x Hx1 Hx2; rewrite ?lookup_alter_ne by congruence; reflexivity|]);
      (split; [rewrite ?lookup_alter_ne by congruence; now rewrite lookup_alter_eq|]);
      eauto.
Qed.

(** When the promise is fulfilled the reaction unmounts the old node
    first, then the alternates further down, and clears the link. *)
Lemma nodes_alternates_unmounted newNode nn node0 c x
    (s : State Nodes.Node Nodes.closure W) :
  nodes s !! newNode = Some nn ->
  Nodes.alternate nn = Some node0 ->
  nodes s !! node0 = Some c ->
  Nodes.internal c = true ->
  Nodes.call self (Nodes.KUnmountAlternates newNode) x s
  = (Nodes.unmount self node0 true;;
     c' ← node node0;
     Nodes.unmount_alternates self (pred (size (nodes s))) (Nodes.alternate c');;
     assign newNode (Nodes.set_alternate None);;
     mret VUndefined) s.
Proof.
  intros Hnn Halt Hc Hi. cbn [Nodes.call].
  unfold mbind at 1, M_bind at 1, all_nodes.
  rewrite (run_node _ _ _ _ Hnn), Halt.
  destruct (size (nodes s)) as [|fuel] eqn:Hsize.
  { apply map_size_empty_iff in Hsize. rewrite Hsize in Hnn.
    now rewrite lookup_empty in Hnn. }
  cbn [Nodes.unmount_alternates pred].
  rewrite !run_assoc, (run_node _ _ _ _ Hc), Hi.
  rewrite !run_assoc. reflexivity.
Qed.

(** Until then a commit of the parent reads the value of the old node. *)
Lemma nodes_deepest_alternate (store : gmap nat Nodes.Node) newNode nn node0 c :
  store !! newNode = Some nn ->
  Nodes.alternate nn = Some node0 ->
  store !! node0 = Some c ->
  Nodes.alternate c = None ->
  Nodes.deepest (size store) store newNode = node0.
Proof.
  intros Hnn Halt Hc Hnone.
  destruct (size store) as [|fuel] eqn:Hsize.
  { apply map_size_empty_iff in Hsize. rewrite Hsize in Hnn.
    now rewrite lookup_empty in Hnn. }
  cbn [Nodes.deepest]. rewrite (lookup_total_correct _ _ _ Hnn), Halt.
  destruct fuel; cbn [Nodes.deepest]; [reflexivity|].
  now rewrite (lookup_total_correct _ _ _ Hc), Hnone.
Qed.

End OnNodes.

Section OnElements.
Variable F : Elements.Flags.
Variable env : Env Elements.Element Elements.closure W.
Variable self : Elements.Methods W.

Lemma elements_replace_sync el newChild nc oc result
    (s s1 s2 : State Elements.Element Elements.closure W) nc' :
  Elements.tag (nodes s !!! nc) <> Elements.Copy ->
  Elements.tag (nodes s !!! oc) <> Elements.tag (nodes s !!! nc) ->
  Elements.mount F nc (Some el) s = (Promises.Normal nc', s1) ->
  Elements.rec_update self nc' s1 = (Promises.Normal None, s2) ->
  Elements.update_child F env self el newChild (VOpaque nc) (VOpaque oc) result s
  = (Elements.rec_unmount self oc true;; mret (VOpaque nc', result)) s2.
Proof.
  intros Hcopy Htag Hm Hu. unfold Elements.update_child.
  unfold mbind at 1, M_bind at 1, node at 1.
  destruct (decide (Elements.tag (nodes s !!! nc) = Elements.Copy)); [contradiction|].
  rewrite !run_assoc. unfold mbind at 1, M_bind at 1, node at 1.
  destruct (decide (Elements.tag (nodes s !!! oc) = Elements.tag (nodes s !!! nc)));
    [contradiction|].
  rewrite !run_assoc. unfold mbind at 1, M_bind at 1. rewrite Hm.
  rewrite !run_assoc. unfold mbind at 1, M_bind at 1. rewrite Hu.
  rewrite !run_assoc. unfold mbind, M_bind.
  destruct (Elements.rec_unmount self oc true s2) as [[r|e] s3]; reflexivity.
Qed.

Lemma elements_replace_async el newChild nc oc result
    (s s1 s2 : State Elements.Element Elements.closure W) nc' result1 :
  Elements.tag (nodes s !!! nc) <> Elements.Copy ->
  Elements.tag (nodes s !!! oc) <> Elements.tag (nodes s !!! nc) ->
  Elements.mount F nc (Some el) s = (Promises.Normal nc', s1) ->
  Elements.rec_update self nc' s1 = (Promises.Normal (Some result1), s2) ->
  Elements.update_child F env self el newChild (VOpaque nc) (VOpaque oc) result s
  = (oce ← node oc;
     assign nc' (Elements.set_value (Elements.value oce));;
     then1 result1 (Elements.KReplaced oc nc');;
     Elements.schedule oc (Elements.KeepValue nc');;
     merged ← Elements.merge result result1;
     mret (VOpaque nc', merged)) s2.
Proof.
  intros Hcopy Htag Hm Hu. unfold Elements.update_child.
  unfold mbind at 1, M_bind at 1, node at 1.
  destruct (decide (Elements.tag (nodes s !!! nc) = Elements.Copy)); [contradiction|].
  rewrite !run_assoc. unfold mbind at 1, M_bind at 1, node at 1.
  destruct (decide (Elements.tag (nodes s !!! oc) = Elements.tag (nodes s !!! nc)));
    [contradiction|].
  rewrite !run_assoc. unfold mbind at 1, M_bind at 1. rewrite Hm.
  rewrite !run_assoc. unfold mbind at 1, M_bind at 1. rewrite Hu.
  unfold mbind, M_bind, node, assign, then1, promises, Elements.schedule, assign,
    mret, M_ret.
  destruct (Promises.then_ _ _ _ _) as [q m1].
  match goal with
  | |- context [Elements.merge result result1 ?st] =>
      destruct (Elements.merge result result1 st) as [[r|e] s3]
  end; reflexivity.
Qed.

(** What the asynchronous branch leaves: the environment was not asked
    anything; the old element keeps its flags and its value, which the
    new element shows too; the promise of the update has the unmount of
    the old element among its reactions. *)
Lemma elements_replace_async_effect el newChild nc oc result
    (s s1 s2 : State Elements.Element Elements.closure W) nc' result1 oce nce rs locked :
  Elements.tag (nodes s !!! nc) <> Elements.Copy ->
  Elements.tag (nodes s !!! oc) <> Elements.tag (nodes s !!! nc) ->
  Elements.mount F nc (Some el) s = (Promises.Normal nc', s1) ->
  Elements.rec_update self nc' s1 = (Promises.Normal (Some result1), s2) ->
  nodes s2 !! oc = Some oce ->
  nodes s2 !! nc' = Some nce ->
  Promises.heap (machine s2) !! result1
  = Some (Promises.Promise (Promises.Pending rs) locked) ->
  exists merged s',
    Elements.update_child F env self el newChild (VOpaque nc) (VOpaque oc) result s
    = (Promises.Normal (VOpaque nc', Some merged), s')
    /\ world s' = world s2
    /\ (forall x, x <> oc -> x <> nc' -> nodes s' !! x = nodes s2 !! x)
    /\ (exists oce', nodes s' !! oc = Some oce'
                     /\ Elements.flags oce' = Elements.flags oce
                     /\ Elements.value oce' = Elements.value oce)
    /\ (exists nce', nodes s' !! nc' = Some nce'
                     /\ Elements.value nce' = Elements.value oce)
    /\ exists rs',
         Promises.heap (machine s') !! result1
         = Some (Promises.Promise (Promises.Pending rs') locked)
         /\ Promises.Reaction (Promises.Call (Elements.KReplaced oc nc'))
              Promises.Thrower (length (Promises.heap (machine s2))) ∈ rs'.
Proof.
  intros Hcopy Htag Hm Hu Hoc Hnc Hp.
  rewrite (elements_replace_async _ _ _ _ _ _ _ _ _ _ Hcopy Htag Hm Hu).
  assert (Hlt : result1 < length (Promises.heap (machine s2)))
    by (eapply lookup_lt_Some; eassumption).
  rewrite (run_node _ _ _ _ Hoc), run_assign.
  unfold then1. rewrite run_promises. cbn [machine with_machine with_nodes].
  erewrite then_pending by eassumption. cbn [fst snd].
  set (R := Promises.Reaction (Promises.Call (Elements.KReplaced oc nc'))
              Promises.Thrower (length (Promises.heap (machine s2)))).
  set (m1 := Promises.Machine _ _).
  assert (Hm1 : Promises.heap m1 !! result1
                = Some (Promises.Promise (Promises.Pending (rs ++ [R])) locked)).
  { subst m1. cbn [Promises.heap]. apply list_lookup_insert_eq.
    rewrite length_app. lia. }
  assert (HR : R ∈ rs ++ [R])
    by (apply elem_of_app; right; apply list_elem_of_singleton; reflexivity).
  unfold Elements.schedule. rewrite run_assign.
  assert (Hold : exists oce',
               alter (fun e : Elements.Element =>
                        Elements.set_schedules
                          (if bool_decide (Elements.KeepValue nc' ∈ Elements.schedules e)
                           then Elements.schedules e
                           else Elements.schedules e ++ [Elements.KeepValue nc']) e) oc
                 (alter (Elements.set_value (Elements.value oce)) nc' (nodes s2)) !! oc
               = Some oce'
               /\ Elements.flags oce' = Elements.flags oce
               /\ Elements.value oce' = Elements.value oce).
  { rewrite lookup_alter_eq.
    destruct (decide (oc = nc')) as [->|Hne].
    - rewrite lookup_alter_eq, Hoc. eexists. split; [reflexivity|]. split; reflexivity.
    - rewrite lookup_alter_ne by congruence. rewrite Hoc.
      eexists. split; [reflexivity|]. split; reflexivity. }
  assert (Hnew : exists nce',
               alter (fun e : Elements.Element =>
                        Elements.set_schedules
                          (if bool_decide (Elements.KeepValue nc' ∈ Elements.schedules e)
                           then Elements.schedules e
                           else Elements.schedules e ++ [Elements.KeepValue nc']) e) oc
                 (alter (Elements.set_value (Elements.value oce)) nc' (nodes s2)) !! nc'
               = Some nce'
               /\ Elements.value nce' = Elements.value oce).
  { destruct (decide (oc = nc')) as [->|Hne].
    - rewrite !lookup_alter_eq, Hnc. eexists. split; reflexivity.
    - rewrite lookup_alter_ne by congruence. rewrite lookup_alter_eq, Hnc.
      eexists. split; reflexivity. }
  destruct result as [result|]; cbn [Elements.merge].
  - rewrite !run_assoc. unfold then1. rewrite run_promises.
    cbn [machine with_machine with_nodes].
    destruct (then_keeps_reaction m1 result1 _ _ R result
                (Promises.Call (Elements.KConst (VPromise result1)))
                Promises.Thrower Hm1 HR) as (rs' & Hrs' & HR').
    rewrite !run_ret.
    eexists _, _; split; [reflexivity|].
    cbn [world nodes machine with_nodes with_machine].
    split; [reflexivity|].
    split; [intros x Hx1 Hx2; rewrite !lookup_alter_ne by congruence; reflexivity|].
    split; [exact Hold|].
    split; [exact Hnew|].
    eauto.
  - rewrite !run_ret.
    eexists _, _; split; [reflexivity|].
    cbn [world nodes machine with_nodes with_machine].
    split; [reflexivity|].
    split; [intros x Hx1 Hx2; rewrite !lookup_alter_ne by congruence; reflexivity|].
    split; [exact Hold|].
    split; [exact Hnew|].
    eauto.
Qed.

End OnElements.
End Replacing.

Section Replaced.
Import JS Runtime.

(** C3, with fulfilment in place of settlement.  A new child aligned
    with a node of another tag gets a node of its own, whose update is
    begun.  When that update returns no promise the old node is
    unmounted there and then.  When it returns a promise nothing is
    unmounted and the environment is not called: the old node is kept as
    it is ([index.ts]: as the new node's alternate, whose value a commit
    of the parent goes on reading; element based: the new element takes
    over the old value), and its unmount is the reaction to the
    fulfilment of that promise, which unmounts it first.  The reaction
    has no rejection handler: when the promise is rejected the job only
    rejects the derived promise, and the old node is left as it is. *)
Theorem replaced_child_outlives_async_update :
  (forall (W : Type) (env : Env Nodes.Node Nodes.closure W) (self : Nodes.Methods W)
          this child node0 result (s s1 : State Nodes.Node Nodes.closure W) newNode,
      Nodes.child_tag child <> Nodes.Copy ->
      Nodes.tag (nodes s !!! node0) <> Nodes.child_tag child ->
      Nodes.createNode this child s = (Promises.Normal newNode, s1) ->
      Nodes.internal (nodes s1 !!! newNode) = true ->
      (forall s2,
          Nodes.update self newNode (Nodes.child_props child) (Nodes.child_ref child) s1
          = (Promises.Normal None, s2) ->
          Nodes.update_aligned env self this child node0 result s
          = ((if Nodes.internal (nodes s !!! node0)
              then Nodes.unmount self node0 true;; mret tt else mret tt);;
             Nodes.replaceChild this newNode node0;;
             mret (newNode, result)) s2)
      /\ (forall s2 result1 rs locked,
             Nodes.update self newNode (Nodes.child_props child) (Nodes.child_ref child) s1
             = (Promises.Normal (Some result1), s2) ->
             newNode <> this ->
             Promises.heap (machine s2) !! result1
             = Some (Promises.Promise (Promises.Pending rs) locked) ->
             exists merged s',
               Nodes.update_aligned env self this child node0 result s
               = (Promises.Normal (newNode, Some merged), s')
               /\ world s' = world s2
               /\ (forall x, x <> this -> x <> newNode -> nodes s' !! x = nodes s2 !! x)
               /\ nodes s' !! newNode
                  = Nodes.set_alternate (Some node0) <$> nodes s2 !! newNode
               /\ exists rs',
                    Promises.heap (machine s') !! result1
                    = Some (Promises.Promise (Promises.Pending rs') locked)
                    /\ Promises.Reaction
                         (Promises.Call (Nodes.KUnmountAlternates newNode))
                         Promises.Thrower (length (Promises.heap (machine s2))) ∈ rs'))
  /\ (forall (W : Type) (self : Nodes.Methods W) newNode nn node0 c x
             (s : State Nodes.Node Nodes.closure W),
        nodes s !! newNode = Some nn ->
        Nodes.alternate nn = Some node0 ->
        nodes s !! node0 = Some c ->
        (Nodes.alternate c = None ->
         Nodes.deepest (size (nodes s)) (nodes s) newNode = node0)
        /\ (Nodes.internal c = true ->
            Nodes.call self (Nodes.KUnmountAlternates newNode) x s
            = (Nodes.unmount self node0 true;;
               c' ← node node0;
               Nodes.unmount_alternates self (pred (size (nodes s))) (Nodes.alternate c');;
               assign newNode (Nodes.set_alternate None);;
               mret VUndefined) s))
  /\ (forall (W : Type) (F : Elements.Flags)
             (env : Env Elements.Element Elements.closure W)
             (self : Elements.Methods W) el newChild nc oc result
             (s s1 : State Elements.Element Elements.closure W) nc',
        Elements.tag (nodes s !!! nc) <> Elements.Copy ->
        Elements.tag (nodes s !!! oc) <> Elements.tag (nodes s !!! nc) ->
        Elements.mount F nc (Some el) s = (Promises.Normal nc', s1) ->
        (forall s2,
            Elements.rec_update self nc' s1 = (Promises.Normal None, s2) ->
            Elements.update_child F env self el newChild (VOpaque nc) (VOpaque oc) result s
            = (Elements.rec_unmount self oc true;; mret (VOpaque nc', result)) s2)
        /\ (forall s2 result1 oce nce rs locked,
               Elements.rec_update self nc' s1 = (Promises.Normal (Some result1), s2) ->
               nodes s2 !! oc = Some oce ->
               nodes s2 !! nc' = Some nce ->
               Promises.heap (machine s2) !! result1
               = Some (Promises.Promise (Promises.Pending rs) locked) ->
               exists merged s',
                 Elements.update_child F env self el newChild (VOpaque nc) (VOpaque oc)
                   result s
                 = (Promises.Normal (VOpaque nc', Some merged), s')
                 /\ world s' = world s2
                 /\ (forall x, x <> oc -> x <> nc' -> nodes s' !! x = nodes s2 !! x)
                 /\ (exists oce', nodes s' !! oc = Some oce'
                                  /\ Elements.flags oce' = Elements.flags oce
                                  /\ Elements.value oce' = Elements.value oce)
                 /\ (exists nce', nodes s' !! nc' = Some nce'
                                  /\ Elements.value nce' = Elements.value oce)
                 /\ exists rs',
                      Promises.heap (machine s') !! result1
                      = Some (Promises.Promise (Promises.Pending rs') locked)
                      /\ Promises.Reaction
                           (Promises.Call (Elements.KReplaced oc nc'))
                           Promises.Thrower (length (Promises.heap (machine s2))) ∈ rs')
        /\ (forall x,
               Elements.call F self (Elements.KReplaced oc nc') x
               = (assign nc' (Elements.set_fulfilled true);;
                  Elements.rec_unmount self oc true;;
                  mret VUndefined)))
  /\ (forall (K St : Type) (machine_of : St -> Promises.machine K)
             (with_machine : Promises.machine K -> St -> St)
             (call : K -> val -> St -> Promises.completion val * St)
             (k : K) derived reason st,
        Promises.run_job machine_of with_machine call
          (Promises.ReactionJob
             (Promises.Reaction (Promises.Call k) Promises.Thrower derived)
             (Promises.Rejected reason)) st
        = Promises.lift machine_of with_machine (Promises.reject derived reason) st).
Proof.
  split; [|split; [|split]]; [| | |reflexivity].
  - intros W env self this child node0 result s s1 newNode Hcopy Htag Hc Hi. split.
    + intros s2 Hu. rewrite nodes_update_aligned_replaces by assumption.
      eapply nodes_replace_sync; eassumption.
    + intros s2 result1 rs locked Hu Hne Hp.
      rewrite nodes_update_aligned_replaces by assumption.
      eapply nodes_replace_async_effect; eassumption.
  - intros W self newNode nn node0 c x s Hnn Halt Hc. split.
    + intros Hnone. eapply nodes_deepest_alternate; eassumption.
    + intros Hi. eapply nodes_alternates_unmounted; eassumption.
  - intros W F env self el newChild nc oc result s s1 nc' Hcopy Htag Hm.
    split; [|split].
    + intros s2 Hu. eapply elements_replace_sync; eassumption.
    + intros s2 result1 oce nce rs locked Hu Hoc Hnc Hp.
      eapply elements_replace_async_effect; eassumption.
    + intros x. reflexivity.
Qed.

End Replaced.

(** [render(<div />, root)], then [render(<Slow />, root)] where [Slow]
    is an asynchronous function component: the [div] (node 1, element 0)
    is replaced by the component (node 2, element 2). *)
Definition slow_child : JS.val := Nodes.createElement [JS.VFunction 1; JS.VNull].

Definition nodes_div : Runtime.State Nodes.Node Nodes.closure Runtime.Log :=
  snd (Nodes.render (Nodes.methods (Runtime.scripted slow) 30)
         (Nodes.createElement [JS.VString "div"; JS.VNull]) the_root Runtime.initial).

Definition nodes_new
  : Promises.completion nat * Runtime.State Nodes.Node Nodes.closure Runtime.Log :=
  Nodes.createNode 0 slow_child nodes_div.

Definition nodes_begun
  : Promises.completion (option nat)
    * Runtime.State Nodes.Node Nodes.closure Runtime.Log :=
  Nodes.update (Nodes.methods (Runtime.scripted slow) 30) 2
    (Nodes.child_props slow_child) (Nodes.child_ref slow_child) (snd nodes_new).

Definition elements_div
  : Runtime.State Elements.Element Elements.closure Runtime.Log :=
  snd (Elements.createElement bits [JS.VFunction 1; JS.VNull]
         (snd (Elements.render bits (Elements.methods bits (Runtime.scripted slow) 30)
                 (JS.VOpaque 0) the_root
                 (snd (Elements.createElement bits [JS.VString "div"; JS.VNull]
                         Runtime.initial))))).

Definition elements_new
  : Promises.completion nat
    * Runtime.State Elements.Element Elements.closure Runtime.Log :=
  Elements.mount bits 2 (Some 1%nat) elements_div.

Definition elements_begun
  : Promises.completion (option nat)
    * Runtime.State Elements.Element Elements.closure Runtime.Log :=
  Elements.rec_update (Elements.methods bits (Runtime.scripted slow) 30) 2
    (snd elements_new).

Lemma replaced_child_outlives_async_update_witness :
  (exists merged s',
      Nodes.update_aligned (Runtime.scripted slow)
        (Nodes.methods (Runtime.scripted slow) 30) 0 slow_child 1 None nodes_div
      = (Promises.Normal (2%nat, Some merged), s')
      /\ Runtime.nodes s' !! 1%nat = Runtime.nodes (snd nodes_begun) !! 1%nat)
  /\ (exists merged s' old,
         Elements.update_child bits (Runtime.scripted slow)
           (Elements.methods bits (Runtime.scripted slow) 30) 1 (JS.VOpaque 2)
           (JS.VOpaque 2) (JS.VOpaque 0) None elements_div
         = (Promises.Normal (JS.VOpaque 2, Some merged), s')
         /\ Runtime.nodes s' !! 0%nat = Some old
         /\ Elements.flags old = 3%Z
         /\ Elements.value old = JS.VOpaque 7).
Proof.
  split.
  - assert (H1 : Nodes.child_tag slow_child <> Nodes.Copy) by (vm_compute; discriminate).
    assert (H2 : Nodes.tag (Runtime.nodes nodes_div !!! 1%nat) <> Nodes.child_tag slow_child)
      by (vm_compute; discriminate).
    assert (H3 : Nodes.createNode 0 slow_child nodes_div
                 = (Promises.Normal 2%nat, snd nodes_new))
      by (vm_compute; reflexivity).
    assert (H4 : Nodes.internal (Runtime.nodes (snd nodes_new) !!! 2%nat) = true)
      by (vm_compute; reflexivity).
    assert (H5 : Nodes.update (Nodes.methods (Runtime.scripted slow) 30) 2
                   (Nodes.child_props slow_child) (Nodes.child_ref slow_child)
                   (snd nodes_new)
                 = (Promises.Normal (Some 2%nat), snd nodes_begun))
      by (vm_compute; reflexivity).
    assert (H6 : { rs & { locked |
                   Promises.heap (Runtime.machine (snd nodes_begun)) !! 2%nat
                   = Some (Promises.Promise (Promises.Pending rs) locked) } })
      by (eexists; eexists; vm_compute; reflexivity).
    destruct H6 as (rs & locked & H6).
    destruct (proj2 (proj1 replaced_child_outlives_async_update Runtime.Log
                       (Runtime.scripted slow) (Nodes.methods (Runtime.scripted slow) 30)
                       0%nat slow_child 1%nat None nodes_div (snd nodes_new) 2%nat
                       H1 H2 H3 H4)
                (snd nodes_begun) 2%nat rs locked H5 ltac:(discriminate) H6)
      as (merged & s' & Heq & _ & Hsame & _).
    exists merged, s'. split; [exact Heq|]. apply Hsame; discriminate.
  - assert (H1 : Elements.tag (Runtime.nodes elements_div !!! 2%nat) <> Elements.Copy)
      by (vm_compute; discriminate).
    assert (H2 : Elements.tag (Runtime.nodes elements_div !!! 0%nat)
                 <> Elements.tag (Runtime.nodes elements_div !!! 2%nat))
      by (vm_compute; discriminate).
    assert (H3 : Elements.mount bits 2 (Some 1%nat) elements_div
                 = (Promises.Normal 2%nat, snd elements_new))
      by (vm_compute; reflexivity).
    assert (H5 : Elements.rec_update (Elements.methods bits (Runtime.scripted slow) 30) 2
                   (snd elements_new)
                 = (Promises.Normal (Some 2%nat), snd elements_begun))
      by (vm_compute; reflexivity).
    assert (H6 : { rs & { locked |
                   Promises.heap (Runtime.machine (snd elements_begun)) !! 2%nat
                   = Some (Promises.Promise (Promises.Pending rs) locked) } })
      by (eexists; eexists; vm_compute; reflexivity).
    destruct H6 as (rs & locked & H6).
    assert (H7 : { oce | Runtime.nodes (snd elements_begun) !! 0%nat = Some oce
                         /\ Elements.flags oce = 3%Z
                         /\ Elements.value oce = JS.VOpaque 7 })
      by (eexists; vm_compute; repeat split; reflexivity).
    destruct H7 as (oce & H7 & Hflags & Hvalue).
    assert (H8 : { nce | Runtime.nodes (snd elements_begun) !! 2%nat = Some nce })
      by (eexists; vm_compute; reflexivity).
    destruct H8 as (nce & H8).
    destruct (proj1 (proj2 (proj1 (proj2 (proj2 replaced_child_outlives_async_update))
                        Runtime.Log bits (Runtime.scripted slow)
                        (Elements.methods bits (Runtime.scripted slow) 30)
                        1%nat (JS.VOpaque 2) 2%nat 0%nat None elements_div
                        (snd elements_new) 2%nat H1 H2 H3))
                (snd elements_begun) 2%nat oce nce rs locked H5 H7 H8 H6)
      as (merged & s' & Heq & _ & _ & (old & Hold & Hf & Hv) & _).
    exists merged, s', old. split; [exact Heq|]. split; [exact Hold|].
    split; congruence.
Defined.

(** The whole course.  While the component's promise is pending the old
    [div] is still mounted and the root still shows its value; once the
    promise is fulfilled and the jobs have run, the [div] is unmounted
    and the root shows the new child. *)
Definition nodes_replacing
  : Promises.completion JS.val * Runtime.State Nodes.Node Nodes.closure Runtime.Log :=
  Nodes.render (Nodes.methods (Runtime.scripted slow) 30) slow_child the_root nodes_div.

Definition nodes_replaced : Runtime.State Nodes.Node Nodes.closure Runtime.Log :=
  Nodes.settle_jobs (Runtime.scripted slow) 30 100
    (Runtime.fulfil 0 (JS.VString "new") (snd nodes_replacing)).

Definition nodes_failed : Runtime.State Nodes.Node Nodes.closure Runtime.Log :=
  Nodes.settle_jobs (Runtime.scripted slow) 30 100
    (Runtime.fail 0 (JS.VString "boom") (snd nodes_replacing)).

Definition elements_replacing
  : Promises.completion JS.val
    * Runtime.State Elements.Element Elements.closure Runtime.Log :=
  Elements.render bits (Elements.methods bits (Runtime.scripted slow) 30)
    (JS.VOpaque 2) the_root elements_div.

Definition elements_replaced
  : Runtime.State Elements.Element Elements.closure Runtime.Log :=
  Elements.settle_jobs bits (Runtime.scripted slow) 30 100
    (Runtime.fulfil 0 (JS.VString "new") (snd elements_replacing)).

Definition elements_failed
  : Runtime.State Elements.Element Elements.closure Runtime.Log :=
  Elements.settle_jobs bits (Runtime.scripted slow) 30 100
    (Runtime.fail 0 (JS.VString "boom") (snd elements_replacing)).

(** Settled is not fulfilled.  When the component's promise is rejected
    and nothing in the tree takes the error, the promise of the new
    node's first update (promise 2) is rejected; with no job left, the
    old [div] is still mounted and still the new node's alternate. *)
Lemma rejected_update_leaves_old_node_mounted :
  (Promises.heap (Runtime.machine nodes_failed) !! 2%nat
   = Some (Promises.Promise (Promises.Settled (Promises.Rejected (JS.VString "boom")))
             true)
   /\ Promises.queue (Runtime.machine nodes_failed) = []
   /\ Nodes.unmounted (Runtime.nodes nodes_failed !!! 1%nat) = false
   /\ Nodes.alternate (Runtime.nodes nodes_failed !!! 2%nat) = Some 1%nat)
  /\ (Promises.heap (Runtime.machine elements_failed) !! 2%nat
      = Some (Promises.Promise
                (Promises.Settled (Promises.Rejected (JS.VString "boom"))) true)
      /\ Promises.queue (Runtime.machine elements_failed) = []
      /\ Elements.has (Elements.flags (Runtime.nodes elements_failed !!! 0%nat))
           (Elements.Unmounted bits) = false).
Proof. repeat split; vm_compute; reflexivity. Qed.

Example async_replace_example :
  (Nodes.unmounted (Runtime.nodes (snd nodes_replacing) !!! 1%nat) = false
   /\ Nodes.alternate (Runtime.nodes (snd nodes_replacing) !!! 2%nat) = Some 1%nat
   /\ Nodes.children (Runtime.nodes (snd nodes_replacing) !!! 0%nat) = [2%nat]
   /\ Nodes.childValues (Runtime.nodes (snd nodes_replacing) !!! 0%nat) = [JS.VOpaque 7]
   /\ since nodes_div (snd nodes_replacing)
      = [Runtime.Called (JS.VFunction 1) (JS.VObject []); Runtime.Deferred 0])
  /\ (Nodes.unmounted (Runtime.nodes nodes_replaced !!! 1%nat) = true
      /\ Nodes.alternate (Runtime.nodes nodes_replaced !!! 2%nat) = None
      /\ Nodes.childValues (Runtime.nodes nodes_replaced !!! 0%nat) = [JS.VString "new"])
  /\ (Elements.has (Elements.flags (Runtime.nodes (snd elements_replacing) !!! 0%nat))
        (Elements.Unmounted bits) = false
      /\ Elements.children (Runtime.nodes (snd elements_replacing) !!! 1%nat) = JS.VOpaque 2
      /\ Elements.value (Runtime.nodes (snd elements_replacing) !!! 2%nat) = JS.VOpaque 7
      /\ since elements_div (snd elements_replacing)
         = [Runtime.Called (JS.VFunction 1) (JS.VObject []); Runtime.Deferred 0])
  /\ (Elements.has (Elements.flags (Runtime.nodes elements_replaced !!! 0%nat))
        (Elements.Unmounted bits) = true
      /\ Elements.value (Runtime.nodes elements_replaced !!! 2%nat) = JS.VString "new").
Proof. repeat split; vm_compute; reflexivity. Qed.

(** ** Overlapping calls of updateChildren *)

Section Racing.
Import JS Runtime.

Section OnMachine.
Context {K : Type}.
Implicit Types m : Promises.machine K.














End OnMachine.

Section OnNodes.
Context {W : Type}.
Variable self : Nodes.Methods W.


End OnNodes.

Section OnElements.
Context {W : Type}.
Variable self : Elements.Methods W.


End OnElements.
End Racing.

Section Raced.
Import JS Runtime.


End Raced.

(** Two overlapping updates of one root: [render(<A />, root)] and,
    while [A]'s promise (0) is pending, [render(<B />, root)], whose
    promise (10) is pending too; [A] and [B] are asynchronous function
    components.  The second call's aggregate settles first. *)
Definition nodes_first
  : Promises.completion JS.val * Runtime.State Nodes.Node Nodes.closure Runtime.Log :=
  Nodes.render (Nodes.methods (Runtime.scripted slow) 30)
    (Nodes.createElement [JS.VFunction 1; JS.VNull]) the_root Runtime.initial.

Definition nodes_second
  : Promises.completion JS.val * Runtime.State Nodes.Node Nodes.closure Runtime.Log :=
  Nodes.render (Nodes.methods (Runtime.scripted slow) 30)
    (Nodes.createElement [JS.VFunction 2; JS.VNull]) the_root (snd nodes_first).




(** The same on the element based revision: [<A />] is element 0,
    [<B />] element 1 and the root element 2. *)
Definition elements_first
  : Promises.completion JS.val
    * Runtime.State Elements.Element Elements.closure Runtime.Log :=
  Elements.render bits (Elements.methods bits (Runtime.scripted slow) 30)
    (JS.VOpaque 0) the_root
    (snd (Elements.createElement bits [JS.VFunction 2; JS.VNull]
            (snd (Elements.createElement bits [JS.VFunction 1; JS.VNull]
                    Runtime.initial)))).

Definition elements_second
  : Promises.completion JS.val
    * Runtime.State Elements.Element Elements.closure Runtime.Log :=
  Elements.render bits (Elements.methods bits (Runtime.scripted slow) 30)
    (JS.VOpaque 1) the_root (snd elements_first).




Definition root_rendered (text : string) : Runtime.event :=
  Runtime.Rendered Nodes.Portal
    (JS.VObject [("root", the_root); ("children", JS.VArray [Some (JS.VString text)])]).



(** The other order: the first call's aggregate settles first.  Its
    commit shows the first call's output while the second call is
    pending, and the second call's commit replaces it later: two
    commits, in the order of settlement. *)
Example overlapping_updates_example :
  let first_settled :=
    Nodes.settle_jobs (Runtime.scripted slow) 30 100
      (Runtime.fulfil 0 (JS.VString "a") (snd nodes_second)) in
  let both_settled :=
    Nodes.settle_jobs (Runtime.scripted slow) 30 100
      (Runtime.fulfil 10 (JS.VString "b") first_settled) in
  last (since (snd nodes_second) first_settled) = Some (root_rendered "a")
  /\ last (since first_settled both_settled) = Some (root_rendered "b")
  /\ let first_settled :=
       Elements.settle_jobs bits (Runtime.scripted slow) 30 100
         (Runtime.fulfil 0 (JS.VString "a") (snd elements_second)) in
     let both_settled :=
       Elements.settle_jobs bits (Runtime.scripted slow) 30 100
         (Runtime.fulfil 10 (JS.VString "b") first_settled) in
     since (snd elements_second) first_settled = [root_rendered "a"]
     /\ since first_settled both_settled = [root_rendered "b"].
Proof. repeat split; vm_compute; reflexivity. Qed.

(** * Further properties *)

(** ** Running statements, and what a run leaves alone *)

Section Frames.
Import JS Runtime.
Context {W : Type}.

Lemma lookup_assigned {N K : Type} (s : State N K W) this (n : N) (f : N -> N) :
  nodes s !! this = Some n ->
  nodes (with_nodes (alter f this) s) !! this = Some (f n).
Proof. intros Hn. cbn. now rewrite lookup_alter_eq, Hn. Qed.

Lemma run_node_total {N K A} `{!Inhabited N} (k : N -> M N K W A) s this :
  (node this ≫= k) s = k (nodes s !!! this) s.
Proof. reflexivity. Qed.

Lemma run_all_nodes {N K A} `{!Inhabited N}
    (k : gmap nat N -> M N K W A) s :
  (all_nodes ≫= k) s = k (nodes s) s.
Proof. reflexivity. Qed.

Lemma run_bind {N K A B} `{!Inhabited N} (m : M N K W A) (k : A -> M N K W B)
    s a s' :
  m s = (Promises.Normal a, s') -> (m ≫= k) s = k a s'.
Proof. intros H. unfold mbind, M_bind. now rewrite H. Qed.

(** Two states that differ at most in what [view] hides of a node. *)
Definition agrees {N K : Type} (view : N -> N) (s s' : State N K W) : Prop :=
  fresh s' = fresh s /\ machine s' = machine s /\ cache s' = cache s
  /\ world s' = world s
  /\ forall x, view <$> nodes s' !! x = view <$> nodes s !! x.

Lemma agrees_refl {N K} (view : N -> N) (s : State N K W) : agrees view s s.
Proof. repeat split. Qed.


Lemma agrees_assign {N K} (view : N -> N) (s s' : State N K W) f this :
  (forall n, view (f n) = view n) ->
  agrees view s s' -> agrees view s (with_nodes (alter f this) s').
Proof.
  intros Hf (H1 & H2 & H3 & H4 & H5). repeat split; try assumption.
  intros x. cbn. rewrite <- H5. destruct (decide (this = x)) as [->|Hne].
  - rewrite lookup_alter_eq. destruct (nodes s' !! x); cbn; [|easy].
    now rewrite Hf.
  - now rewrite lookup_alter_ne.
Qed.

Lemma agrees_total {N K} `{!Inhabited N} (view : N -> N)
    (s s' : State N K W) x :
  agrees view s s' -> view (nodes s' !!! x) = view (nodes s !!! x).
Proof.
  intros (_ & _ & _ & _ & H). specialize (H x).
  rewrite !lookup_total_alt.
  destruct (nodes s' !! x), (nodes s !! x); cbn in *; congruence.
Qed.


End Frames.


(** ** The sibling lists of [src/index.ts]

    A [ParentNode] keeps its children in a doubly linked list:
    [firstChild] and [lastChild] on the parent, [previousSibling] and
    [nextSibling] on each child.  The four private methods that edit the
    list only assign these fields; they are embedded here as functions
    on a store of the four fields, statement by statement, each read
    taken from the store as it is at that point.  (Where the source
    reads a field twice with only assignments to other fields in
    between, the first value is used.) *)

Module Siblings.

Record Links : Type := mkLinks {
  firstChild : option nat;
  lastChild : option nat;
  previousSibling : option nat;
  nextSibling : option nat
}.

#[export] Instance Links_inhabited : Inhabited Links :=
  populate (mkLinks None None None None).

Definition set_firstChild (v : option nat) (n : Links) : Links :=
  mkLinks v (lastChild n) (previousSibling n) (nextSibling n).
Definition set_lastChild (v : option nat) (n : Links) : Links :=
  mkLinks (firstChild n) v (previousSibling n) (nextSibling n).
Definition set_previousSibling (v : option nat) (n : Links) : Links :=
  mkLinks (firstChild n) (lastChild n) v (nextSibling n).
Definition set_nextSibling (v : option nat) (n : Links) : Links :=
  mkLinks (firstChild n) (lastChild n) (previousSibling n) v.

Abbreviation Store := (gmap nat Links).

Definition appendChild (this child : nat) (st : Store) : Store :=
  match lastChild (st !!! this) with
  | None =>
      let st := alter (set_firstChild (Some child)) this st in
      let st := alter (set_lastChild (Some child)) this st in
      let st := alter (set_previousSibling None) child st in
      alter (set_nextSibling None) child st
  | Some last =>
      let st := alter (set_previousSibling (Some last)) child st in
      let st := alter (set_nextSibling None) child st in
      let st := alter (set_nextSibling (Some child)) last st in
      alter (set_lastChild (Some child)) this st
  end.

Definition insertBefore (this child : nat) (reference : option nat) (st : Store)
  : Store :=
  match reference with
  | None => appendChild this child st
  | Some reference =>
      if decide (child = reference) then st
      else
        let st := alter (set_nextSibling (Some reference)) child st in
        let st :=
          match previousSibling (st !!! reference) with
          | None =>
              let st := alter (set_previousSibling None) child st in
              alter (set_firstChild (Some child)) this st
          | Some previous =>
              let st := alter (set_previousSibling (Some previous)) child st in
              alter (set_nextSibling (Some child)) previous st
          end in
        alter (set_previousSibling (Some child)) reference st
  end.

Definition removeChild (this child : nat) (st : Store) : Store :=
  let st :=
    match previousSibling (st !!! child) with
    | None => alter (set_firstChild (nextSibling (st !!! child))) this st
    | Some previous => alter (set_nextSibling (nextSibling (st !!! child))) previous st
    end in
  let st :=
    match nextSibling (st !!! child) with
    | None => alter (set_lastChild (previousSibling (st !!! child))) this st
    | Some next => alter (set_previousSibling (previousSibling (st !!! child))) next st
    end in
  let st := alter (set_previousSibling None) child st in
  alter (set_nextSibling None) child st.

Definition replaceChild (this child reference : nat) (st : Store) : Store :=
  removeChild this reference (insertBefore this child (Some reference) st).

(** [for (let child = this.firstChild; child !== undefined;
          child = child.nextSibling)]: the nodes the loop visits, with
    the fuel bounding the walk. *)
Fixpoint forward (fuel : nat) (st : Store) (child : option nat) : list nat :=
  match fuel, child with
  | S fuel', Some c => c :: forward fuel' st (nextSibling (st !!! c))
  | _, _ => []
  end.

Definition children (st : Store) (this : nat) : list nat :=
  forward (size st) st (firstChild (st !!! this)).

(** *** Well formed lists *)

(** The two sibling fields of a node of the store. *)
Definition siblings (st : Store) (x : nat) : option (option nat * option nat) :=
  (fun n => (previousSibling n, nextSibling n)) <$> st !! x.

(** The nodes of [l] are linked in this order, after [previous] and
    before [next]. *)
Fixpoint segment (st : Store) (previous : option nat) (l : list nat)
    (next : option nat) : Prop :=
  match l with
  | [] => True
  | x :: rest =>
      siblings st x
      = Some (previous, match rest with y :: _ => Some y | [] => next end)
      /\ segment st (Some x) rest next
  end.

(** The two child fields of a node of the store. *)
Definition ends (st : Store) (x : nat) : option (option nat * option nat) :=
  (fun n => (firstChild n, lastChild n)) <$> st !! x.

(** [l] is the list of children of [this]. *)
Definition linked (st : Store) (this : nat) (l : list nat) : Prop :=
  ends st this = Some (head l, last l)
  /\ segment st None l None
  /\ NoDup l.

End Siblings.

Section SiblingLists.
Import Siblings.

Lemma siblings_alter_ends (st : Store) f k x :
  (forall n, previousSibling (f n) = previousSibling n) ->
  (forall n, nextSibling (f n) = nextSibling n) ->
  siblings (alter f k st) x = siblings st x.
Proof.
  intros Hp Hn. unfold siblings.
  destruct (decide (k = x)) as [->|Hne].
  - rewrite lookup_alter_eq. destruct (st !! x); cbn; [|easy].
    now rewrite Hp, Hn.
  - now rewrite lookup_alter_ne.
Qed.

Lemma siblings_alter_ne (st : Store) f k x :
  k <> x -> siblings (alter f k st) x = siblings st x.
Proof. intros Hne. unfold siblings. now rewrite lookup_alter_ne. Qed.

Lemma siblings_set_previous (st : Store) v x p n :
  siblings st x = Some (p, n) ->
  siblings (alter (set_previousSibling v) x st) x = Some (v, n).
Proof.
  unfold siblings. rewrite lookup_alter_eq.
  destruct (st !! x); cbn; [|easy]. congruence.
Qed.

Lemma siblings_set_next (st : Store) v x p n :
  siblings st x = Some (p, n) ->
  siblings (alter (set_nextSibling v) x st) x = Some (p, v).
Proof.
  unfold siblings. rewrite lookup_alter_eq.
  destruct (st !! x); cbn; [|easy]. congruence.
Qed.

Lemma ends_alter_siblings (st : Store) f k x :
  (forall n, firstChild (f n) = firstChild n) ->
  (forall n, lastChild (f n) = lastChild n) ->
  ends (alter f k st) x = ends st x.
Proof.
  intros Hp Hn. unfold ends.
  destruct (decide (k = x)) as [->|Hne].
  - rewrite lookup_alter_eq. destruct (st !! x); cbn; [|easy].
    now rewrite Hp, Hn.
  - now rewrite lookup_alter_ne.
Qed.

Lemma ends_set_first (st : Store) v x a b :
  ends st x = Some (a, b) ->
  ends (alter (set_firstChild v) x st) x = Some (v, b).
Proof.
  unfold ends. rewrite lookup_alter_eq.
  destruct (st !! x); cbn; [|easy]. congruence.
Qed.

Lemma ends_set_last (st : Store) v x a b :
  ends st x = Some (a, b) ->
  ends (alter (set_lastChild v) x st) x = Some (a, v).
Proof.
  unfold ends. rewrite lookup_alter_eq.
  destruct (st !! x); cbn; [|easy]. congruence.
Qed.

Lemma siblings_total (st : Store) x p n :
  siblings st x = Some (p, n) ->
  previousSibling (st !!! x) = p /\ nextSibling (st !!! x) = n.
Proof.
  unfold siblings. rewrite lookup_total_alt.
  destruct (st !! x); cbn; [|easy]. intros [= <- <-]. easy.
Qed.

Lemma ends_total (st : Store) x a b :
  ends st x = Some (a, b) ->
  firstChild (st !!! x) = a /\ lastChild (st !!! x) = b.
Proof.
  unfold ends. rewrite lookup_total_alt.
  destruct (st !! x); cbn; [|easy]. intros [= <- <-]. easy.
Qed.

Lemma segment_ext (st st' : Store) l : forall previous next,
  (forall x, x ∈ l -> siblings st' x = siblings st x) ->
  segment st previous l next -> segment st' previous l next.
Proof.
  induction l as [|x l IH]; intros previous next Hext; cbn; [easy|].
  intros [Hx Hl]. split.
  - rewrite Hext; [easy|]. now left.
  - apply IH; [|easy]. intros y Hy. apply Hext. now right.
Qed.

Lemma segment_app (st : Store) l1 l2 : forall previous next,
  segment st previous (l1 ++ l2) next
  <-> segment st previous l1 (match l2 with y :: _ => Some y | [] => next end)
      /\ segment st (match last l1 with Some x => Some x | None => previous end)
           l2 next.
Proof.
  induction l1 as [|x l1 IH]; intros previous next; cbn.
  - tauto.
  - rewrite IH. destruct l1 as [|y l1]; cbn.
    + tauto.
    + change (last (x :: y :: l1)) with (last (y :: l1)).
      destruct (last (y :: l1)) eqn:E; [tauto|].
      now apply last_None in E.
Qed.

Lemma segment_alter_ne (st : Store) f k l previous next :
  k ∉ l -> segment st previous l next ->
  segment (alter f k st) previous l next.
Proof.
  intros Hk. apply segment_ext. intros x Hx.
  apply siblings_alter_ne. intros ->. easy.
Qed.

Lemma segment_alter_ends (st : Store) f k l previous next :
  (forall n, previousSibling (f n) = previousSibling n) ->
  (forall n, nextSibling (f n) = nextSibling n) ->
  segment st previous l next ->
  segment (alter f k st) previous l next.
Proof.
  intros Hp Hn. apply segment_ext. intros x _.
  now apply siblings_alter_ends.
Qed.

Lemma segment_set_next (st : Store) v z l previous next :
  NoDup (l ++ [z]) -> segment st previous (l ++ [z]) next ->
  segment (alter (set_nextSibling v) z st) previous (l ++ [z]) v.
Proof.
  intros Hnd. rewrite !segment_app. cbn. intros [Hl [Hz _]].
  apply NoDup_app in Hnd as (_ & Hdisj & _).
  split; [|split; [|easy]].
  - apply segment_alter_ne; [|easy]. intros Hin.
    apply (Hdisj z Hin). now left.
  - eapply siblings_set_next. eassumption.
Qed.

Lemma segment_set_previous (st : Store) v z l previous next :
  NoDup (z :: l) -> segment st previous (z :: l) next ->
  segment (alter (set_previousSibling v) z st) v (z :: l) next.
Proof.
  intros Hnd [Hz Hl]. apply NoDup_cons in Hnd as [Hnin _].
  split.
  - eapply siblings_set_previous. eassumption.
  - now apply segment_alter_ne.
Qed.

Lemma segment_lookup (st : Store) l : forall previous next x,
  segment st previous l next -> x ∈ l -> is_Some (siblings st x).
Proof.
  induction l as [|y l IH]; intros previous next x; cbn.
  - intros _ Hx. now apply elem_of_nil in Hx.
  - intros [Hy Hl] Hx. apply elem_of_cons in Hx as [->|Hx].
    + eauto.
    + eapply IH; eassumption.
Qed.

End SiblingLists.

Section SiblingOperations.
Import Siblings.

Lemma siblings_of_node (st : Store) x :
  is_Some (st !! x) -> exists p n, siblings st x = Some (p, n).
Proof. intros [n Hn]. unfold siblings. rewrite Hn. cbn. eauto. Qed.

(** A parent (0) with the children 1 and 2, and a detached node 3. *)
Definition detached : Links := mkLinks None None None None.

Definition nursery : Store :=
  list_to_map [(0, detached); (1, detached); (2, detached); (3, detached)]%nat.

Definition family : Store := appendChild 0 2 (appendChild 0 1 nursery).

Lemma family_linked : linked family 0 [1; 2]%nat.
Proof.
  split; [|split].
  - vm_compute. reflexivity.
  - split; [|split]; [vm_compute; reflexivity..|exact I].
  - apply (bool_decide_unpack _). vm_compute. reflexivity.
Defined.

Lemma family_has_3 : is_Some (family !! 3%nat).
Proof. exists detached. vm_compute. reflexivity. Defined.

Lemma family_lacks_3 : 3%nat ∉ [1; 2]%nat.
Proof. apply (bool_decide_unpack _). vm_compute. reflexivity. Defined.

Ltac same_ends := rewrite ?ends_alter_siblings by reflexivity.
Ltac same_siblings := rewrite ?siblings_alter_ends by reflexivity.

(** X1. [appendChild] puts a node that is not yet a child at the end of
    the list of children, and keeps the list well formed. *)
Theorem appendChild_links_at_end (st : Store) (this child : nat) (l : list nat) :
  linked st this l -> child ∉ l -> is_Some (st !! child) ->
  linked (appendChild this child st) this (l ++ [child]).
Proof.
  intros (He & Hs & Hnd) Hnin Hc.
  destruct (siblings_of_node st child Hc) as (p & n & Hsc).
  destruct (ends_total _ _ _ _ He) as [_ Hlast].
  unfold appendChild. rewrite Hlast.
  destruct l as [|z l _] using rev_ind.
  - cbn. split; [|split].
    + same_ends. eapply ends_set_last, ends_set_first, He.
    + split; [|easy].
      eapply siblings_set_next, siblings_set_previous. same_siblings. exact Hsc.
    + apply NoDup_singleton.
  - rewrite last_snoc in *. 
    assert (Hzc : z <> child).
    { intros ->. apply Hnin, elem_of_app. right. now left. }
    split; [|split].
    + rewrite last_snoc. eapply ends_set_last.
      same_ends. rewrite He. f_equal. f_equal.
      destruct l; reflexivity.
    + apply segment_app. split.
      * apply segment_alter_ends; [easy..|].
        apply segment_set_next with (next := None); [easy|].
        now do 2 (apply segment_alter_ne; [easy|]).
      * rewrite last_snoc. split; [|easy]. same_siblings.
        rewrite siblings_alter_ne by easy.
        eapply siblings_set_next, siblings_set_previous, Hsc.
    + apply NoDup_app. split; [easy|]. split; [|apply NoDup_singleton].
      intros x Hx Hx'. apply list_elem_of_singleton in Hx'. now subst.
Qed.

Lemma appendChild_links_at_end_witness :
  linked (appendChild 0 3 family) 0 ([1; 2] ++ [3])%nat.
Proof.
  apply (appendChild_links_at_end family 0%nat 3%nat [1; 2]%nat).
  - exact family_linked.
  - exact family_lacks_3.
  - exact family_has_3.
Defined.

Lemma insert_before_split (child reference : nat) (l1 l2 : list nat) :
  reference ∉ l1 ->
  Nodes.insert_before child reference (l1 ++ reference :: l2)
  = l1 ++ child :: reference :: l2.
Proof.
  induction l1 as [|x l1 IH]; intros Hnin; cbn.
  - now rewrite decide_True.
  - apply not_elem_of_cons in Hnin as [Hne Hnin].
    rewrite decide_False by congruence. now rewrite IH.
Qed.

Lemma NoDup_split (x : nat) (l1 l2 : list nat) :
  NoDup (l1 ++ x :: l2) <-> (x ∉ l1) /\ (x ∉ l2) /\ NoDup (l1 ++ l2).
Proof.
  rewrite <- Permutation_middle, NoDup_cons, not_elem_of_app. tauto.
Qed.

Lemma insertBefore_linked
    (st : Store) (this child reference : nat) (l1 l2 : list nat) :
  linked st this (l1 ++ reference :: l2) ->
  child ∉ l1 ++ reference :: l2 -> is_Some (st !! child) ->
  linked (insertBefore this child (Some reference) st) this
    (l1 ++ child :: reference :: l2).
Proof.
  intros (He & Hs & Hnd) Hnin Hc.
  destruct (siblings_of_node st child Hc) as (p & n & Hsc).
  pose proof Hnd as Hnd'.
  apply NoDup_split in Hnd' as (Hr1 & Hr2 & Hnd12).
  assert (Hcr : child <> reference).
  { intros ->. apply Hnin, elem_of_app. right. now left. }
  apply not_elem_of_app in Hnin as [Hc1 Hc2].
  apply not_elem_of_cons in Hc2 as [_ Hc2].
  apply segment_app in Hs as [Hs1 Hs2].
  pose proof Hs2 as [Hsr Hs2'].
  assert (Hndr : NoDup (reference :: l2)).
  { apply NoDup_app in Hnd as (_ & _ & Hnd). exact Hnd. }
  assert (Hcr2 : child ∉ reference :: l2).
  { apply not_elem_of_cons. easy. }
  cbn [insertBefore]. rewrite decide_False by easy. cbv zeta.
  assert (Hprev : previousSibling
            (alter (set_nextSibling (Some reference)) child st !!! reference)
          = match last l1 with Some x => Some x | None => None end).
  { eapply siblings_total. rewrite siblings_alter_ne by easy. exact Hsr. }
  rewrite Hprev.
  destruct l1 as [|z l1 _] using rev_ind.
  - cbn [last app]. cbn [app] in He. split; [|split].
    + same_ends. eapply ends_set_first. same_ends. exact He.
    + split.
      * rewrite siblings_alter_ne by easy. same_siblings.
        eapply siblings_set_previous, siblings_set_next, Hsc.
      * apply segment_set_previous with (previous := None); [easy|].
        apply segment_alter_ends; [easy..|].
        now do 2 (apply segment_alter_ne; [easy|]).
    + apply NoDup_cons. split; [|easy]. easy.
  - rewrite last_snoc in *.
    assert (Hzc : z <> child).
    { intros ->. apply Hc1, elem_of_app. right. now left. }
    assert (Hzr : z <> reference).
    { intros ->. apply Hr1, elem_of_app. right. now left. }
    split; [|split].
    + same_ends. rewrite He. f_equal. f_equal.
      * destruct l1; reflexivity.
      * now rewrite !last_app_cons.
    + apply segment_app. rewrite last_snoc. split; [|split].
      * apply segment_alter_ne; [easy|].
        apply segment_set_next with (next := Some reference).
        { apply NoDup_app in Hnd as (Hnd & _). exact Hnd. }
        now do 2 (apply segment_alter_ne; [easy|]).
      * rewrite !siblings_alter_ne by easy.
        eapply siblings_set_previous, siblings_set_next, Hsc.
      * apply segment_set_previous with (previous := Some z); [easy|].
        assert (Hz2 : z ∉ reference :: l2).
        { apply NoDup_app in Hnd as (_ & Hnd & _). apply Hnd.
          apply elem_of_app. right. now left. }
        now do 3 (apply segment_alter_ne; [easy|]).
    + apply NoDup_split. split; [easy|]. split; [easy|]. exact Hnd.
Qed.

Lemma filter_ne_absent (x : nat) (l : list nat) :
  x ∉ l -> filter (fun y => y <> x) l = l.
Proof.
  induction l as [|y l IH]; intros Hnin; [reflexivity|].
  apply not_elem_of_cons in Hnin as [Hne Hnin].
  rewrite filter_cons_True by congruence. now rewrite IH.
Qed.

Lemma filter_ne_split (x : nat) (l1 l2 : list nat) :
  x ∉ l1 -> x ∉ l2 ->
  filter (fun y => y <> x) (l1 ++ x :: l2) = l1 ++ l2.
Proof.
  intros H1 H2. rewrite filter_app, filter_cons_False by (intros H; now apply H).
  now rewrite !filter_ne_absent.
Qed.

Lemma removeChild_linked (st : Store) (this child : nat) (l1 l2 : list nat) :
  linked st this (l1 ++ child :: l2) ->
  linked (removeChild this child st) this (l1 ++ l2)
  /\ siblings (removeChild this child st) child = Some (None, None).
Proof.
  intros (He & Hs & Hnd).
  pose proof Hnd as Hnd'.
  apply NoDup_split in Hnd' as (Hc1 & Hc2 & Hnd12).
  apply segment_app in Hs as [Hs1 [Hsc Hs2]].
  destruct (siblings_total _ _ _ _ Hsc) as [Hp Hn].
  unfold removeChild. rewrite Hp, Hn. clear Hp Hn.
  destruct l1 as [|z l1 _] using rev_ind.
  - cbn [last app] in *.
    set (st1 := alter (set_firstChild _) this st).
    assert (Hsc1 : siblings st1 child = siblings st child).
    { subst st1. now same_siblings. }
    rewrite Hsc in Hsc1.
    destruct (siblings_total _ _ _ _ Hsc1) as [Hp Hn].
    rewrite Hp, Hn. clear Hp Hn.
    destruct l2 as [|y l2].
    + split; [split; [|split]|].
      * same_ends. eapply ends_set_last. subst st1.
        eapply ends_set_first, He.
      * exact I.
      * exact Hnd12.
      * eapply siblings_set_next, siblings_set_previous. same_siblings.
        exact Hsc1.
    + apply not_elem_of_cons in Hc2 as [Hcy Hc2].
      split; [split; [|split]|].
      * same_ends. subst st1. eapply ends_set_first, He.
      * do 2 (apply segment_alter_ne; [apply not_elem_of_cons; easy|]).
        apply segment_set_previous with (previous := Some child); [easy|].
        subst st1. apply segment_alter_ends; [easy..|]. exact Hs2.
      * exact Hnd12.
      * eapply siblings_set_next, siblings_set_previous.
        rewrite siblings_alter_ne by easy. exact Hsc1.
  - rewrite last_snoc in *.
    assert (Hzc : z <> child).
    { intros ->. apply Hc1, elem_of_app. right. now left. }
    set (st1 := alter (set_nextSibling _) z st).
    assert (Hsc1 : siblings st1 child = siblings st child).
    { subst st1. now rewrite siblings_alter_ne. }
    rewrite Hsc in Hsc1.
    destruct (siblings_total _ _ _ _ Hsc1) as [Hp Hn].
    rewrite Hp, Hn. clear Hp Hn.
    assert (Hnd1 : NoDup (l1 ++ [z])).
    { apply NoDup_app in Hnd12 as (Hnd1 & _). exact Hnd1. }
    destruct l2 as [|y l2].
    + rewrite app_nil_r. split; [split; [|split]|].
      * same_ends. rewrite last_snoc. eapply ends_set_last. subst st1.
        same_ends. rewrite He. f_equal. f_equal. destruct l1; reflexivity.
      * do 2 (apply segment_alter_ne; [easy|]).
        apply segment_alter_ends; [easy..|]. subst st1.
        now apply segment_set_next with (next := Some child).
      * exact Hnd1.
      * eapply siblings_set_next, siblings_set_previous. same_siblings.
        exact Hsc1.
    + apply not_elem_of_cons in Hc2 as [Hcy Hc2].
      assert (Hyl : y ∉ l1 ++ [z]).
      { apply NoDup_app in Hnd12 as (_ & Hd & _). intros Hy.
        apply (Hd y Hy). now left. }
      assert (Hzl : z ∉ y :: l2).
      { apply NoDup_app in Hnd12 as (_ & Hd & _). apply Hd.
        apply elem_of_app. right. now left. }
      split; [split; [|split]|].
      * same_ends. subst st1. same_ends. rewrite He. f_equal. f_equal.
        -- destruct l1; reflexivity.
        -- now rewrite !last_app_cons.
      * apply segment_app. rewrite last_snoc. split.
        -- do 3 (apply segment_alter_ne; [easy|]). subst st1.
           now apply segment_set_next with (next := Some child).
        -- do 2 (apply segment_alter_ne; [apply not_elem_of_cons; easy|]).
           apply segment_set_previous with (previous := Some child).
           { apply NoDup_app in Hnd12 as (_ & _ & H2). exact H2. }
           subst st1. now apply segment_alter_ne.
      * exact Hnd12.
      * eapply siblings_set_next, siblings_set_previous.
        rewrite siblings_alter_ne by easy. exact Hsc1.
Qed.

(** X2. [insertBefore] links a node that is not yet a child just before
    a child of the list, and keeps the list well formed. *)
Theorem insertBefore_links_before_reference
    (st : Store) (this child reference : nat) (l : list nat) :
  linked st this l -> reference ∈ l -> child ∉ l -> is_Some (st !! child) ->
  linked (insertBefore this child (Some reference) st) this
    (Nodes.insert_before child reference l).
Proof.
  intros Hl Hin Hnin Hc.
  apply list_elem_of_split in Hin as (l1 & l2 & ->).
  assert (Hr1 : reference ∉ l1).
  { destruct Hl as (_ & _ & Hnd). now apply NoDup_split in Hnd. }
  rewrite insert_before_split by exact Hr1.
  now apply insertBefore_linked.
Qed.

Lemma insertBefore_links_before_reference_witness :
  linked (insertBefore 0 3 (Some 2%nat) family) 0
    (Nodes.insert_before 3 2 [1; 2]%nat).
Proof.
  apply (insertBefore_links_before_reference family 0%nat 3%nat 2%nat [1; 2]%nat).
  - exact family_linked.
  - apply (bool_decide_unpack _). vm_compute. reflexivity.
  - exact family_lacks_3.
  - exact family_has_3.
Defined.

(** X3. [removeChild] takes a child out of the list, keeps the others
    in their order and the list well formed, and clears the sibling
    fields of the removed node. *)
Theorem removeChild_unlinks (st : Store) (this child : nat) (l : list nat) :
  linked st this l -> child ∈ l ->
  linked (removeChild this child st) this (filter (fun x => x <> child) l)
  /\ siblings (removeChild this child st) child = Some (None, None).
Proof.
  intros Hl Hin.
  apply list_elem_of_split in Hin as (l1 & l2 & ->).
  assert (Hnd : NoDup (l1 ++ child :: l2)) by apply Hl.
  apply NoDup_split in Hnd as (Hc1 & Hc2 & _).
  rewrite filter_ne_split by easy.
  now apply removeChild_linked.
Qed.

Lemma removeChild_unlinks_witness :
  linked (removeChild 0 1 family) 0 (filter (fun x => x <> 1%nat) [1; 2]%nat)
  /\ siblings (removeChild 0 1 family) 1 = Some (None, None).
Proof.
  apply (removeChild_unlinks family 0%nat 1%nat [1; 2]%nat).
  - exact family_linked.
  - apply (bool_decide_unpack _). vm_compute. reflexivity.
Defined.

Lemma substitute_absent (child reference : nat) (l : list nat) :
  reference ∉ l ->
  (fun x => if decide (x = reference) then child else x) <$> l = l.
Proof.
  induction l as [|x l IH]; intros Hnin; [reflexivity|].
  apply not_elem_of_cons in Hnin as [Hne Hnin]. cbn.
  rewrite decide_False by congruence. f_equal. now apply IH.
Qed.

(** X4. [replaceChild] puts a node that is not yet a child in the place
    of a child: the other children keep their places, the list stays
    well formed and the sibling fields of the replaced node are
    cleared. *)
Theorem replaceChild_takes_the_place
    (st : Store) (this child reference : nat) (l : list nat) :
  linked st this l -> reference ∈ l -> child ∉ l -> is_Some (st !! child) ->
  linked (replaceChild this child reference st) this
    ((fun x => if decide (x = reference) then child else x) <$> l)
  /\ siblings (replaceChild this child reference st) reference
     = Some (None, None).
Proof.
  intros Hl Hin Hnin Hc. unfold replaceChild.
  apply list_elem_of_split in Hin as (l1 & l2 & ->).
  assert (Hnd : NoDup (l1 ++ reference :: l2)) by apply Hl.
  apply NoDup_split in Hnd as (Hr1 & Hr2 & _).
  rewrite fmap_app, fmap_cons, decide_True by reflexivity.
  rewrite !substitute_absent by easy.
  replace (l1 ++ child :: l2) with ((l1 ++ [child]) ++ l2)
    by now rewrite <- app_assoc.
  apply removeChild_linked.
  rewrite <- app_assoc. now apply insertBefore_linked.
Qed.

Lemma replaceChild_takes_the_place_witness :
  linked (replaceChild 0 3 1 family) 0
    ((fun x => if decide (x = 1%nat) then 3%nat else x) <$> [1; 2]%nat)
  /\ siblings (replaceChild 0 3 1 family) 1 = Some (None, None).
Proof.
  apply (replaceChild_takes_the_place family 0%nat 3%nat 1%nat [1; 2]%nat).
  - exact family_linked.
  - apply (bool_decide_unpack _). vm_compute. reflexivity.
  - exact family_lacks_3.
  - exact family_has_3.
Defined.

Lemma forward_segment (st : Store) (l : list nat) : forall previous fuel,
  segment st previous l None -> length l <= fuel ->
  forward fuel st (head l) = l.
Proof.
  induction l as [|x l IH]; intros previous fuel Hs Hlen.
  - now destruct fuel.
  - destruct fuel as [|fuel]; [cbn in Hlen; lia|].
    destruct Hs as [Hx Hs]. cbn in Hlen. cbn.
    destruct (siblings_total _ _ _ _ Hx) as [_ ->].
    f_equal. rewrite <- (IH (Some x) fuel Hs) at 2 by lia.
    now destruct l.
Qed.

Lemma segment_nodes (st : Store) (l : list nat) previous next x :
  segment st previous l next -> x ∈ l -> is_Some (st !! x).
Proof.
  intros Hs Hx. destruct (segment_lookup _ _ _ _ _ Hs Hx) as [v Hv].
  unfold siblings in Hv. destruct (st !! x); [eauto|easy].
Qed.

Lemma NoDup_nodes_size (st : Store) (l : list nat) :
  NoDup l -> (forall x, x ∈ l -> is_Some (st !! x)) -> length l <= size st.
Proof.
  intros Hnd Hin.
  rewrite <- (size_list_to_set (C := gset nat) l Hnd), <- size_dom.
  apply subseteq_size. intros x Hx.
  apply elem_of_list_to_set in Hx. apply elem_of_dom. now apply Hin.
Qed.

Lemma next_in_segment (st : Store) (l : list nat) : forall previous x,
  segment st previous l None -> NoDup l -> x ∈ l ->
  nextSibling (st !!! x) = Nodes.next_in l x.
Proof.
  induction l as [|y l IH]; intros previous x Hs Hnd Hx.
  - now apply elem_of_nil in Hx.
  - destruct Hs as [Hy Hs]. apply NoDup_cons in Hnd as [Hyl Hnd]. cbn.
    destruct (decide (y = x)) as [->|Hne].
    + destruct (siblings_total _ _ _ _ Hy) as [_ ->]. now destruct l.
    + apply elem_of_cons in Hx as [->|Hx]; [easy|]. eapply IH; eassumption.
Qed.

(** X5. On a well formed list the loop from [firstChild] along
    [nextSibling] visits the children in order, each once, and the
    [nextSibling] of a child is the element after it in that list. *)
Theorem sibling_loop_visits_children (st : Store) (this : nat) (l : list nat) :
  linked st this l ->
  children st this = l
  /\ forall x, x ∈ l -> nextSibling (st !!! x) = Nodes.next_in l x.
Proof.
  intros (He & Hs & Hnd). split.
  - unfold children. destruct (ends_total _ _ _ _ He) as [-> _].
    apply forward_segment with (previous := None); [easy|].
    apply NoDup_nodes_size; [easy|]. intros x Hx.
    exact (segment_nodes _ _ _ _ _ Hs Hx).
  - intros x. now apply next_in_segment with (previous := None).
Qed.

Lemma sibling_loop_visits_children_witness :
  children family 0 = [1; 2]%nat
  /\ forall x, x ∈ [1; 2]%nat ->
       nextSibling (family !!! x) = Nodes.next_in [1; 2]%nat x.
Proof.
  apply (sibling_loop_visits_children family 0%nat [1; 2]%nat).
  exact family_linked.
Defined.

End SiblingOperations.

(** ** Children as the reconciler sees them *)

Section Flattening.
Import JS.

(** [NormalizedChild = Element | string | undefined] *)
Definition is_normalized (child : val) : bool :=
  match child with
  | VUndefined | VString _ | VElement _ _ _ _ => true
  | _ => false
  end.

Lemma normalize_is_normalized (child : val) :
  is_normalized (Nodes.normalize child) = true.
Proof. now destruct child. Qed.

Lemma fragment_is_normalized (child : val) :
  is_normalized (Nodes.createElement [Nodes.Fragment; VNull; child]) = true.
Proof. reflexivity. Qed.

(** X6. Whatever the children are, [flatten] yields only [undefined],
    strings and elements; an array yields one child per entry, a
    nested array as one Fragment element holding it, and [null] or
    [undefined] yield nothing. *)
Theorem flatten_yields_normalized_children :
  (forall children,
     Forall (fun child => is_normalized child = true) (Nodes.flatten children))
  /\ (forall items, length (Nodes.flatten (VArray items)) = length items)
  /\ (forall before nested after,
        Nodes.flatten (VArray (before ++ Some (VArray nested) :: after))
          !! length before
        = Some (VElement Nodes.Fragment [("children", VArray nested)]
                  VUndefined VUndefined))
  /\ Nodes.flatten VNull = [] /\ Nodes.flatten VUndefined = [].
Proof.
  split; [|split; [|split; [|split]]]; try reflexivity.
  - intros children. unfold Nodes.flatten.
    destruct (nullish children); [constructor|].
    destruct (isNonStringIterable children).
    + apply Forall_forall. intros child Hin.
      apply list_elem_of_fmap in Hin as (x & -> & _).
      destruct (isNonStringIterable x).
      * apply fragment_is_normalized.
      * apply normalize_is_normalized.
    + repeat constructor. apply normalize_is_normalized.
  - intros items. unfold Nodes.flatten. cbn. now rewrite !length_map.
  - intros before nested after. unfold Nodes.flatten. cbn.
    change (map ?f ?l) with (f <$> l).
    rewrite !list_lookup_fmap, list_lookup_middle by reflexivity.
    reflexivity.
Qed.

End Flattening.

(** ** A generator component that has returned *)

Section Finished.
Import JS Runtime.
Context {W : Type}.

Lemma nodes_provide_props (s : State Nodes.Node Nodes.closure W) this n :
  nodes s !! this = Some n ->
  exists s' n',
    Nodes.provide_props this s = (Promises.Normal tt, s')
    /\ nodes s' !! this = Some n'
    /\ world s' = world s
    /\ Nodes.cls n' = Nodes.cls n
    /\ Nodes.finished n' = Nodes.finished n
    /\ Nodes.inflightPending n' = Nodes.inflightPending n
    /\ Nodes.props n' = Nodes.props n.
Proof.
  intros Hn. unfold Nodes.provide_props. rewrite (run_node _ _ _ _ Hn).
  destruct (Nodes.onProps n) as [p|].
  - eexists _, _. split; [reflexivity|].
    split; [cbn; rewrite lookup_alter_eq, Hn; reflexivity|easy].
  - eexists _, _. split; [reflexivity|].
    split; [cbn; rewrite lookup_alter_eq, Hn; reflexivity|easy].
Qed.

Lemma nodes_update_finished (s : State Nodes.Node Nodes.closure W)
    this n (props ref : val) :
  nodes s !! this = Some n ->
  Nodes.cls n = Nodes.ComponentNode ->
  Nodes.finished n = true ->
  Nodes.inflightPending n = None ->
  exists s' n',
    (forall env fuel,
       Nodes.update (Nodes.methods env (S (S (S fuel)))) this props ref s
       = (Promises.Normal None, s'))
    /\ world s' = world s
    /\ nodes s' !! this = Some n'
    /\ Nodes.props n' = props
    /\ Nodes.finished n' = true.
Proof.
  intros Hn Hc Hf Hi.
  set (n1 := Nodes.set_updating true (Nodes.set_ref ref (Nodes.set_props props n))).
  set (s1 := with_nodes (alter (Nodes.set_updating true) this)
               (with_nodes (alter (Nodes.set_ref ref) this)
                  (with_nodes (alter (Nodes.set_props props) this) s))).
  assert (H1 : nodes s1 !! this = Some n1).
  { subst s1 n1. now do 3 apply lookup_assigned. }
  destruct (nodes_provide_props s1 this n1 H1)
    as (s2 & n2 & Hp & H2 & Hw & Hc2 & Hf2 & Hi2 & Hp2).
  exists (with_nodes (alter (Nodes.set_inflightResult None) this) s2),
         (Nodes.set_inflightResult None n2).
  split; [|split; [|split; [|split]]].
  - intros env fuel. cbn [Nodes.methods Nodes.dispatch Nodes.update].
    rewrite (run_node _ _ _ _ Hn), Hc.
    unfold Nodes.ComponentNode_update.
    rewrite ?run_assoc, run_assign, ?run_assoc, run_assign, ?run_assoc, run_assign.
    fold s1. unfold mbind at 1, M_bind at 1. rewrite Hp.
    cbn [Nodes.run Nodes.dispatch]. unfold Nodes.ComponentNode_run.
    rewrite (run_node _ _ _ _ H2), Hi2. cbn [Nodes.inflightPending n1 Nodes.set_updating Nodes.set_ref Nodes.set_props].
    rewrite Hi. cbn [Nodes.step Nodes.dispatch].
    unfold Nodes.ComponentNode_step at 1.
    rewrite ?run_assoc, (run_node _ _ _ _ H2), Hf2.
    cbn [Nodes.finished n1 Nodes.set_updating Nodes.set_ref Nodes.set_props].
    rewrite Hf. rewrite run_ret. cbv beta iota.
    rewrite ?run_assoc, run_ret, run_assign.
    erewrite run_node by (apply lookup_assigned; exact H2).
    reflexivity.
  - cbn. exact Hw.
  - now apply lookup_assigned.
  - cbn. rewrite Hp2. reflexivity.
  - cbn. rewrite Hf2. exact Hf.
Qed.

Lemma has_add (word mask bit : Z) :
  Elements.has word bit = true ->
  Elements.has (Elements.add word mask) bit = true.
Proof.
  unfold Elements.has, Elements.add.
  rewrite !negb_true_iff, !Z.eqb_neq, Z.land_lor_distr_l, Z.lor_eq_0_iff.
  tauto.
Qed.

Lemma elements_update_finished (F : Elements.Flags)
    (s : State Elements.Element Elements.closure W) el e :
  nodes s !! el = Some e ->
  Elements.ctx e = true ->
  Elements.has (Elements.flags e) (Elements.Finished F) = true ->
  Elements._inflightPending e = None ->
  exists s' e',
    (forall env fuel,
       Elements.update F (Elements.methods F env (S (S fuel))) el s
       = (Promises.Normal None, s'))
    /\ world s' = world s
    /\ nodes s' !! el = Some e'
    /\ Elements.props e' = Elements.props e
    /\ Elements.has (Elements.flags e') (Elements.Finished F) = true.
Proof.
  intros He Hc Hf Hi.
  pose (f := fun e => Elements.set_flags
                       (Elements.add (Elements.flags e) (Elements.Updating F)) e).
  pose (e1 := f e).
  pose (s1 := with_nodes (alter f el) s).
  assert (H1 : nodes s1 !! el = Some e1) by exact (lookup_assigned s el e f He).
  assert (Hf1 : Elements.has (Elements.flags e1) (Elements.Finished F) = true)
    by now apply has_add.
  assert (Hstart : forall self,
    Elements.update F self el s = Elements.refresh F self el s1).
  { intros self. unfold Elements.update, Elements.raise.
    rewrite run_assign. change (with_nodes _ s) with s1.
    rewrite (run_node _ _ _ _ H1).
    change (Elements.ctx e1) with (Elements.ctx e). now rewrite Hc. }
  destruct (Elements.has (Elements.flags e1)
              (Z.lor (Elements.Stepping F) (Elements.Unmounted F))) eqn:Hg.
  - exists s1, e1. split; [|easy].
    intros env fuel. rewrite Hstart. unfold Elements.refresh.
    now rewrite (run_node _ _ _ _ H1), Hg.
  - assert (Hrun : forall env fuel
                     (s2 : State Elements.Element Elements.closure W) e2,
      nodes s2 !! el = Some e2 ->
      Elements._inflightPending e2 = None ->
      Elements.has (Elements.flags e2) (Elements.Finished F) = true ->
      Elements.rec_run (Elements.methods F env (S (S fuel))) el s2
      = (Promises.Normal None, s2)).
    { intros env fuel s2 e2 H2 Hi2 Hf2.
      cbn [Elements.methods Elements.unfold Elements.rec_run].
      unfold Elements.run. rewrite (run_node _ _ _ _ H2), Hi2.
      cbn [Elements.rec_step Elements.unfold].
      unfold Elements.step at 1.
      rewrite ?run_assoc, (run_node _ _ _ _ H2), Hf2. reflexivity. }
    destruct (Elements._onProps e1) as [p|] eqn:Ho.
    + eexists _, _. split; [|split; [|split; [|split]]].
      * intros env fuel. rewrite Hstart. unfold Elements.refresh.
        rewrite (run_node _ _ _ _ H1), Hg, Ho.
        unfold mbind at 1, M_bind at 1. cbn [promises_ assign mbind M_bind].
        apply Hrun with (e2 := Elements.set_onProps None e1).
        -- cbn. now rewrite lookup_alter_eq, lookup_alter_eq, He.
        -- exact Hi.
        -- exact Hf1.
      * reflexivity.
      * cbn. now rewrite lookup_alter_eq, lookup_alter_eq, He.
      * reflexivity.
      * exact Hf1.
    + eexists _, _. split; [|split; [|split; [|split]]].
      * intros env fuel. rewrite Hstart. unfold Elements.refresh.
        rewrite (run_node _ _ _ _ H1), Hg, Ho.
        unfold Elements.raise. rewrite run_assign.
        eapply Hrun.
        -- apply lookup_assigned. exact H1.
        -- exact Hi.
        -- cbn. now apply has_add.
      * reflexivity.
      * apply lookup_assigned. exact H1.
      * reflexivity.
      * cbn. now apply has_add.
Qed.

End Finished.

(** X7. Updating a generator component that has returned never calls
    the component or its iterator again: whatever the environment,
    [update] stores what it is given, returns [undefined] at once and
    leaves the environment's state alone. *)
Theorem finished_component_is_not_resumed :
  (forall (W : Type) (s : Runtime.State Nodes.Node Nodes.closure W)
          this n (props ref : JS.val),
      Runtime.nodes s !! this = Some n ->
      Nodes.cls n = Nodes.ComponentNode ->
      Nodes.finished n = true ->
      Nodes.inflightPending n = None ->
      exists s' n',
        (forall env fuel,
           Nodes.update (Nodes.methods env (S (S (S fuel)))) this props ref s
           = (Promises.Normal None, s'))
        /\ Runtime.world s' = Runtime.world s
        /\ Runtime.nodes s' !! this = Some n'
        /\ Nodes.props n' = props
        /\ Nodes.finished n' = true)
  /\ (forall (W : Type) (F : Elements.Flags)
             (s : Runtime.State Elements.Element Elements.closure W) el e,
        Runtime.nodes s !! el = Some e ->
        Elements.ctx e = true ->
        Elements.has (Elements.flags e) (Elements.Finished F) = true ->
        Elements._inflightPending e = None ->
        exists s' e',
          (forall env fuel,
             Elements.update F (Elements.methods F env (S (S fuel))) el s
             = (Promises.Normal None, s'))
          /\ Runtime.world s' = Runtime.world s
          /\ Runtime.nodes s' !! el = Some e'
          /\ Elements.props e' = Elements.props e
          /\ Elements.has (Elements.flags e') (Elements.Finished F) = true).
Proof.
  split.
  - intros W s this n props ref. apply nodes_update_finished.
  - intros W F s el e. apply elements_update_finished.
Qed.

Definition finished_component : Nodes.Node :=
  Nodes.set_finished true
    (Nodes.blank Nodes.ComponentNode (JS.VFunction 0) JS.VUndefined None).

Definition finished_element : Elements.Element :=
  Elements.set_ctx true
    (Elements.set_flags (Z.lor (Elements.Mounted bits) (Elements.Finished bits))
       (Elements.new_Element 0 (JS.VFunction 0) (JS.VObject []) JS.VUndefined
          JS.VUndefined)).

Lemma finished_component_is_not_resumed_witness :
  (exists s' n',
     (forall env fuel,
        Nodes.update (Nodes.methods env (S (S (S fuel)))) 0
          (JS.VObject [("title", JS.VString "b")]) JS.VUndefined
          (one_node finished_component)
        = (Promises.Normal None, s'))
     /\ Runtime.world s' = Runtime.world (one_node finished_component)
     /\ Runtime.nodes s' !! 0%nat = Some n'
     /\ Nodes.props n' = JS.VObject [("title", JS.VString "b")]
     /\ Nodes.finished n' = true)
  /\ (exists s' e',
        (forall env fuel,
           Elements.update bits (Elements.methods bits env (S (S fuel))) 0
             (one_element finished_element)
           = (Promises.Normal None, s'))
        /\ Runtime.world s' = Runtime.world (one_element finished_element)
        /\ Runtime.nodes s' !! 0%nat = Some e'
        /\ Elements.props e' = Elements.props finished_element
        /\ Elements.has (Elements.flags e') (Elements.Finished bits) = true).
Proof.
  split.
  - apply (proj1 finished_component_is_not_resumed) with (n := finished_component);
      reflexivity.
  - apply (proj2 finished_component_is_not_resumed) with (e := finished_element);
      reflexivity.
Defined.

(** ** Mounting an element twice *)

Section Mounting.
Import JS Runtime.
Context {W : Type}.
Variable F : Elements.Flags.

Lemma elements_mount_clones (s : State Elements.Element Elements.closure W)
    el e (parent : option nat) :
  nodes s !! el = Some e ->
  Elements.has (Elements.flags e) (Elements.Mounted F) = true ->
  el < fresh s ->
  exists s' e',
    Elements.mount F el parent s = (Promises.Normal (fresh s), s')
    /\ nodes s' !! el = Some e
    /\ nodes s' !! fresh s = Some e'
    /\ fresh s' = S (fresh s)
    /\ e' = Elements.set_ctx (is_function (Elements.tag e))
              (Elements.set_parent parent
                 (Elements.set_flags
                    (Elements.add (Elements.Initial F) (Elements.Mounted F))
                    (Elements.new_Element (Elements.Initial F)
                       (Elements.tag e) (Elements.props e)
                       (Elements.key e) (Elements.ref e)))).
Proof.
  intros He Hm Hlt.
  assert (Hne : fresh s <> el) by lia.
  unfold Elements.mount. rewrite (run_node _ _ _ _ He), Hm.
  set (e0 := Elements.new_Element (Elements.Initial F) (Elements.tag e)
               (Elements.props e) (Elements.key e) (Elements.ref e)).
  unfold alloc at 1, mbind at 1, M_bind at 1.
  unfold Elements.raise. rewrite run_assign, run_assign.
  match goal with |- context [(node (fresh s) ≫= _) ?st] => set (s2 := st) end.
  set (e2 := Elements.set_parent parent
               (Elements.set_flags
                  (Elements.add (Elements.Initial F) (Elements.Mounted F)) e0)).
  assert (H2 : nodes s2 !! fresh s = Some e2).
  { subst s2. cbn. now rewrite !lookup_alter_eq, lookup_insert_eq. }
  rewrite (run_node _ _ _ _ H2).
  change (Elements.tag e2) with (Elements.tag e).
  destruct (is_function (Elements.tag e)) eqn:Hfun.
  - eexists _, _. split; [reflexivity|]. split; [|split; [|split]].
    + cbn. now rewrite !lookup_alter_ne, lookup_insert_ne.
    + apply lookup_assigned. exact H2.
    + reflexivity.
    + reflexivity.
  - eexists _, _. split; [reflexivity|]. split; [|split; [|split]].
    + cbn. now rewrite !lookup_alter_ne, lookup_insert_ne.
    + exact H2.
    + reflexivity.
    + subst e2 e0. reflexivity.
Qed.

Lemma elements_mount_first (s : State Elements.Element Elements.closure W)
    el e (parent : option nat) :
  nodes s !! el = Some e ->
  Elements.has (Elements.flags e) (Elements.Mounted F) = false ->
  Elements.mount F el parent s
  = (Promises.Normal el,
     with_nodes
       (<[el := Elements.set_ctx (is_function (Elements.tag e) || Elements.ctx e)
                  (Elements.set_parent parent
                     (Elements.set_flags
                        (Elements.add (Elements.flags e) (Elements.Mounted F)) e))]>)
       s).
Proof.
  intros He Hm.
  unfold Elements.mount. rewrite (run_node _ _ _ _ He), Hm.
  rewrite run_ret. unfold Elements.raise. rewrite run_assign, run_assign.
  match goal with |- context [(node el ≫= _) ?st] => set (s2 := st) end.
  set (e2 := Elements.set_parent parent
               (Elements.set_flags
                  (Elements.add (Elements.flags e) (Elements.Mounted F)) e)).
  assert (H2 : nodes s2 !! el = Some e2).
  { subst s2. cbn. now rewrite !lookup_alter_eq, He. }
  rewrite (run_node _ _ _ _ H2).
  change (Elements.tag e2) with (Elements.tag e).
  destruct (is_function (Elements.tag e)) eqn:Hfun.
  - rewrite run_assign. unfold mret, M_ret. f_equal.
    subst s2. destruct s as [ns fr m c w]. unfold with_nodes. cbn. f_equal.
    cbn in H2 |- *. apply map_eq. intros i.
    destruct (decide (i = el)) as [->|Hi].
    + now rewrite lookup_alter_eq, H2, lookup_insert_eq.
    + now rewrite !lookup_alter_ne, lookup_insert_ne by congruence.
  - rewrite run_ret. unfold mret, M_ret. f_equal.
    subst s2. destruct s as [ns fr m c w]. unfold with_nodes. cbn. f_equal.
    cbn in H2 |- *. apply map_eq. intros i.
    destruct (decide (i = el)) as [->|Hi].
    + rewrite H2, lookup_insert_eq. subst e2. now destruct e.
    + now rewrite !lookup_alter_ne, lookup_insert_ne by congruence.
Qed.

End Mounting.

(** X8. [mount] never touches an element that is already mounted: it
    mounts a new element with the same tag, props, key and ref and
    nothing else of the old one, and returns the new one.  An element
    that is not mounted yet is mounted in place. *)
Theorem mount_copies_a_mounted_element :
  (forall (W : Type) (F : Elements.Flags)
          (s : Runtime.State Elements.Element Elements.closure W)
          el e (parent : option nat),
      Runtime.nodes s !! el = Some e ->
      Elements.has (Elements.flags e) (Elements.Mounted F) = true ->
      el < Runtime.fresh s ->
      exists s' e',
        Elements.mount F el parent s = (Promises.Normal (Runtime.fresh s), s')
        /\ Runtime.nodes s' !! el = Some e
        /\ Runtime.nodes s' !! Runtime.fresh s = Some e'
        /\ Runtime.fresh s' = S (Runtime.fresh s)
        /\ e' = Elements.set_ctx (JS.is_function (Elements.tag e))
                  (Elements.set_parent parent
                     (Elements.set_flags
                        (Elements.add (Elements.Initial F) (Elements.Mounted F))
                        (Elements.new_Element (Elements.Initial F)
                           (Elements.tag e) (Elements.props e)
                           (Elements.key e) (Elements.ref e)))))
  /\ (forall (W : Type) (F : Elements.Flags)
             (s : Runtime.State Elements.Element Elements.closure W)
             el e (parent : option nat),
        Runtime.nodes s !! el = Some e ->
        Elements.has (Elements.flags e) (Elements.Mounted F) = false ->
        Elements.mount F el parent s
        = (Promises.Normal el,
           Runtime.with_nodes
             (<[el := Elements.set_ctx
                        (JS.is_function (Elements.tag e) || Elements.ctx e)
                        (Elements.set_parent parent
                           (Elements.set_flags
                              (Elements.add (Elements.flags e) (Elements.Mounted F))
                              e))]>)
             s)).
Proof.
  split.
  - intros W F s el e parent. apply elements_mount_clones.
  - intros W F s el e parent. apply elements_mount_first.
Qed.

(** A store holding one element, at address 0, the next address being 1. *)
Definition allocated (e : Elements.Element)
  : Runtime.State Elements.Element Elements.closure Runtime.Log :=
  (Runtime.alloc e Runtime.initial).2.

Definition mounted_div : Elements.Element :=
  Elements.set_value (JS.VOpaque 7)
    (Elements.set_flags (Elements.Mounted bits)
       (Elements.new_Element 0 (JS.VString "div")
          (JS.VObject [("id", JS.VString "a")]) JS.VUndefined JS.VUndefined)).

Definition new_div : Elements.Element :=
  Elements.new_Element 0 (JS.VString "div")
    (JS.VObject [("id", JS.VString "a")]) JS.VUndefined JS.VUndefined.

Lemma mount_copies_a_mounted_element_witness :
  (exists s' e',
     Elements.mount bits 0 None (allocated mounted_div)
     = (Promises.Normal 1%nat, s')
     /\ Runtime.nodes s' !! 0%nat = Some mounted_div
     /\ Runtime.nodes s' !! 1%nat = Some e'
     /\ Runtime.fresh s' = 2%nat
     /\ e' = Elements.set_flags (Elements.Mounted bits) new_div)
  /\ Elements.mount bits 0 None (allocated new_div)
     = (Promises.Normal 0%nat,
        Runtime.with_nodes
          (<[0%nat := Elements.set_flags (Elements.Mounted bits) new_div]>)
          (allocated new_div)).
Proof.
  split.
  - apply (proj1 mount_copies_a_mounted_element Runtime.Log bits
             (allocated mounted_div) 0%nat mounted_div None).
    + reflexivity.
    + reflexivity.
    + vm_compute. lia.
  - apply (proj2 mount_copies_a_mounted_element Runtime.Log bits
             (allocated new_div) 0%nat new_div None); reflexivity.
Defined.

(** ** Runs of text *)

Section TextRuns.
Import JS Runtime.
Context {W : Type}.

(** The strings of a run, joined. *)
Definition joined (texts : list string) : string :=
  foldr String.append "" texts.



(** What a run of texts comes to in the values of the parent. *)
Definition run (texts : list string) : list val :=
  match texts with [] => [] | _ => [VString (joined texts)] end.


Section OnNodes.
Local Abbreviation State := (State Nodes.Node Nodes.closure W).










(** [if (buffer !== undefined) childValues.push(buffer)] *)
Definition flushed (b : Nodes.Buffer) : list val :=
  match Nodes.buffer b with
  | Some t => Nodes.values b ++ [VString t]
  | None => Nodes.values b
  end.








End OnNodes.

Section OnElements.
Local Abbreviation State := (State Elements.Element Elements.closure W).
Variable F : Elements.Flags.











End OnElements.
End TextRuns.


(** A fragment (0) over the texts "foo" (1) and "bar" (2), and the
    element whose children are these two strings. *)
Definition two_texts : Runtime.State Nodes.Node Nodes.closure Runtime.Log :=
  Runtime.with_nodes (fun _ =>
    {[ 0%nat := Nodes.set_children [1; 2]%nat
                  (Nodes.blank Nodes.FragmentNode Nodes.Fragment JS.VUndefined None);
       1%nat := Nodes.set_value (JS.VString "foo")
                  (Nodes.blank Nodes.LeafNode JS.VUndefined JS.VUndefined (Some 0%nat));
       2%nat := Nodes.set_value (JS.VString "bar")
                  (Nodes.blank Nodes.LeafNode JS.VUndefined JS.VUndefined (Some 0%nat)) ]})
    Runtime.initial.










(** ** Provisions

    [set] and [get] of a component ([ComponentNode] in [src/index.ts],
    [Context] in the element based revision).  A provision map is a
    [Map]: an association list in insertion order, a key held once. *)

Module Provisions.
Import JS.

(** [map.has(key)], [map.get(key)], [map.set(key, value)] *)
Fixpoint map_get (m : list (val * val)) (key : val) : option val :=
  match m with
  | [] => None
  | (k, v) :: m' => if decide (k = key) then Some v else map_get m' key
  end.

Definition map_has (m : list (val * val)) (key : val) : bool :=
  bool_decide (map_get m key <> None).

Fixpoint map_set (m : list (val * val)) (key value : val) : list (val * val) :=
  match m with
  | [] => [(key, value)]
  | (k, v) :: m' =>
      if decide (k = key) then (key, value) :: m' else (k, v) :: map_set m' key value
  end.

(** The fields [get] and [set] read and write: [parent], whether the
    node is a [ComponentNode], and its [provisions]. *)
Record Scope : Type := mkScope {
  parent : option nat;
  component : bool;
  provisions : option (list (val * val))
}.

#[export] Instance Scope_inhabited : Inhabited Scope :=
  populate (mkScope None false None).

Abbreviation Store := (gmap nat Scope).

(** [for (let parent = this.parent; parent !== undefined;
          parent = parent.parent)] of [ComponentNode.get], the fuel
    bounding the walk; [undefined] when the loop ends. *)
Fixpoint lookup_from (fuel : nat) (st : Store) (parent : option nat) (name : val)
  : val :=
  match fuel, parent with
  | S fuel', Some p =>
      let n := st !!! p in
      if component n
         && match provisions n with
            | Some m => map_has m name
            | None => false
            end
      then default VUndefined (map_get (default [] (provisions n)) name)
      else lookup_from fuel' st (Provisions.parent n) name
  | _, _ => VUndefined
  end.

Definition get (st : Store) (this : nat) (name : val) : val :=
  lookup_from (size st) st (parent (st !!! this)) name.

Definition set (this : nat) (name value : val) (st : Store) : Store :=
  let st :=
    match provisions (st !!! this) with
    | None => alter (fun n => mkScope (parent n) (component n) (Some [])) this st
    | Some _ => st
    end in
  alter (fun n => mkScope (parent n) (component n)
                    (Some (map_set (default [] (provisions n)) name value)))
        this st.

(** [Context.get] of the element based revision: the parents are
    contexts, and there is no test of the class. *)
Fixpoint Context_lookup_from (fuel : nat) (st : Store) (parent : option nat)
    (key : val) : val :=
  match fuel, parent with
  | S fuel', Some p =>
      let c := st !!! p in
      if match provisions c with
         | Some m => map_has m key
         | None => false
         end
      then default VUndefined (map_get (default [] (provisions c)) key)
      else Context_lookup_from fuel' st (Provisions.parent c) key
  | _, _ => VUndefined
  end.

Definition Context_get (st : Store) (this : nat) (key : val) : val :=
  Context_lookup_from (size st) st (parent (st !!! this)) key.

(** *** Chains of parents *)

(** [l] lists the nodes from [start] up to the root. *)
Fixpoint ancestors (st : Store) (start : option nat) (l : list nat) : Prop :=
  match l, start with
  | [], None => True
  | p :: rest, Some q =>
      p = q /\ is_Some (st !! p) /\ ancestors st (parent (st !!! p)) rest
  | _, _ => False
  end.

(** Whether a node has a provision for [name], and whether
    [ComponentNode.get] takes it. *)
Definition offers (n : Scope) (name : val) : bool :=
  match provisions n with Some m => map_has m name | None => false end.

Definition provides (n : Scope) (name : val) : bool :=
  component n && offers n name.

(** [parent.provisions.get(name)] *)
Definition provision (n : Scope) (name : val) : val :=
  default VUndefined (map_get (default [] (provisions n)) name).

End Provisions.

Section Provided.
Import JS Provisions.

(** Both walks, the test left open. *)
Fixpoint walk (test : Scope -> val -> bool) (fuel : nat) (st : Store)
    (parent : option nat) (name : val) : val :=
  match fuel, parent with
  | S fuel', Some p =>
      if test (st !!! p) name
      then provision (st !!! p) name
      else walk test fuel' st (Provisions.parent (st !!! p)) name
  | _, _ => VUndefined
  end.

Lemma lookup_from_walk fuel st parent name :
  lookup_from fuel st parent name
  = walk provides fuel st parent name.
Proof.
  revert parent. induction fuel as [|fuel IH]; intros [p|]; cbn; try reflexivity.
  now rewrite IH.
Qed.

Lemma Context_lookup_from_walk fuel st parent key :
  Context_lookup_from fuel st parent key = walk offers fuel st parent key.
Proof.
  revert parent. induction fuel as [|fuel IH]; intros [p|]; cbn; try reflexivity.
  now rewrite IH.
Qed.

Lemma ancestors_unique st l : forall start l',
  ancestors st start l -> ancestors st start l' -> l = l'.
Proof.
  induction l as [|p l IH]; intros [q|] [|p' l']; cbn; try tauto.
  intros (-> & _ & H) (-> & _ & H'). f_equal. eapply IH; eassumption.
Qed.

Lemma ancestors_suffix st l1 : forall start p l2,
  ancestors st start (l1 ++ p :: l2) ->
  ancestors st (Provisions.parent (st !!! p)) l2.
Proof.
  induction l1 as [|x l1 IH]; intros [q|] p l2; cbn; try tauto.
  intros (_ & _ & H). eapply IH. exact H.
Qed.

Lemma ancestors_NoDup st l : forall start, ancestors st start l -> NoDup l.
Proof.
  induction l as [|p l IH]; intros start H; [constructor|].
  destruct start as [q|]; cbn in H; [|easy]. destruct H as (-> & _ & H).
  constructor; [|eapply IH; exact H].
  intros Hin. apply list_elem_of_split in Hin as (l1 & l2 & ->).
  pose proof (ancestors_suffix _ _ _ _ _ H) as H2.
  pose proof (ancestors_unique _ _ _ _ H H2) as Heq.
  apply (f_equal length) in Heq. rewrite length_app in Heq. cbn in Heq. lia.
Qed.

Lemma ancestors_nodes st l : forall start x,
  ancestors st start l -> x ∈ l -> is_Some (st !! x).
Proof.
  induction l as [|p l IH]; intros [q|] x; cbn; try tauto.
  - intros _ Hx. now apply elem_of_nil in Hx.
  - intros (-> & Hq & H) Hx. apply elem_of_cons in Hx as [->|Hx]; [easy|].
    eapply IH; eassumption.
Qed.

Lemma ancestors_bounded st l start :
  ancestors st start l -> length l <= size st.
Proof.
  intros H. pose proof (ancestors_NoDup _ _ _ H) as Hnd.
  rewrite <- (size_list_to_set (C := gset nat) l Hnd), <- size_dom.
  apply subseteq_size. intros x Hx.
  apply elem_of_list_to_set in Hx. apply elem_of_dom.
  eapply ancestors_nodes; eassumption.
Qed.

Lemma ancestors_not_self st this l :
  ancestors st (Provisions.parent (st !!! this)) l -> this ∉ l.
Proof.
  intros H Hin. apply list_elem_of_split in Hin as (l1 & l2 & ->).
  pose proof (ancestors_suffix _ _ _ _ _ H) as H2.
  pose proof (ancestors_unique _ _ _ _ H H2) as Heq.
  apply (f_equal length) in Heq. rewrite length_app in Heq. cbn in Heq. lia.
Qed.

Lemma walk_nearest test st name l1 : forall fuel start p l2,
  ancestors st start (l1 ++ p :: l2) ->
  Forall (fun q => test (st !!! q) name = false) l1 ->
  test (st !!! p) name = true ->
  length (l1 ++ p :: l2) <= fuel ->
  walk test fuel st start name = provision (st !!! p) name.
Proof.
  induction l1 as [|x l1 IH]; intros fuel start p l2 Ha Hall Hp Hlen.
  - destruct start as [q|]; cbn in Ha; [|easy]. destruct Ha as (-> & _ & _).
    destruct fuel as [|fuel]; [cbn in Hlen; lia|]. cbn. now rewrite Hp.
  - destruct start as [q|]; cbn in Ha; [|easy]. destruct Ha as (-> & _ & Ha).
    apply Forall_cons in Hall as [Hq Hall].
    destruct fuel as [|fuel]; [cbn in Hlen; lia|]. cbn. rewrite Hq.
    apply (IH fuel _ p l2); try assumption. cbn in Hlen. lia.
Qed.

Lemma walk_none test st name l : forall fuel start,
  ancestors st start l ->
  Forall (fun q => test (st !!! q) name = false) l ->
  walk test fuel st start name = VUndefined.
Proof.
  induction l as [|x l IH]; intros fuel start Ha Hall.
  - destruct start; cbn in Ha; [easy|]. now destruct fuel.
  - destruct start as [q|]; cbn in Ha; [|easy]. destruct Ha as (-> & _ & Ha).
    apply Forall_cons in Hall as [Hq Hall].
    destruct fuel as [|fuel]; [reflexivity|]. cbn. rewrite Hq.
    now apply IH.
Qed.

Lemma map_get_set_eq (m : list (val * val)) name v :
  map_get (map_set m name v) name = Some v.
Proof.
  induction m as [|[k w] m IH]; cbn.
  - now rewrite decide_True.
  - destruct (decide (k = name)) as [->|Hne]; cbn.
    + now rewrite decide_True.
    + now rewrite decide_False.
Qed.

Lemma map_get_set_other (m : list (val * val)) name name' v :
  name <> name' -> map_get (map_set m name v) name' = map_get m name'.
Proof.
  intros Hne. induction m as [|[k w] m IH]; cbn.
  - now rewrite decide_False.
  - destruct (decide (k = name)) as [->|Hk]; cbn.
    + now rewrite !decide_False.
    + destruct (decide (k = name')); [reflexivity|exact IH].
Qed.

Lemma set_lookup this name v (st : Store) x :
  set this name v st !! x
  = if decide (x = this)
    then (fun n => mkScope (parent n) (component n)
                     (Some (map_set (default [] (provisions n)) name v)))
         <$> st !! x
    else st !! x.
Proof.
  unfold set. destruct (decide (x = this)) as [->|Hne].
  - rewrite lookup_total_alt.
    destruct (st !! this) as [n|] eqn:E; cbn.
    + destruct (provisions n) eqn:Ep.
      * rewrite lookup_alter_eq, E. cbn. now rewrite Ep.
      * rewrite !lookup_alter_eq, E. cbn. rewrite ?Ep. reflexivity.
    + rewrite !lookup_alter_eq, E. reflexivity.
  - destruct (provisions (st !!! this)); now rewrite !lookup_alter_ne.
Qed.

Lemma set_parent this name v (st : Store) x :
  parent (set this name v st !!! x) = parent (st !!! x).
Proof.
  rewrite !lookup_total_alt, set_lookup.
  destruct (decide (x = this)); [|reflexivity]. now destruct (st !! x).
Qed.

Lemma set_component this name v (st : Store) x :
  component (set this name v st !!! x) = component (st !!! x).
Proof.
  rewrite !lookup_total_alt, set_lookup.
  destruct (decide (x = this)); [|reflexivity]. now destruct (st !! x).
Qed.

Lemma set_other this name v (st : Store) x :
  x <> this -> set this name v st !!! x = st !!! x.
Proof.
  intros Hne. rewrite !lookup_total_alt, set_lookup.
  now rewrite decide_False.
Qed.

Lemma set_provisions this name v (st : Store) :
  is_Some (st !! this) ->
  provisions (set this name v st !!! this)
  = Some (map_set (default [] (provisions (st !!! this))) name v).
Proof.
  intros [n Hn]. rewrite !lookup_total_alt, set_lookup, decide_True, Hn by easy.
  reflexivity.
Qed.

Lemma set_size this name v (st : Store) : size (set this name v st) = size st.
Proof.
  rewrite <- !size_dom. f_equal. apply set_eq. intros x.
  rewrite !elem_of_dom, set_lookup.
  destruct (decide (x = this)); [|reflexivity].
  destruct (st !! x); cbn; split; intros [? ?]; eauto; discriminate.
Qed.

Lemma set_ancestors this name v (st : Store) l : forall start,
  ancestors st start l -> ancestors (set this name v st) start l.
Proof.
  induction l as [|p l IH]; intros [q|]; cbn; try tauto.
  intros (-> & Hq & H). split; [reflexivity|]. split.
  - rewrite set_lookup. destruct (decide (q = this)); [|exact Hq].
    destruct Hq as [n ->]. cbn. eauto.
  - rewrite set_parent. now apply IH.
Qed.

Lemma walk_ext test (st st' : Store) name l : forall fuel start,
  ancestors st start l ->
  Forall (fun q => Provisions.parent (st' !!! q) = Provisions.parent (st !!! q)
                   /\ test (st' !!! q) name = test (st !!! q) name
                   /\ provision (st' !!! q) name = provision (st !!! q) name) l ->
  walk test fuel st' start name = walk test fuel st start name.
Proof.
  induction l as [|x l IH]; intros fuel start Ha Hall.
  - destruct start; cbn in Ha; [easy|]. now destruct fuel.
  - destruct start as [q|]; cbn in Ha; [|easy]. destruct Ha as (-> & _ & Ha).
    apply Forall_cons in Hall as [(Hp & Ht & Hv) Hall].
    destruct fuel as [|fuel]; [reflexivity|]. cbn. rewrite Hp, Ht, Hv.
    destruct (test (st !!! q) name); [reflexivity|]. now apply IH.
Qed.

End Provided.

Section ProvisionsFacts.
Import JS Provisions.

Lemma get_walk st this name :
  get st this name = walk provides (size st) st (parent (st !!! this)) name.
Proof. apply lookup_from_walk. Qed.

Lemma Context_get_walk st this key :
  Context_get st this key = walk offers (size st) st (parent (st !!! this)) key.
Proof. apply Context_lookup_from_walk. Qed.

Lemma walk_after_set test (st : Store) p name v this l1 l2 :
  ancestors st (parent (st !!! this)) (l1 ++ p :: l2) ->
  (forall n, offers n name = true -> component n = component (st !!! p) ->
             test n name = true) ->
  Forall (fun q => test (st !!! q) name = false) l1 ->
  walk test (size (set p name v st)) (set p name v st)
    (parent (set p name v st !!! this)) name = v.
Proof.
  intros Ha Htest Hall.
  pose proof (ancestors_NoDup _ _ _ Ha) as Hnd.
  assert (Hp : is_Some (st !! p)).
  { eapply ancestors_nodes; [exact Ha|]. apply elem_of_app. right. now left. }
  rewrite set_parent.
  rewrite (walk_nearest test (set p name v st) name l1 _ _ p l2).
  - unfold provision. rewrite set_provisions by exact Hp. cbn.
    now rewrite map_get_set_eq.
  - now apply set_ancestors.
  - apply Forall_forall. intros q Hq.
    rewrite set_other; [exact (proj1 (Forall_forall _ _) Hall q Hq)|].
    intros ->. apply NoDup_app in Hnd as (_ & Hd & _). apply (Hd p Hq). now left.
  - apply Htest.
    + unfold offers. rewrite set_provisions by exact Hp.
      unfold map_has. rewrite map_get_set_eq. reflexivity.
    + apply set_component.
  - eapply ancestors_bounded. apply set_ancestors. exact Ha.
Qed.

Lemma walk_own_set test (st : Store) this name v name' l :
  ancestors st (parent (st !!! this)) l ->
  walk test (size (set this name v st)) (set this name v st)
    (parent (set this name v st !!! this)) name'
  = walk test (size st) st (parent (st !!! this)) name'.
Proof.
  intros Ha. pose proof (ancestors_not_self _ _ _ Ha) as Hself.
  rewrite set_parent, set_size.
  apply walk_ext with (l := l); [exact Ha|].
  apply Forall_forall. intros q Hq.
  rewrite set_other; [easy|]. intros ->. easy.
Qed.

(** A root component (0) providing a theme and a language, a host
    element (1) below it, a component (2) below that providing a theme
    of its own, and a component (3) below that. *)
Definition theme : val := VString "theme".
Definition language : val := VString "lang".

Definition providers : Store :=
  list_to_map
    [(0, mkScope None true
           (Some [(theme, VString "dark"); (language, VString "en")]));
     (1, mkScope (Some 0) false None);
     (2, mkScope (Some 1) true (Some [(theme, VString "light")]));
     (3, mkScope (Some 2) true None)]%nat.

Lemma providers_ancestors :
  ancestors providers (parent (providers !!! 3%nat)) [2; 1; 0]%nat.
Proof.
  vm_compute. repeat split; eexists; reflexivity.
Defined.

(** X11. [get] returns the provision of the nearest ancestor that has
    one for the name (in [index.ts]: the nearest component ancestor),
    however far up, and [undefined] when no ancestor has one. *)
Theorem get_returns_nearest_provision :
  (forall (st : Store) this name l1 p l2,
     ancestors st (parent (st !!! this)) (l1 ++ p :: l2) ->
     Forall (fun q => provides (st !!! q) name = false) l1 ->
     provides (st !!! p) name = true ->
     get st this name = provision (st !!! p) name)
  /\ (forall (st : Store) this name l,
        ancestors st (parent (st !!! this)) l ->
        Forall (fun q => provides (st !!! q) name = false) l ->
        get st this name = JS.VUndefined)
  /\ (forall (st : Store) this key l1 p l2,
        ancestors st (parent (st !!! this)) (l1 ++ p :: l2) ->
        Forall (fun q => offers (st !!! q) key = false) l1 ->
        offers (st !!! p) key = true ->
        Context_get st this key = provision (st !!! p) key)
  /\ (forall (st : Store) this key l,
        ancestors st (parent (st !!! this)) l ->
        Forall (fun q => offers (st !!! q) key = false) l ->
        Context_get st this key = JS.VUndefined).
Proof.
  split; [|split; [|split]].
  - intros st this name l1 p l2 Ha Hall Hp. rewrite get_walk.
    apply (walk_nearest _ _ _ l1 _ _ p l2); try assumption.
    eapply ancestors_bounded. exact Ha.
  - intros st this name l Ha Hall. rewrite get_walk.
    now apply (walk_none _ _ _ l).
  - intros st this key l1 p l2 Ha Hall Hp. rewrite Context_get_walk.
    apply (walk_nearest _ _ _ l1 _ _ p l2); try assumption.
    eapply ancestors_bounded. exact Ha.
  - intros st this key l Ha Hall. rewrite Context_get_walk.
    now apply (walk_none _ _ _ l).
Qed.

Lemma get_returns_nearest_provision_witness :
  get providers 3 theme = provision (providers !!! 2%nat) theme
  /\ get providers 3 (VString "user") = VUndefined
  /\ Context_get providers 3 language = provision (providers !!! 0%nat) language
  /\ Context_get providers 3 (VString "user") = VUndefined.
Proof.
  destruct get_returns_nearest_provision as (H1 & H2 & H3 & H4).
  split; [|split; [|split]].
  - apply (H1 providers 3%nat theme [] 2%nat [1; 0]%nat).
    + exact providers_ancestors.
    + constructor.
    + reflexivity.
  - apply (H2 providers 3%nat (VString "user") [2; 1; 0]%nat).
    + exact providers_ancestors.
    + repeat constructor.
  - apply (H3 providers 3%nat language [2; 1]%nat 0%nat []).
    + exact providers_ancestors.
    + repeat constructor.
    + reflexivity.
  - apply (H4 providers 3%nat (VString "user") [2; 1; 0]%nat).
    + exact providers_ancestors.
    + repeat constructor.
Defined.

(** X12. What a component sets is what the components below it get,
    unless a nearer ancestor has a provision for the same name; a
    component never gets what it has set itself. *)
Theorem set_provides_to_descendants :
  (forall (st : Store) p name v this l1 l2,
     ancestors st (parent (st !!! this)) (l1 ++ p :: l2) ->
     component (st !!! p) = true ->
     Forall (fun q => provides (st !!! q) name = false) l1 ->
     get (set p name v st) this name = v)
  /\ (forall (st : Store) p key v this l1 l2,
        ancestors st (parent (st !!! this)) (l1 ++ p :: l2) ->
        Forall (fun q => offers (st !!! q) key = false) l1 ->
        Context_get (set p key v st) this key = v)
  /\ (forall (st : Store) this name v name' l,
        ancestors st (parent (st !!! this)) l ->
        get (set this name v st) this name'
        = get st this name'
        /\ Context_get (set this name v st) this name'
           = Context_get st this name').
Proof.
  split; [|split].
  - intros st p name v this l1 l2 Ha Hc Hall. rewrite get_walk.
    apply (walk_after_set _ _ _ _ _ _ l1 l2); try assumption.
    intros n Ho Hn. unfold provides. now rewrite Ho, Hn, Hc.
  - intros st p key v this l1 l2 Ha Hall. rewrite Context_get_walk.
    apply (walk_after_set _ _ _ _ _ _ l1 l2); try assumption.
    now intros n Ho _.
  - intros st this name v name' l Ha. rewrite !get_walk, !Context_get_walk.
    split; now apply walk_own_set with (l := l).
Qed.

Lemma set_provides_to_descendants_witness :
  get (set 0 (VString "user") (VString "ann") providers) 3 (VString "user")
  = VString "ann"
  /\ Context_get (set 1 language (VString "fr") providers) 3 language
     = VString "fr"
  /\ get (set 3 theme (VString "blue") providers) 3 theme
     = get providers 3 theme
  /\ Context_get (set 3 theme (VString "blue") providers) 3 theme
     = Context_get providers 3 theme.
Proof.
  destruct set_provides_to_descendants as (H1 & H2 & H3).
  split; [|split].
  - apply (H1 providers 0%nat (VString "user") (VString "ann") 3%nat
             [2; 1]%nat []).
    + exact providers_ancestors.
    + reflexivity.
    + repeat constructor.
  - apply (H2 providers 1%nat language (VString "fr") 3%nat [2]%nat [0]%nat).
    + exact providers_ancestors.
    + repeat constructor.
  - apply (H3 providers 3%nat theme (VString "blue") theme [2; 1; 0]%nat).
    exact providers_ancestors.
Defined.

End ProvisionsFacts.

(** ** Scheduled callbacks *)

Section Scheduling.
Import JS Runtime.

















End Scheduling.

Section Scheduled.
Import JS Runtime.








End Scheduled.

(** ** Copy elements *)

Section Copying.
Import JS Runtime.
Context {W : Type}.

(** What reconciling a Copy child may change of a node: its place
    among its siblings and the flags that record it. *)
Definition placed (n : Nodes.Node) : Nodes.Node :=
  Nodes.set_children []
    (Nodes.set_keyedChildren None
       (Nodes.set_moved false (Nodes.set_copied false n))).

Ltac absurd_branch :=
  exfalso;
  match goal with
  | H : ?x <> ?x |- _ => apply H; reflexivity
  | H : ?x <> ?y, H' : ?x = ?y |- _ => exact (H H')
  | H : ?x <> ?y, H' : ?y = ?x |- _ => exact (H (eq_sym H'))
  end.

Lemma nodes_align_copy (s : State Nodes.Node Nodes.closure W)
    this child k cursor :
  Nodes.child_tag child = Nodes.Copy ->
  exists a s',
    Nodes.align this child k cursor s = (Promises.Normal a, s')
    /\ agrees placed s s'.
Proof.
  intros Ht.
  unfold Nodes.align. rewrite Ht.
  unfold Nodes.removeChild, Nodes.insertBefore, Nodes.appendChild.
  unfold mbind, M_bind, node, assign, all_nodes, mret, M_ret.
  repeat match goal with
    | |- context [match ?x with _ => _ end] =>
        lazymatch x with
        | context [match _ with _ => _ end] => fail
        | _ => destruct x eqn:?
        end
    end.
  all: try absurd_branch.
  all: try (eexists _, _; split; [reflexivity|];
            repeat (apply agrees_assign; [intros []; reflexivity|]);
            apply agrees_refl).
Qed.

Lemma nodes_update_aligned_copy (env : Env Nodes.Node Nodes.closure W)
    (self : Nodes.Methods W) (s : State Nodes.Node Nodes.closure W)
    this child node0 result :
  Nodes.child_tag child = Nodes.Copy ->
  Nodes.update_aligned env self this child node0 result s
  = (Promises.Normal (node0, result),
     if Nodes.internal (nodes s !!! node0)
     then with_nodes (alter (Nodes.set_copied true) node0) s else s).
Proof.
  intros Ht. unfold Nodes.update_aligned.
  rewrite run_node_total, decide_True by exact Ht.
  now destruct (Nodes.internal (nodes s !!! node0)).
Qed.

Lemma nodes_pass_step_copy (s : State Nodes.Node Nodes.closure W)
    this st child :
  Nodes.child_tag child = Nodes.Copy ->
  exists st' s',
    (forall env self,
       Nodes.pass_step env self this st child s = (Promises.Normal st', s'))
    /\ Nodes.result st' = Nodes.result st
    /\ agrees placed s s'.
Proof.
  intros Ht.
  destruct (nodes_align_copy s this child
              (Nodes.effective_key (Nodes.keyedChildren1 st) child)
              (Nodes.cursor st) Ht) as (a & s1 & Ha & P1).
  destruct a as [node0|cursor].
  - eexists _, _. split; [|split].
    + intros env self. unfold Nodes.pass_step.
      rewrite (run_bind _ _ _ _ _ Ha). cbv iota.
      rewrite (run_bind _ _ _ _ _
                 (nodes_update_aligned_copy env self s1 this child node0 _ Ht)).
      cbv iota beta. unfold Nodes.nextSibling.
      rewrite ?run_assoc, run_node_total, run_ret. reflexivity.
    + reflexivity.
    + destruct (Nodes.internal (nodes s1 !!! node0)); [|exact P1].
      apply agrees_assign; [intros []; reflexivity|exact P1].
  - eexists _, _. split; [|split].
    + intros env self. unfold Nodes.pass_step.
      rewrite (run_bind _ _ _ _ _ Ha). reflexivity.
    + reflexivity.
    + exact P1.
Qed.

(** What aligning a child may change of an element: its flags and
    the map of its keyed children. *)
Definition realigned (e : Elements.Element) : Elements.Element :=
  Elements.set_flags 0 (Elements.set_childrenByKey None e).

Lemma elements_align_agrees (F : Elements.Flags)
    (s : State Elements.Element Elements.closure W) el i newChild1 :
  exists oldChild j s',
    Elements.align F el i newChild1 s = (Promises.Normal (oldChild, j), s')
    /\ agrees realigned s s'.
Proof.
  unfold Elements.align, Elements.raise.
  unfold mbind, M_bind, node, assign, all_nodes, mret, M_ret.
  repeat match goal with
    | |- context [match ?x with _ => _ end] =>
        lazymatch x with
        | context [match _ with _ => _ end] => fail
        | _ => destruct x eqn:?
        end
    end.
  all: try absurd_branch.
  all: try (eexists _, _, _; split; [reflexivity|];
            repeat (apply agrees_assign; [intros []; reflexivity|]);
            apply agrees_refl).
Qed.

Lemma elements_pass_step_copy (F : Elements.Flags)
    (s : State Elements.Element Elements.closure W) el st nc :
  Elements.tag (nodes s !!! nc) = Elements.Copy ->
  exists st' s' oldChild,
    (forall env self,
       Elements.pass_step F env self el st (VOpaque nc) s
       = (Promises.Normal st', s'))
    /\ Elements.align F el (Elements.index st) (VOpaque nc) s
       = (Promises.Normal (oldChild, Elements.index st'), s')
    /\ Elements.result st' = Elements.result st
    /\ Elements.children1 st' = Elements.push (Elements.children1 st) oldChild
    /\ agrees realigned s s'.
Proof.
  intros Ht.
  destruct (elements_align_agrees F s el (Elements.index st) (VOpaque nc))
    as (oldChild & j & s1 & Ha & P1).
  assert (Ht1 : Elements.tag (nodes s1 !!! nc) = Elements.Copy).
  { rewrite <- Ht.
    exact (f_equal Elements.tag (agrees_total realigned s s1 nc P1)). }
  eexists _, s1, oldChild. split; [|split; [|split; [|split]]].
  - intros env self. unfold Elements.pass_step.
    cbn [isNonStringIterable Elements.normalize nullish orb Elements.isElement].
    rewrite run_ret, (run_bind _ _ _ _ _ Ha). cbv iota beta.
    unfold Elements.update_child.
    rewrite ?run_assoc, run_node_total, Ht1, decide_True by reflexivity.
    rewrite ?run_assoc, run_ret. cbv iota beta.
    rewrite ?run_assoc, run_ret, run_ret. cbv iota beta.
    rewrite run_all_nodes. reflexivity.
  - exact Ha.
  - reflexivity.
  - reflexivity.
  - exact P1.
Qed.

End Copying.

(** X14. Reconciling a Copy child renders nothing: whatever the
    environment and the methods are, the step ends normally in the same
    pass and state, with the aggregate promise as it was; no node is
    created, no promise, and nothing of any node changes but its place
    among its siblings and the flags that record it.  In the element
    based revision the child kept at that position is the old child the
    alignment found. *)
Theorem copy_child_is_not_rendered :
  (forall (W : Type) (s : Runtime.State Nodes.Node Nodes.closure W)
          this st child,
      Nodes.child_tag child = Nodes.Copy ->
      exists st' s',
        (forall env self,
           Nodes.pass_step env self this st child s = (Promises.Normal st', s'))
        /\ Nodes.result st' = Nodes.result st
        /\ agrees placed s s')
  /\ (forall (W : Type) (F : Elements.Flags)
             (s : Runtime.State Elements.Element Elements.closure W) el st nc,
        Elements.tag (Runtime.nodes s !!! nc) = Elements.Copy ->
        exists st' s' oldChild,
          (forall env self,
             Elements.pass_step F env self el st (JS.VOpaque nc) s
             = (Promises.Normal st', s'))
          /\ Elements.align F el (Elements.index st) (JS.VOpaque nc) s
             = (Promises.Normal (oldChild, Elements.index st'), s')
          /\ Elements.result st' = Elements.result st
          /\ Elements.children1 st'
             = Elements.push (Elements.children1 st) oldChild
          /\ agrees realigned s s').
Proof.
  split.
  - intros W s this st child. apply nodes_pass_step_copy.
  - intros W F s el st nc. apply elements_pass_step_copy.
Qed.

(** A root element (0) whose only child is a mounted div (1), and a
    Copy element (2) about to be reconciled against it. *)
Definition div_and_copy
  : Runtime.State Elements.Element Elements.closure Runtime.Log :=
  Runtime.with_nodes (fun _ =>
    {[ 0%nat := Elements.set_children (JS.VOpaque 1)
                  (Elements.new_Element 1 Elements.Portal JS.VUndefined
                     JS.VUndefined JS.VUndefined);
       1%nat := Elements.set_value (JS.VOpaque 7)
                  (Elements.new_Element 1 (JS.VString "div") (JS.VObject [])
                     JS.VUndefined JS.VUndefined);
       2%nat := Elements.new_Element 0 Elements.Copy (JS.VObject [])
                  JS.VUndefined JS.VUndefined ]})
    Runtime.initial.

Lemma copy_child_is_not_rendered_witness :
  (exists st' s',
     (forall env self,
        Nodes.pass_step env self 0 (Nodes.mkPass None None (Some 1%nat))
          (Nodes.createElement [Nodes.Copy]) two_texts
        = (Promises.Normal st', s'))
     /\ Nodes.result st' = None
     /\ agrees placed two_texts s')
  /\ (exists st' s' oldChild,
        (forall env self,
           Elements.pass_step bits env self 0
             (Elements.mkPass None JS.VUndefined None 0) (JS.VOpaque 2)
             div_and_copy
           = (Promises.Normal st', s'))
        /\ Elements.align bits 0 0 (JS.VOpaque 2) div_and_copy
           = (Promises.Normal (oldChild, Elements.index st'), s')
        /\ Elements.result st' = None
        /\ Elements.children1 st' = Elements.push JS.VUndefined oldChild
        /\ agrees realigned div_and_copy s').
Proof.
  split.
  - apply (proj1 copy_child_is_not_rendered Runtime.Log two_texts 0%nat
             (Nodes.mkPass None None (Some 1%nat))
             (Nodes.createElement [Nodes.Copy])).
    reflexivity.
  - apply (proj2 copy_child_is_not_rendered Runtime.Log bits div_and_copy 0%nat
             (Elements.mkPass None JS.VUndefined None 0) 2%nat).
    reflexivity.
Defined.

(** ** The intrinsics of a renderer

    [Renderer.intrinsic] of [src/index.ts] and [getIntrinsic] of the
    element based revision.  The
    environment and the table of defaults are objects keyed by tags
    (strings and symbols): association lists, a key held once.  What
    calling a function of the environment does is a parameter: it
    returns a value or throws. *)

Module Intrinsics.
Import JS.

Definition Default : val := VSymbol "crank.Default".

(** [o[tag]] and [o[tag] = v] *)
Fixpoint read (o : list (val * val)) (tag : val) : val :=
  match o with
  | [] => VUndefined
  | (k, v) :: o' => if decide (k = tag) then v else read o' tag
  end.

Fixpoint write (o : list (val * val)) (tag v : val) : list (val * val) :=
  match o with
  | [] => [(tag, v)]
  | (k, w) :: o' =>
      if decide (k = tag) then (tag, v) :: o' else (k, w) :: write o' tag v
  end.

Record Renderer : Type := mkRenderer {
  env : list (val * val);
  defaultIntrinsics : list (val * val)
}.

(** [if (v)] *)
Definition truthy (v : val) : bool :=
  match v with
  | VUndefined | VNull | VBoolean false | VNumber 0 | VString "" => false
  | _ => true
  end.

Section Calls.
(** [f(x)]: the value returned, or the error thrown. *)
Variable call : val -> val -> val + val.

(** [this.env[Default]!(tag)]: calling what is not a function throws. *)
Definition call_default (this : Renderer) (tag : val) : val + val :=
  if is_function (read (env this) Default)
  then call (read (env this) Default) tag
  else inr (VString "TypeError").

Definition intrinsic (this : Renderer) (tag : val) : (val + val) * Renderer :=
  if truthy (read (env this) tag) then (inl (read (env this) tag), this)
  else if decide (read (defaultIntrinsics this) tag <> VUndefined)
  then (inl (read (defaultIntrinsics this) tag), this)
  else
    match call_default this tag with
    | inl intrinsic =>
        (inl intrinsic,
         mkRenderer (env this) (write (defaultIntrinsics this) tag intrinsic))
    | inr err => (inr err, this)
    end.

Definition getIntrinsic (renderer : Renderer) (tag : val)
  : (val + val) * Renderer :=
  if is_function (read (env renderer) tag)
  then (inl (read (env renderer) tag), renderer)
  else if is_function (read (defaultIntrinsics renderer) tag)
  then (inl (read (defaultIntrinsics renderer) tag), renderer)
  else
    match call_default renderer tag with
    | inl intrinsic =>
        (inl intrinsic,
         mkRenderer (env renderer)
           (write (defaultIntrinsics renderer) tag intrinsic))
    | inr err => (inr err, renderer)
    end.

End Calls.

End Intrinsics.

Section IntrinsicsFacts.
Import JS Intrinsics.

Lemma read_write_eq (o : list (val * val)) tag v : read (write o tag v) tag = v.
Proof.
  induction o as [|[k w] o IH]; cbn.
  - now rewrite decide_True.
  - destruct (decide (k = tag)) as [->|Hne]; cbn.
    + now rewrite decide_True.
    + now rewrite decide_False.
Qed.

Lemma read_write_ne (o : list (val * val)) tag tag' v :
  tag <> tag' -> read (write o tag v) tag' = read o tag'.
Proof.
  intros Hne. induction o as [|[k w] o IH]; cbn.
  - now rewrite decide_False.
  - destruct (decide (k = tag)) as [->|Hk]; cbn.
    + now rewrite !decide_False.
    + destruct (decide (k = tag')); [reflexivity|exact IH].
Qed.

(** X15. The table of defaults is a cache: once [intrinsic] has
    returned an intrinsic for a tag, every later call for that tag
    returns the same intrinsic without calling the environment and
    without changing the renderer, and the intrinsics of other tags are
    not affected; a call that throws leaves the renderer as it was.
    ([getIntrinsic] caches what is a function.) *)
Theorem intrinsic_is_cached :
  (forall call this tag v this',
     intrinsic call this tag = (inl v, this') ->
     v <> VUndefined ->
     (forall call', intrinsic call' this' tag = (inl v, this'))
     /\ forall call' tag', tag' <> tag ->
          fst (intrinsic call' this' tag') = fst (intrinsic call' this tag'))
  /\ (forall call this tag err this',
        intrinsic call this tag = (inr err, this') -> this' = this)
  /\ (forall call renderer tag v renderer',
        getIntrinsic call renderer tag = (inl v, renderer') ->
        is_function v = true ->
        (forall call', getIntrinsic call' renderer' tag = (inl v, renderer'))
        /\ forall call' tag', tag' <> tag ->
             fst (getIntrinsic call' renderer' tag')
             = fst (getIntrinsic call' renderer tag'))
  /\ (forall call renderer tag err renderer',
        getIntrinsic call renderer tag = (inr err, renderer') ->
        renderer' = renderer).
Proof.
  split; [|split; [|split]].
  - intros call this tag v this'. unfold intrinsic.
    destruct (truthy (read (env this) tag)) eqn:Ht.
    { intros [= <- <-] _. split.
      - intros call'. now rewrite Ht.
      - reflexivity. }
    destruct (decide (read (defaultIntrinsics this) tag <> VUndefined)) as [Hd|Hd].
    { intros [= <- <-] _. split.
      - intros call'. rewrite Ht. now rewrite decide_True.
      - reflexivity. }
    destruct (call_default call this tag) as [w|e] eqn:Hc; [|discriminate].
    intros [= <- <-] Hv. cbn [env defaultIntrinsics]. split.
    + intros call'. rewrite Ht, read_write_eq. now rewrite decide_True.
    + intros call' tag' Hne. rewrite read_write_ne by congruence.
      unfold call_default. cbn [env].
      destruct (truthy (read (env this) tag')); [reflexivity|].
      destruct (decide (read (defaultIntrinsics this) tag' <> VUndefined));
        [reflexivity|].
      now destruct (if is_function (read (env this) Default)
                    then call' (read (env this) Default) tag'
                    else inr (VString "TypeError")).
  - intros call this tag err this'. unfold intrinsic.
    destruct (truthy (read (env this) tag)); [discriminate|].
    destruct (decide (read (defaultIntrinsics this) tag <> VUndefined));
      [discriminate|].
    destruct (call_default call this tag); [discriminate|].
    now intros [= _ <-].
  - intros call renderer tag v renderer'. unfold getIntrinsic.
    destruct (is_function (read (env renderer) tag)) eqn:Ht.
    { intros [= <- <-] _. split.
      - intros call'. now rewrite Ht.
      - reflexivity. }
    destruct (is_function (read (defaultIntrinsics renderer) tag)) eqn:Hd.
    { intros [= <- <-] _. split.
      - intros call'. now rewrite Ht, Hd.
      - reflexivity. }
    destruct (call_default call renderer tag) as [w|e] eqn:Hc; [|discriminate].
    intros [= <- <-] Hv. cbn [env defaultIntrinsics]. split.
    + intros call'. now rewrite Ht, read_write_eq, Hv.
    + intros call' tag' Hne. rewrite read_write_ne by congruence.
      unfold call_default. cbn [env].
      destruct (is_function (read (env renderer) tag')); [reflexivity|].
      destruct (is_function (read (defaultIntrinsics renderer) tag'));
        [reflexivity|].
      now destruct (if is_function (read (env renderer) Default)
                    then call' (read (env renderer) Default) tag'
                    else inr (VString "TypeError")).
  - intros call renderer tag err renderer'. unfold getIntrinsic.
    destruct (is_function (read (env renderer) tag)); [discriminate|].
    destruct (is_function (read (defaultIntrinsics renderer) tag));
      [discriminate|].
    destruct (call_default call renderer tag); [discriminate|].
    now intros [= _ <-].
Qed.

(** A renderer whose environment has an intrinsic for "div" only,
    and two environments' ways of answering a call: with a new
    intrinsic, or with an error. *)
Definition plain : Renderer :=
  mkRenderer [(Default, VFunction 1); (VString "div", VFunction 2)] [].

Definition makes (f tag : val) : val + val := inl (VFunction 9).
Definition fails (f tag : val) : val + val := inr (VString "no intrinsic").

Definition cached : Renderer :=
  mkRenderer (env plain) [(VString "span", VFunction 9)].

Lemma intrinsic_is_cached_witness :
  ((forall call', intrinsic call' cached (VString "span")
                  = (inl (VFunction 9), cached))
   /\ forall call' tag', tag' <> VString "span" ->
        fst (intrinsic call' cached tag') = fst (intrinsic call' plain tag'))
  /\ snd (intrinsic fails plain (VString "span")) = plain
  /\ ((forall call', getIntrinsic call' cached (VString "span")
                     = (inl (VFunction 9), cached))
      /\ forall call' tag', tag' <> VString "span" ->
           fst (getIntrinsic call' cached tag')
           = fst (getIntrinsic call' plain tag'))
  /\ snd (getIntrinsic fails plain (VString "span")) = plain.
Proof.
  destruct intrinsic_is_cached as (H1 & H2 & H3 & H4).
  split; [|split; [|split]].
  - apply (H1 makes plain (VString "span") (VFunction 9) cached).
    + reflexivity.
    + discriminate.
  - apply (H2 fails plain (VString "span") (VString "no intrinsic")).
    reflexivity.
  - apply (H3 makes plain (VString "span") (VFunction 9) cached); reflexivity.
  - apply (H4 fails plain (VString "span") (VString "no intrinsic")).
    reflexivity.
Defined.

End IntrinsicsFacts.

(** ** Keyed children *)

Section Keyed.
Import JS Runtime.
Context {W : Type}.

Lemma assoc_filter_gone (l : list (val * nat)) k :
  assoc (filter (fun e => e.1 <> k) l) k = None.
Proof.
  induction l as [|[k' x] l IH]; [reflexivity|].
  destruct (decide (k' = k)) as [->|Hne].
  - rewrite filter_cons_False by (intros H; now apply H). exact IH.
  - rewrite filter_cons_True by exact Hne. cbn.
    now rewrite decide_False.
Qed.

Lemma map_get_deleted (m : option (list (val * nat))) k :
  map_get (map_delete m k) k = None.
Proof. destruct m as [l|]; [apply assoc_filter_gone|reflexivity]. Qed.

(** Where [align] puts the node of a key that the parent holds. *)
Definition moved_to (cursor : option nat) (keyed : nat) (children : list nat)
  : list nat :=
  match cursor with
  | None => filter (fun x => x <> keyed) children ++ [keyed]
  | Some node0 =>
      if decide (node0 = keyed) then children
      else Nodes.insert_before keyed node0 (filter (fun x => x <> keyed) children)
  end.

Lemma nodes_align_keyed (s : State Nodes.Node Nodes.closure W)
    this n child k cursor keyed :
  nodes s !! this = Some n ->
  k <> VUndefined ->
  map_get (Nodes.keyedChildren n) k = Some keyed ->
  keyed <> this ->
  exists s' n',
    Nodes.align this child k cursor s = (Promises.Normal (Nodes.Matched keyed), s')
    /\ nodes s' !! this = Some n'
    /\ map_get (Nodes.keyedChildren n') k = None
    /\ Nodes.children n' = moved_to cursor keyed (Nodes.children n)
    /\ (cursor <> Some keyed -> Nodes.moved (nodes s' !!! keyed) = true)
    /\ agrees placed s s'.
Proof.
  intros Hn Hk Hg Hne. unfold Nodes.align, moved_to.
  destruct cursor as [node0|].
  - rewrite decide_True by exact Hk.
    rewrite (run_node _ _ _ _ Hn), Hg, run_assign.
    destruct (decide (node0 <> keyed)) as [Hd|Hd].
    + rewrite decide_False by exact Hd.
      unfold Nodes.removeChild, Nodes.insertBefore.
      rewrite decide_False by congruence.
      repeat (rewrite run_assoc || rewrite run_assign).
      eexists _, _. split; [reflexivity|]. split; [|split; [|split; [|split]]].
      * cbn. rewrite !lookup_alter_eq, lookup_alter_ne, lookup_alter_eq, Hn
          by congruence. reflexivity.
      * cbn. apply map_get_deleted.
      * reflexivity.
      * intros _. cbn. rewrite !lookup_total_alt.
        rewrite !lookup_alter_ne, lookup_alter_eq, lookup_alter_ne by congruence.
        now destruct (nodes s !! keyed).
      * repeat (apply agrees_assign; [intros []; reflexivity|]). apply agrees_refl.
    + assert (node0 = keyed) as -> by (destruct (decide (node0 = keyed)); tauto).
      rewrite decide_True by reflexivity. rewrite run_ret.
      eexists _, _. split; [reflexivity|]. split; [|split; [|split; [|split]]].
      * cbn. rewrite lookup_alter_eq, Hn. reflexivity.
      * cbn. apply map_get_deleted.
      * reflexivity.
      * intros H. now destruct H.
      * apply agrees_assign; [intros []; reflexivity|]. apply agrees_refl.
  - rewrite decide_False by exact Hk.
    rewrite (run_node _ _ _ _ Hn), Hg.
    unfold Nodes.removeChild, Nodes.appendChild.
    repeat (rewrite run_assoc || rewrite run_assign).
    eexists _, _. split; [reflexivity|]. split; [|split; [|split; [|split]]].
    + cbn. rewrite !lookup_alter_eq, lookup_alter_ne, lookup_alter_eq, Hn
        by congruence. reflexivity.
    + cbn. apply map_get_deleted.
    + reflexivity.
    + intros _. cbn. rewrite !lookup_total_alt.
      rewrite !lookup_alter_ne, lookup_alter_eq, lookup_alter_ne by congruence.
      now destruct (nodes s !! keyed).
    + repeat (apply agrees_assign; [intros []; reflexivity|]). apply agrees_refl.
Qed.

Lemma has_added (word mask : Z) :
  mask <> 0%Z -> Elements.has (Elements.add word mask) mask = true.
Proof.
  intros Hm. unfold Elements.has, Elements.add.
  rewrite negb_true_iff, Z.eqb_neq, Z.land_lor_distr_l, Z.land_diag,
    Z.lor_eq_0_iff.
  tauto.
Qed.

Lemma elements_align_keyed (F : Elements.Flags)
    (s : State Elements.Element Elements.closure W) el e i newChild1 old o :
  nodes s !! el = Some e ->
  Elements.keyed (nodes s) newChild1 = true ->
  map_get (Elements.childrenByKey e) (key_of (nodes s) newChild1) = Some old ->
  nodes s !! old = Some o ->
  old <> el ->
  Elements.Moved F <> 0%Z ->
  exists s' e',
    Elements.align F el i newChild1 s
    = (Promises.Normal
         (VOpaque old,
          if decide (Elements.old_child (Elements.children e) i = VOpaque old)
          then S i else i), s')
    /\ nodes s' !! el = Some e'
    /\ map_get (Elements.childrenByKey e') (key_of (nodes s) newChild1) = None
    /\ (Elements.old_child (Elements.children e) i <> VOpaque old ->
        Elements.has (Elements.flags (nodes s' !!! old)) (Elements.Moved F) = true)
    /\ agrees realigned s s'.
Proof.
  intros He Hk Hg Ho Hne Hm. unfold Elements.align.
  rewrite (run_node _ _ _ _ He), run_all_nodes, Hk.
  fold (key_of (nodes s) newChild1). rewrite Hg, run_assign.
  destruct (decide (Elements.old_child (Elements.children e) i = VOpaque old))
    as [Hat|Hat].
  - eexists _, _. split; [now rewrite Hat|].
    split; [|split; [|split]].
    + cbn. rewrite lookup_alter_eq, He. reflexivity.
    + cbn. apply map_get_deleted.
    + intros H. now destruct H.
    + apply agrees_assign; [intros []; reflexivity|]. apply agrees_refl.
  - unfold Elements.raise. rewrite run_assign.
    eexists _, _. split; [reflexivity|]. split; [|split; [|split]].
    + cbn. rewrite lookup_alter_ne, lookup_alter_eq, He by congruence.
      reflexivity.
    + cbn. apply map_get_deleted.
    + intros _. cbn.
      rewrite lookup_total_alt, lookup_alter_eq, lookup_alter_ne, Ho by congruence.
      cbn. now apply has_added.
    + repeat (apply agrees_assign; [intros []; reflexivity|]). apply agrees_refl.
Qed.

End Keyed.

(** X16. A child with a key that its parent holds is matched with the
    node (the old child) of that key wherever that is among the
    children: nothing is created; the key is taken out of the old map;
    unless the node is already at the cursor it is flagged as moved and,
    in [index.ts], linked just before the cursor (last when there is no
    cursor). *)
Theorem keyed_child_keeps_its_node :
  (forall (W : Type) (s : Runtime.State Nodes.Node Nodes.closure W)
          this n child k cursor keyed,
      Runtime.nodes s !! this = Some n ->
      k <> JS.VUndefined ->
      JS.map_get (Nodes.keyedChildren n) k = Some keyed ->
      keyed <> this ->
      exists s' n',
        Nodes.align this child k cursor s
        = (Promises.Normal (Nodes.Matched keyed), s')
        /\ Runtime.nodes s' !! this = Some n'
        /\ JS.map_get (Nodes.keyedChildren n') k = None
        /\ Nodes.children n' = moved_to cursor keyed (Nodes.children n)
        /\ (cursor <> Some keyed ->
            Nodes.moved (Runtime.nodes s' !!! keyed) = true)
        /\ agrees placed s s')
  /\ (forall (W : Type) (F : Elements.Flags)
             (s : Runtime.State Elements.Element Elements.closure W)
             el e i newChild1 old o,
        Runtime.nodes s !! el = Some e ->
        Elements.keyed (Runtime.nodes s) newChild1 = true ->
        JS.map_get (Elements.childrenByKey e) (key_of (Runtime.nodes s) newChild1)
        = Some old ->
        Runtime.nodes s !! old = Some o ->
        old <> el ->
        Elements.Moved F <> 0%Z ->
        exists s' e',
          Elements.align F el i newChild1 s
          = (Promises.Normal
               (JS.VOpaque old,
                if decide (Elements.old_child (Elements.children e) i
                           = JS.VOpaque old)
                then S i else i), s')
          /\ Runtime.nodes s' !! el = Some e'
          /\ JS.map_get (Elements.childrenByKey e')
               (key_of (Runtime.nodes s) newChild1) = None
          /\ (Elements.old_child (Elements.children e) i <> JS.VOpaque old ->
              Elements.has (Elements.flags (Runtime.nodes s' !!! old))
                (Elements.Moved F) = true)
          /\ agrees realigned s s').
Proof.
  split.
  - intros W s this n child k cursor keyed. apply nodes_align_keyed.
  - intros W F s el e i newChild1 old o. apply elements_align_keyed.
Qed.

(** A parent (0) over an unkeyed node (1) and the node of the key "k"
    (2); in the element based revision, with the new child (3) that
    carries the key. *)
Definition keyed_parent : Nodes.Node :=
  Nodes.set_keyedChildren (Some [(JS.VString "k", 2%nat)])
    (Nodes.set_children [1; 2]%nat
       (Nodes.blank Nodes.FragmentNode Nodes.Fragment JS.VUndefined None)).

Definition keyed_nodes : Runtime.State Nodes.Node Nodes.closure Runtime.Log :=
  Runtime.with_nodes (fun _ =>
    {[ 0%nat := keyed_parent;
       1%nat := Nodes.set_moved false
                  (Nodes.blank Nodes.HostNode (JS.VString "p") JS.VUndefined
                     (Some 0%nat));
       2%nat := Nodes.set_moved false
                  (Nodes.blank Nodes.HostNode (JS.VString "p") (JS.VString "k")
                     (Some 0%nat)) ]})
    Runtime.initial.

Definition keyed_element : Elements.Element :=
  Elements.set_childrenByKey (Some [(JS.VString "k", 2%nat)])
    (Elements.set_children (JS.VArray [Some (JS.VOpaque 1); Some (JS.VOpaque 2)])
       (Elements.new_Element 1 Elements.Fragment JS.VUndefined JS.VUndefined
          JS.VUndefined)).

Definition old_keyed : Elements.Element :=
  Elements.new_Element 1 (JS.VString "p") (JS.VObject []) (JS.VString "k")
    JS.VUndefined.

Definition keyed_elements
  : Runtime.State Elements.Element Elements.closure Runtime.Log :=
  Runtime.with_nodes (fun _ =>
    {[ 0%nat := keyed_element;
       1%nat := Elements.new_Element 1 (JS.VString "p") (JS.VObject [])
                  JS.VUndefined JS.VUndefined;
       2%nat := old_keyed;
       3%nat := Elements.new_Element 0 (JS.VString "p") (JS.VObject [])
                  (JS.VString "k") JS.VUndefined ]})
    Runtime.initial.

Lemma keyed_child_keeps_its_node_witness :
  (exists s' n',
     Nodes.align 0 (Nodes.createElement [JS.VString "p"]) (JS.VString "k")
       (Some 1%nat) keyed_nodes
     = (Promises.Normal (Nodes.Matched 2), s')
     /\ Runtime.nodes s' !! 0%nat = Some n'
     /\ JS.map_get (Nodes.keyedChildren n') (JS.VString "k") = None
     /\ Nodes.children n' = [2; 1]%nat
     /\ (Some 1%nat <> Some 2%nat ->
         Nodes.moved (Runtime.nodes s' !!! 2%nat) = true)
     /\ agrees placed keyed_nodes s')
  /\ (exists s' e',
        Elements.align bits 0 0 (JS.VOpaque 3) keyed_elements
        = (Promises.Normal (JS.VOpaque 2, 0%nat), s')
        /\ Runtime.nodes s' !! 0%nat = Some e'
        /\ JS.map_get (Elements.childrenByKey e') (JS.VString "k") = None
        /\ (JS.VOpaque 1 <> JS.VOpaque 2 ->
            Elements.has (Elements.flags (Runtime.nodes s' !!! 2%nat))
              (Elements.Moved bits) = true)
        /\ agrees realigned keyed_elements s').
Proof.
  split.
  - apply (proj1 keyed_child_keeps_its_node Runtime.Log keyed_nodes 0%nat
             keyed_parent (Nodes.createElement [JS.VString "p"]) (JS.VString "k")
             (Some 1%nat) 2%nat).
    + reflexivity.
    + discriminate.
    + reflexivity.
    + discriminate.
  - apply (proj2 keyed_child_keeps_its_node Runtime.Log bits keyed_elements
             0%nat keyed_element 0%nat (JS.VOpaque 3) 2%nat old_keyed).
    + reflexivity.
    + reflexivity.
    + reflexivity.
    + reflexivity.
    + discriminate.
    + discriminate.
Defined.

(** ** Cleanup callbacks *)

Section Cleaning.
Import JS Runtime.



Lemma run_promises_ {N K W A} `{!Inhabited N} (k : unit -> M N K W A) s f :
  (promises_ f ≫= k) s = k tt (with_machine (f (machine s)) s).
Proof. reflexivity. Qed.

(** One statement on, keeping track of the element [H] speaks of. *)
Ltac step H :=
  first
    [ rewrite run_assoc
    | match goal with
      | |- context [(assign ?x ?f ≫= _) ?s0] =>
          rewrite run_assign; apply (lookup_assigned s0 x _ f) in H
      end
    | rewrite run_ret
    | rewrite (run_node _ _ _ _ H)
    | match goal with
      | |- context [(promises_ ?f ≫= _) ?s0] =>
          rewrite run_promises_;
          change (nodes s0) with (nodes (with_machine (f (machine s0)) s0)) in H
      end ].






End Cleaning.

(** ** Rendering into [null] *)

Section NullRoot.
Import JS Runtime.

(** X18. In [index.ts], [render(children, null)] with children that
    are not [null] or [undefined] throws a [TypeError], whatever the
    methods are: the new root node is created, the cache (a [WeakMap])
    is asked to hold it under the key [null], and nothing is updated,
    committed or unmounted. *)
Theorem render_into_null_throws :
  forall (W : Type) (self : Nodes.Methods W) (children : val)
         (s : State Nodes.Node Nodes.closure W),
    nullish children = false ->
    Nodes.render self children VNull s
    = (Promises.Throw (VString "TypeError"),
       (alloc (Nodes.blank Nodes.HostNode Nodes.Portal VUndefined None) s).2).
Proof.
  intros W self children s Hn. unfold Nodes.render.
  set (child := if isNonStringIterable children then _ else children).
  assert (Hc : nullish child = false).
  { subst child. now destruct (isNonStringIterable children). }
  set (portal := if _ && _ then child else _).
  assert (Hp : Nodes.child_tag portal = Nodes.Portal).
  { subst portal.
    destruct (Nodes.isElement child && bool_decide (Nodes.child_tag child = Nodes.Portal))
      eqn:E; [|reflexivity].
    apply andb_true_iff in E as [_ E]. now apply bool_decide_eq_true in E. }
  cbn [nullish negb]. rewrite run_ret, Hp, Hc. cbn [negb andb].
  rewrite bool_decide_true by discriminate. cbn [andb].
  rewrite ?run_assoc. unfold mbind at 1, M_bind at 1.
  unfold alloc at 1. cbv iota beta. reflexivity.
Qed.

Lemma render_into_null_throws_witness :
  Nodes.render (Nodes.methods (scripted idle) 3) (VString "hello") VNull initial
  = (Promises.Throw (VString "TypeError"),
     (alloc (Nodes.blank Nodes.HostNode Nodes.Portal VUndefined None)
        (initial (N := Nodes.Node) (K := Nodes.closure))).2).
Proof.
  apply (render_into_null_throws Log (Nodes.methods (scripted idle) 3)
           (VString "hello") initial).
  reflexivity.
Defined.

End NullRoot.
